(** * Raptor search: a shallow embedding of [src/raptor_search.cpp]

    The development follows the source file top-down: machine integers and
    doubles, the parallel chunk driver [do_parallel], the threshold
    selection, the line emitted per query, the threshold-table cache
    ([compute_simple_model]) and the two search modes
    ([run_program_single], [run_program_multiple]) behind [raptor_search]. *)

From Stdlib Require Import Ascii String DecimalString DecimalN.
From Stdlib Require Import ZArith List Bool Lia Permutation Sorted.
From Stdlib Require Import SpecFloat.
Import ListNotations.

Local Open Scope Z_scope.

(** ** Machine integers *)

(** [size_t] is a 64-bit unsigned integer: arithmetic wraps modulo [2^64]. *)
Definition size_t_modulus : Z := 2 ^ 64.
Definition wrap (z : Z) : Z := z mod size_t_modulus.

(** [count_size_type] is [uint8_t]. *)
Definition wrap8 (z : Z) : Z := z mod 2 ^ 8.

(** ** Lists indexed by [size_t] positions *)

Section ZList.
Context {A : Type}.

(** The first [n] elements (all of them when [n] exceeds the length). *)
Fixpoint take (n : Z) (l : list A) : list A :=
  match l with
  | [] => []
  | x :: l' => if 0 <? n then x :: take (n - 1) l' else []
  end.

(** Everything but the first [n] elements. *)
Fixpoint drop (n : Z) (l : list A) : list A :=
  match l with
  | [] => []
  | x :: l' => if 0 <? n then drop (n - 1) l' else l
  end.

(** [seqan3::views::slice(start, end)]. *)
Definition slice (start end_ : Z) (l : list A) : list A :=
  take (end_ - start) (drop start l).

(** [seqan3::views::chunk(n)]: consecutive blocks of [n] elements, the
    last one possibly shorter; no block for an empty range. *)
Fixpoint chunk_fuel (fuel : nat) (n : Z) (l : list A) : list (list A) :=
  match fuel, l with
  | _, [] => []
  | O, _ :: _ => []
  | S fuel', _ :: _ => take n l :: chunk_fuel fuel' n (drop n l)
  end.

Definition chunk (n : Z) (l : list A) : list (list A) :=
  chunk_fuel (length l) n l.
End ZList.

(** The integers [lo, lo+1, ..., lo+n-1]. *)
Definition zrange (lo : Z) (n : nat) : list Z :=
  map (fun j => lo + Z.of_nat j) (seq 0 n).

(** ** The parallel chunk driver: [do_parallel] (lines 81-100) *)

(** The loop [for (size_t i = 0; i < threads; ++i)] that launches the
    tasks; [tasks] is the vector the futures are appended to, each future
    standing for the pair [(start, end)] its worker was launched with. *)
Fixpoint launch_loop (fuel : nat) (i num_records threads records_per_thread : Z)
         (tasks : list (Z * Z)) : list (Z * Z) :=
  match fuel with
  | O => tasks
  | S fuel' =>
      if i <? threads then
        let start := wrap (records_per_thread * i) in
        let end_ := if i =? wrap (threads - 1) then num_records
                    else wrap (records_per_thread * (i + 1)) in
        launch_loop fuel' (wrap (i + 1)) num_records threads records_per_thread
                    (tasks ++ [(start, end_)])
      else tasks
  end.

(** What the driver did: the ranges it launched workers on, in launch
    order, and the indices of the futures it waited for, in wait order. *)
Record parallel_run : Type := {
  launched : list (Z * Z);
  waited : list nat
}.

(** [do_parallel] without its worker: [None] is the undefined integer
    division [num_records / threads] for [threads = 0].  The second loop
    waits for every element of [tasks]. *)
Definition do_parallel (num_records threads : Z) : option parallel_run :=
  if threads =? 0 then None
  else
    let records_per_thread := num_records / threads in
    let tasks := launch_loop (Z.to_nat threads) 0 num_records threads
                             records_per_thread [] in
    Some {| launched := tasks; waited := seq 0 (length tasks) |}.

(** The indices a task launched on [(start, end)] visits. *)
Definition task_indices (r : Z * Z) : list Z :=
  zrange (fst r) (Z.to_nat (snd r - fst r)).

(** A list of ranges that tile [[lo, hi)] from left to right. *)
Fixpoint tiles (lo : Z) (ranges : list (Z * Z)) (hi : Z) : Prop :=
  match ranges with
  | [] => lo = hi
  | r :: rest => fst r = lo /\ lo <= snd r /\ tiles (snd r) rest hi
  end.

(** ** Doubles

    A [double] is an IEEE 754 binary64 number; the operations are the ones
    of the standard library's executable specification of binary
    floating-point arithmetic, at precision 53 and maximal exponent 1024,
    rounding to nearest, ties to even. *)

Definition double : Type := spec_float.
Definition prec : Z := 53.
Definition emax : Z := 1024.

(** [static_cast<double>(n)] for an unsigned integer [n]. *)
Definition double_of_size_t (n : Z) : double :=
  binary_normalize prec emax n 0 false.

Definition double_mul (x y : double) : double := SFmul prec emax x y.
Definition double_div (x y : double) : double := SFdiv prec emax x y.

(** [std::ceil]. *)
Definition double_ceil (x : double) : double :=
  match x with
  | S754_finite s m e =>
      if 0 <=? e then x
      else
        let q := Z.pos m / 2 ^ (- e) in
        let r := Z.pos m mod 2 ^ (- e) in
        if s then binary_normalize prec emax (- q) 0 true
        else binary_normalize prec emax (if r =? 0 then q else q + 1) 0 false
  | _ => x
  end.

(** [static_cast<size_t>(x)]: the value truncated toward zero; [None]
    where the truncated value is not a [size_t] (the conversion is then
    undefined). *)
Definition size_t_of_double (x : double) : option Z :=
  match x with
  | S754_zero _ => Some 0
  | S754_finite s m e =>
      let t := if 0 <=? e then Z.pos m * 2 ^ e else Z.pos m / 2 ^ (- e) in
      if s then (if t =? 0 then Some 0 else None)
      else if t <? size_t_modulus then Some t else None
  | _ => None
  end.

Definition double_zero : double := S754_zero false.
Definition double_one : double := S754_finite false 4503599627370496 (-52).
Definition double_le (x y : double) : bool := SFleb x y.
Definition double_lt (x y : double) : bool := SFltb x y.

(** A user threshold of the specification: a double in (0, 1]. *)
Definition unit_interval (t : double) : Prop :=
  valid_binary prec emax t = true /\
  double_lt double_zero t = true /\ double_le t double_one = true.

(** Where the quotient [N / D] lies between the integers around it. *)
Definition loc_div (N D : Z) : location :=
  if N mod D =? 0 then loc_Exact else loc_Inexact (2 * (N mod D) ?= D).

(** The integer nearest to [N / D], ties to even. *)
Definition rne_div (N D : Z) : Z :=
  match 2 * (N mod D) ?= D with
  | Lt => N / D
  | Eq => if Z.even (N / D) then N / D else N / D + 1
  | Gt => N / D + 1
  end.

(** The value [W * 2^L] rounded to a double, in units of [2^L]. *)
Definition round_scaled (L W : Z) : Z :=
  let k := Z.max 0 (fexp prec emax (Zdigits2 W + L) - L) in
  rne_div W (2 ^ k) * 2 ^ k.

(** The contextual conversion to [bool] followed by [!]: [!x] holds
    exactly for the two zeros (a NaN is not zero). *)
Definition double_is_zero (x : double) : bool :=
  match x with
  | S754_zero _ => true
  | _ => false
  end.

(** ** Search arguments

    [search_arguments] is declared in [shared.hpp]; these are the fields
    [raptor_search.cpp] reads.  The integer fields hold unsigned values. *)

Record search_arguments : Type := {
  window_size : Z;
  kmer_size : Z;
  pattern_size : Z;
  errors : Z;
  tau : double;
  threshold : double;
  treshold_was_set : bool;
  threads : Z;
  parts : Z;
  compressed : bool;
  write_time : bool;
  ibf_file : string;
  query_file : string;
  out_file : string
}.

(** The same arguments with another value for [parts]. *)
Definition with_parts (a : search_arguments) (n : Z) : search_arguments :=
  {| window_size := window_size a; kmer_size := kmer_size a;
     pattern_size := pattern_size a; errors := errors a; tau := tau a;
     threshold := threshold a; treshold_was_set := treshold_was_set a;
     threads := threads a; parts := n; compressed := compressed a;
     write_time := write_time a; ibf_file := ibf_file a;
     query_file := query_file a; out_file := out_file a |}.

(** ** The constants of a run (lines 117-124 and 268-275) *)

Definition kmers_per_window (a : search_arguments) : Z :=
  wrap (wrap (window_size a - kmer_size a) + 1).

Definition kmers_per_pattern (a : search_arguments) : Z :=
  wrap (wrap (pattern_size a - kmer_size a) + 1).

(** Both branches of the conditional have the common type [double], and
    the value is converted back to [size_t] by the initialisation. *)
Definition min_number_of_minimisers (a : search_arguments) : option Z :=
  size_t_of_double
    (if kmers_per_window a =? 1 then double_of_size_t (kmers_per_pattern a)
     else double_ceil (double_div (double_of_size_t (kmers_per_pattern a))
                                  (double_of_size_t (kmers_per_window a)))).

Definition kmer_lemma (a : search_arguments) : Z :=
  let lhs := wrap (pattern_size a + 1) in
  let rhs := wrap (wrap (errors a + 1) * kmer_size a) in
  if rhs <? lhs then wrap (lhs - rhs) else 0.

Definition max_number_of_minimisers (a : search_arguments) : Z :=
  wrap (wrap (pattern_size a - window_size a) + 1).

(** The constants the worker lambdas capture. *)
Record search_constants : Type := {
  c_kmers_per_window : Z;
  c_min_number_of_minimisers : Z;
  c_kmer_lemma : Z;
  c_max_number_of_minimisers : Z
}.

(** [None] when the conversion that initialises
    [min_number_of_minimisers] is undefined. *)
Definition derive_constants (a : search_arguments) : option search_constants :=
  match min_number_of_minimisers a with
  | None => None
  | Some minm =>
      Some {| c_kmers_per_window := kmers_per_window a;
              c_min_number_of_minimisers := minm;
              c_kmer_lemma := kmer_lemma a;
              c_max_number_of_minimisers := max_number_of_minimisers a |}
  end.

(** ** Threshold selection (lines 199-206 and 300-307)

    [None] is undefined behaviour: an index past the end of
    [precomp_thresholds], or a product that is not a [size_t]. *)
Definition select_threshold (a : search_arguments) (c : search_constants)
           (precomp_thresholds : list Z) (minimiser_count : Z) : option Z :=
  if treshold_was_set a then
    size_t_of_double (double_mul (double_of_size_t minimiser_count) (threshold a))
  else if c_kmers_per_window c =? 1 then Some (c_kmer_lemma c)
  else
    let index :=
      Z.min (if minimiser_count <? c_min_number_of_minimisers c then 0
             else wrap (minimiser_count - c_min_number_of_minimisers c))
            (wrap (c_max_number_of_minimisers c - c_min_number_of_minimisers c)) in
    match nth_error precomp_thresholds (Z.to_nat index) with
    | Some t => Some (wrap (t + 2))
    | None => None
    end.

(** ** The interleaved Bloom filter and its counting agent *)

(** Modelled from the spec: the interleaved Bloom filter of seqan3 is not
    part of the source.  A filter has [bin_count] bins and answers, for a
    hash value and a bin, whether the membership bits of the hash are set
    for the bin. *)
Record interleaved_bloom_filter : Type := {
  bin_count : nat;
  contains : Z -> nat -> bool
}.

(** The number of hashes whose membership bits are set for bin [b]. *)
Definition member_count (ibf : interleaved_bloom_filter) (hashes : list Z)
           (b : nat) : Z :=
  Z.of_nat (length (filter (fun h => contains ibf h b) hashes)).

(** Modelled from the spec: [bulk_count] of the counting agent; entry [b]
    is the number of hashes whose membership bits are set for bin [b], held
    in an 8-bit unsigned counter. *)
Definition bulk_count (ibf : interleaved_bloom_filter) (hashes : list Z) : list Z :=
  map (fun b => wrap8 (member_count ibf hashes b)) (seq 0 (bin_count ibf)).

(** Modelled from the spec: the loop of [operator+=] of the counting
    vector.  It adds to every counter of the accumulator the counter of
    [rhs] at the same position, on 8-bit unsigned counters; the accumulator
    keeps its size, and counters of [rhs] past it are not read. *)
Definition cv_sum (acc rhs : list Z) : list Z :=
  map (fun p => wrap8 (fst p + snd p)) (combine acc rhs).

(** Modelled from the spec: [operator+=] of the counting vector.  It reads
    a counter of [rhs] for every counter of the accumulator: with a
    shorter [rhs] it reads past its end, which is undefined ([None]). *)
Definition cv_add (acc rhs : list Z) : option (list Z) :=
  if (length rhs <? length acc)%nat then None else Some (cv_sum acc rhs).

(** The filter of lines 107 and 244 as it is default-constructed, before
    an index is loaded into it: the library leaves it without bins. *)
Definition empty_ibf : interleaved_bloom_filter :=
  {| bin_count := 0; contains := fun _ _ => false |}.

(** An index split by hash value into [n] parts: every part has the bins
    of the whole index, and a hash has its membership bits set for a bin
    of the whole index exactly when it has them set in exactly one part. *)
Definition splits_by_hash (whole : interleaved_bloom_filter)
           (part : Z -> interleaved_bloom_filter) (n : Z) : Prop :=
  (forall i, 0 <= i < n -> bin_count (part i) = bin_count whole) /\
  (forall h b, (b < bin_count whole)%nat ->
     length (filter (fun i => contains (part i) h b) (zrange 0 (Z.to_nat n)))
     = if contains whole h b then 1%nat else 0%nat).

(** An index split by bin into [n] parts of [width] bins each: bin [j] of
    part [i] is bin [i * width + j] of the whole index. *)
Definition splits_by_bin (whole : interleaved_bloom_filter)
           (part : Z -> interleaved_bloom_filter) (n : Z) (width : nat) : Prop :=
  Z.of_nat (bin_count whole) = n * Z.of_nat width /\
  (forall i, 0 <= i < n -> bin_count (part i) = width) /\
  (forall i h j, 0 <= i < n -> (j < width)%nat ->
     contains (part i) h j = contains whole h (Z.to_nat i * width + j)).

(** ** The line emitted for a record (lines 186-219 and 288-320) *)

Definition tab : string := String "009"%char EmptyString.
Definition newline : string := String "010"%char EmptyString.
Definition comma : string := String ","%char EmptyString.

(** [std::to_string] on a [size_t]. *)
Definition to_string (n : Z) : string :=
  NilZero.string_of_uint (N.to_uint (Z.to_N n)).

(** The loop [for (auto && count : ...)] with its two running variables. *)
Fixpoint emit_bins (threshold : Z) (counts : list Z) (current_bin : Z)
         (result_string : string) : string :=
  match counts with
  | [] => result_string
  | count :: rest =>
      let result_string :=
        if threshold <=? count
        then (result_string ++ to_string current_bin ++ comma)%string
        else result_string in
      emit_bins threshold rest (current_bin + 1) result_string
  end.

Definition emit_line (id : string) (threshold : Z) (counts : list Z) : string :=
  (emit_bins threshold counts 0 (id ++ tab) ++ newline)%string.

(** ** Records and index files *)

Inductive dna4 : Type := dna_A | dna_C | dna_G | dna_T.

Record record_type : Type := {
  rec_id : string;
  rec_seq : list dna4
}.

(** What the run reads: the records of the query file, the index file of
    single-part mode and the index files [P_0, P_1, ...] of multi-part
    mode.  The files are taken to exist and to deserialise. *)
Record inputs : Type := {
  query_records : list record_type;
  ibf_single : interleaved_bloom_filter;
  ibf_part : Z -> interleaved_bloom_filter
}.

(** [(1ULL<<20)*10], the number of records per chunk. *)
Definition chunk_size : Z := 2 ^ 20 * 10.

(** ** Files, I/O events and the monad of a run *)

(** The operations on files, in the order the program performs them. *)
Inductive io_event : Type :=
| ev_open_ibf                      (* [std::ifstream is{arguments.ibf_file}] *)
| ev_load_ibf (part : option Z)    (* deserialise the index; [Some i] is part [i] *)
| ev_open_query                    (* construct the sequence file input *)
| ev_read_chunk (n : nat)          (* move [n] records into [records] *)
| ev_open_out                      (* construct [sync_out]: create or truncate *)
| ev_write (data : string)         (* [sync_out::write] *)
| ev_cache_read                    (* [do_cerealisation_in] *)
| ev_precompute                    (* [precompute_threshold] *)
| ev_cache_write                   (* [do_cerealisation_out] *)
| ev_write_time.                   (* the [.time] file *)

(** [out] is the results file: [None] while it does not exist, otherwise
    the strings written to it so far; [cache] is the threshold cache file
    of the current parameters. *)
Record world : Type := {
  out : option (list string);
  cache : option (list Z);
  trace : list io_event
}.

(** A step either finishes with a value, or its behaviour is undefined
    from the world it had reached. *)
Inductive result (X : Type) : Type :=
| Ok (x : X) (w : world)
| Undef (w : world).
Arguments Ok {X} x w.
Arguments Undef {X} w.

Definition M (X : Type) : Type := world -> result X.

Definition ret {X : Type} (x : X) : M X := fun w => Ok x w.

Definition bind {X Y : Type} (m : M X) (k : X -> M Y) : M Y :=
  fun w => match m w with
           | Ok x w' => k x w'
           | Undef w' => Undef w'
           end.

Declare Scope run_scope.
Delimit Scope run_scope with run.
Notation "x <- m ;; k" := (bind m (fun x => k))
  (at level 61, m at next level, right associativity) : run_scope.
Notation "m ;; k" := (bind m (fun _ => k))
  (at level 61, right associativity) : run_scope.

(** Undefined behaviour of a pure computation. *)
Definition defined {X : Type} (o : option X) : M X :=
  fun w => match o with
           | Some x => Ok x w
           | None => Undef w
           end.

Definition log (e : io_event) : M unit :=
  fun w => Ok tt {| out := out w; cache := cache w; trace := trace w ++ [e] |}.

(** The constructor [sync_out(path)]: [std::ofstream{path}] creates the
    file, or truncates it when it exists. *)
Definition open_out : M unit :=
  fun w => Ok tt {| out := Some []; cache := cache w;
                    trace := trace w ++ [ev_open_out] |}.

(** [sync_out::write], once per string, in the given order. *)
Definition write_all (data : list string) : M unit :=
  fun w => Ok tt {| out := option_map (fun o => o ++ data) (out w);
                    cache := cache w;
                    trace := trace w ++ map ev_write data |}.

(** Modelled from the spec: [do_cerealisation_in] is declared in
    [shared.hpp]; it attempts to read the cached table and reports whether
    it did. *)
Definition do_cerealisation_in : M (option (list Z)) :=
  fun w => Ok (cache w) {| out := out w; cache := cache w;
                           trace := trace w ++ [ev_cache_read] |}.

(** Modelled from the spec: [do_cerealisation_out] writes the table to the
    cache file. *)
Definition do_cerealisation_out (table : list Z) : M unit :=
  fun w => Ok tt {| out := out w; cache := Some table;
                    trace := trace w ++ [ev_cache_write] |}.

(** A monadic loop over a list, first element first. *)
Fixpoint for_each {X : Type} (l : list X) (body : X -> M unit) : M unit :=
  match l with
  | [] => ret tt
  | x :: l' => bind (body x) (fun _ => for_each l' body)
  end.

(** The same with the position of the element, counted from [j]. *)
Fixpoint for_each_from {X : Type} (j : nat) (l : list X)
         (body : nat -> X -> M unit) : M unit :=
  match l with
  | [] => ret tt
  | x :: l' => bind (body j x) (fun _ => for_each_from (S j) l' body)
  end.

(** The world a step ended in. *)
Definition world_of {X : Type} (r : result X) : world :=
  match r with
  | Ok _ w => w
  | Undef w => w
  end.

(** The value a step finished with. *)
Definition value_of {X : Type} (r : result X) : option X :=
  match r with
  | Ok x _ => Some x
  | Undef _ => None
  end.

(** The second world continues the trace of the first. *)
Definition extends (w w' : world) : Prop :=
  exists rest, trace w' = trace w ++ rest.

(** A step only adds to the trace. *)
Definition grows {X : Type} (m : M X) : Prop :=
  forall w, extends w (world_of (m w)).

(** The strings in the results file (none when it does not exist). *)
Definition written (w : world) : list string :=
  match out w with
  | Some data => data
  | None => []
  end.

(** All results of a list of fallible computations, or [None]. *)
Fixpoint all_defined {X : Type} (l : list (option X)) : option (list X) :=
  match l with
  | [] => Some []
  | None :: _ => None
  | Some x :: l' =>
      match all_defined l' with
      | Some xs => Some (x :: xs)
      | None => None
      end
  end.

(** [v[i] = f(v[i])] on a vector. *)
Fixpoint update {X : Type} (i : Z) (f : X -> X) (l : list X) : list X :=
  match l with
  | [] => []
  | x :: l' => if i =? 0 then f x :: l' else x :: update (i - 1) f l'
  end.

(** ** What a run leaves behind *)

(** The same arguments with another value for [threads]. *)
Definition with_threads (a : search_arguments) (n : Z) : search_arguments :=
  {| window_size := window_size a; kmer_size := kmer_size a;
     pattern_size := pattern_size a; errors := errors a; tau := tau a;
     threshold := threshold a; treshold_was_set := treshold_was_set a;
     threads := n; parts := parts a; compressed := compressed a;
     write_time := write_time a; ibf_file := ibf_file a;
     query_file := query_file a; out_file := out_file a |}.

(** [load_ibf] (lines 71-72): the file of a part is
    [ibf_file + "_" + std::to_string(part)]. *)
Definition part_file (a : search_arguments) (part : Z) : string :=
  (ibf_file a ++ "_" ++ to_string part)%string.

(** The parts [load_ibf] was called for, in the order of the calls. *)
Definition loaded_parts (tr : list io_event) : list Z :=
  flat_map (fun e => match e with
                     | ev_load_ibf (Some part) => [part]
                     | _ => []
                     end) tr.

(** The events of [compute_simple_model] when the cache file holds
    [cached]. *)
Definition cache_events (a : search_arguments) (cached : option (list Z))
  : list io_event :=
  if double_is_zero (threshold a) then
    match cached with
    | Some _ => [ev_cache_read]
    | None => [ev_cache_read; ev_precompute; ev_cache_write]
    end
  else [].

(** The events of the block that writes the [.time] file. *)
Definition timing_events (a : search_arguments) : list io_event :=
  if write_time a then [ev_write_time] else [].

(** The events of a chunk in single-part mode: the chunk is read, then
    its lines are written. *)
Definition single_chunk_events (ch : list record_type) (data : list string)
  : list io_event :=
  ev_read_chunk (length ch) :: map ev_write data.

(** The events of a chunk in multi-part mode with [n] parts: part 0 is
    loaded and the chunk read, the parts [1 .. n - 2] are loaded, then part
    [n - 1]; the results file is opened and the lines are written. *)
Definition multiple_chunk_events (n : Z) (ch : list record_type)
           (data : list string) : list io_event :=
  ev_load_ibf (Some 0) :: ev_read_chunk (length ch)
  :: map (fun part => ev_load_ibf (Some part)) (zrange 1 (Z.to_nat (n - 2)))
  ++ [ev_load_ibf (Some (n - 1)); ev_open_out] ++ map ev_write data.

(** The strings [data] are the lines of the records [ch], in some order. *)
Definition lines_of (f : record_type -> option string) (data : list string)
           (ch : list record_type) : Prop :=
  exists ys, all_defined (map f ch) = Some ys /\ Permutation data ys.

(** ** The statements of the specification, over the integers *)

Module Spec.

(** Section 3: the invariants of a query parameterisation. *)
Definition valid (a : search_arguments) : Prop :=
  kmer_size a <= 32 /\ kmer_size a <= window_size a /\
  window_size a <= pattern_size a /\ 1 <= parts a.

(** The ceiling of [a / b]. *)
Definition ceil_div (a b : Z) : Z := (a + b - 1) / b.

Definition min_minimisers (p w k : Z) : Z := ceil_div (p - k + 1) (w - k + 1).
Definition max_minimisers (p w : Z) : Z := p - w + 1.
Definition kmer_lemma (p e k : Z) : Z := Z.max 0 (p + 1 - (e + 1) * k).

(** The floor of [m * t] for the exact value of the double [t]. *)
Definition floor_product (m : Z) (t : double) : Z :=
  match t with
  | S754_finite s mt e =>
      let n := (if s then -1 else 1) * (m * Z.pos mt) in
      if 0 <=? e then n * 2 ^ e else n / 2 ^ (- e)
  | _ => 0
  end.

(** The offset into the threshold table: the observed count less
    [min_minimisers], clamped to [[0, max_minimisers - min_minimisers]]. *)
Definition table_index (a : search_arguments) (m : Z) : Z :=
  let minm := min_minimisers (pattern_size a) (window_size a) (kmer_size a) in
  let maxm := max_minimisers (pattern_size a) (window_size a) in
  Z.min (if m <? minm then 0 else m - minm) (maxm - minm).

(** Threshold selection as the specification states it. *)
Definition tau_req (a : search_arguments) (table : list Z) (m : Z) : option Z :=
  if treshold_was_set a then Some (floor_product m (threshold a))
  else if window_size a - kmer_size a + 1 =? 1
       then Some (kmer_lemma (pattern_size a) (errors a) (kmer_size a))
  else option_map (fun t => t + 2) (nth_error table (Z.to_nat (table_index a m))).

(** The same, with the user threshold applied in double arithmetic. *)
Definition tau_req_double (a : search_arguments) (table : list Z) (m : Z)
  : option Z :=
  if treshold_was_set a then
    size_t_of_double (double_mul (double_of_size_t m) (threshold a))
  else if window_size a - kmer_size a + 1 =? 1
       then Some (kmer_lemma (pattern_size a) (errors a) (kmer_size a))
  else option_map (fun t => t + 2) (nth_error table (Z.to_nat (table_index a m))).

(** The bins whose count meets the threshold, in ascending order. *)
Definition hit_bins (threshold : Z) (counts : list Z) : list Z :=
  map fst (filter (fun bc => threshold <=? snd bc)
                  (combine (zrange 0 (length counts)) counts)).

(** Section 6: the line of a query, [<id>\t<bin>,<bin>,...,\n]. *)
Definition line (id : string) (bins : list Z) : string :=
  (id ++ tab ++ String.concat EmptyString (map (fun b => to_string b ++ comma) bins)
      ++ newline)%string.

(** Section 4.5: the range of task [i] out of [t] over [n] records. *)
Definition task_range (n t i : Z) : Z * Z :=
  (i * (n / t), if i =? t - 1 then n else (i + 1) * (n / t)).

(** The (id, bin) pairs of a list of reports. *)
Definition pairs (reports : list (string * list Z)) : list (string * Z) :=
  flat_map (fun r => map (pair (fst r)) (snd r)) reports.

(** Section 8, property 5: two lists of reports have the same
    (id, bin) pairs up to a renumbering of the bins of the first. *)
Definition equal_up_to_renumbering (multiple single : list (string * list Z))
  : Prop :=
  exists rho : Z -> Z,
    forall id b,
      In (id, b) (pairs single)
      <-> exists b', In (id, b') (pairs multiple) /\ rho b' = b.

(** Section 7: a parameterisation that violates the invariants is
    rejected before any I/O; the run has no result and leaves the world
    as it was. *)
Definition validated_before_io
           (search : search_arguments -> inputs -> M unit) : Prop :=
  forall a inp w,
    ~ valid a ->
    value_of (search a inp w) = None /\ world_of (search a inp w) = w.

End Spec.

(** ** A small instance

    Doubles, arguments, an index of two bins and its two ways of being
    split, and a toy minimiser view, for evaluating the definitions above. *)

Module Example.

(** The doubles nearest to 0.5, 0.7, 0.29 and 0.99. *)
Definition half : double := S754_finite false 4503599627370496 (-53).
Definition seven_tenths : double := S754_finite false 6305039478318694 (-53).
Definition twenty_nine_hundredths : double :=
  S754_finite false 5224175567749775 (-54).
Definition ninety_nine_hundredths : double :=
  S754_finite false 8917127262193582 (-53).

Definition arguments (w k p e : Z) (t : double) (set : bool) (n : Z)
  : search_arguments :=
  {| window_size := w; kmer_size := k; pattern_size := p; errors := e;
     tau := ninety_nine_hundredths; threshold := t; treshold_was_set := set;
     threads := 2; parts := n; compressed := false; write_time := false;
     ibf_file := "index.ibf"; query_file := "queries.fastq";
     out_file := "search.out" |}.

(** Scenario S1: [k = 19], [w = 23], [p = 100], [e = 2]. *)
Definition scenario (t : double) (set : bool) (n : Z) : search_arguments :=
  arguments 23 19 100 2 t set n.

Definition scenario_constants : search_constants :=
  {| c_kmers_per_window := 5; c_min_number_of_minimisers := 17;
     c_kmer_lemma := 44; c_max_number_of_minimisers := 78 |}.

(** [k = w = 2], [p = 3], [e = 0]: one k-mer per window. *)
Definition small (t : double) (set : bool) (n : Z) : search_arguments :=
  arguments 2 2 3 0 t set n.

Definition small_constants : search_constants :=
  {| c_kmers_per_window := 1; c_min_number_of_minimisers := 2;
     c_kmer_lemma := 2; c_max_number_of_minimisers := 2 |}.

Definition code (x : dna4) : Z :=
  match x with dna_A => 0 | dna_C => 1 | dna_G => 2 | dna_T => 3 end.

(** One value per window: the rank of the letter the window starts
    with, plus one.  A sequence shorter than the window has none. *)
Definition hash (k w seed : Z) (s : list dna4) : list Z :=
  map (fun x => code x + 1)
      (firstn (Z.to_nat (Z.of_nat (length s) - w + 1)) s).

Definition seed (k : Z) : Z := Z.shiftr 0x8F3F73B5CF1C9ADE (64 - 2 * k).

Definition precompute (p w k e : Z) (t : double) : list Z := [3; 4; 5].

(** Two bins; bin [b] holds the value [b + 1]. *)
Definition whole : interleaved_bloom_filter :=
  {| bin_count := 2; contains := fun h b => h =? Z.of_nat b + 1 |}.

(** Part [i] holds the values of parity [i], in the bins of [whole]. *)
Definition by_hash (i : Z) : interleaved_bloom_filter :=
  {| bin_count := 2;
     contains := fun h b => contains whole h b && (h mod 2 =? i) |}.

(** Part [i] holds bin [i] of [whole]. *)
Definition by_bin (i : Z) : interleaved_bloom_filter :=
  {| bin_count := 1;
     contains := fun h j => contains whole h (Z.to_nat i * 1 + j) |}.

Definition query : record_type :=
  {| rec_id := "q"; rec_seq := [dna_A; dna_C; dna_A] |}.

Definition short : record_type :=
  {| rec_id := "s"; rec_seq := [dna_G] |}.

(** Ten windows of size 23: six start with [A], four with [G]. *)
Definition long : record_type :=
  {| rec_id := "r"; rec_seq := repeat dna_A 6 ++ repeat dna_G 26 |}.

Definition inputs_by_hash (records : list record_type) : inputs :=
  {| query_records := records; ibf_single := whole; ibf_part := by_hash |}.

Definition inputs_by_bin (records : list record_type) : inputs :=
  {| query_records := records; ibf_single := whole; ibf_part := by_bin |}.

(** Three full chunks and 17 records. *)
Definition many : list record_type :=
  repeat query (3 * Z.to_nat chunk_size + 17).

Definition start : world := {| out := None; cache := None; trace := [] |}.

End Example.

(** ** The search *)

Section Search.

(** [seqan3::views::minimiser_hash] on a shape size, a window size and a
    seed; [adjust_seed] of [shared.hpp]; [precompute_threshold] of
    [minimiser_model.hpp]. *)
Variable minimiser_hash : Z -> Z -> Z -> list dna4 -> list Z.
Variable adjust_seed : Z -> Z.
Variable precompute_threshold : Z -> Z -> Z -> Z -> double -> list Z.

(** The order in which the strings of concurrent workers reach the
    results file: each [write] is atomic under the mutex, the order
    across workers is up to the scheduler. *)
Variable interleave : list (list string) -> list string.
Hypothesis interleave_perm :
  forall ls, Permutation (interleave ls) (concat ls).

(** The read of [ibf.bin_count()] at lines 142-143 is not ordered with
    the load of part 0 that line 134 starts in the background: the wait
    for it is at line 163.  [part0_loaded j] tells whether, in chunk [j],
    that load had finished when the accumulators were allocated: the
    read then yields the width of part 0, and otherwise the width of the
    filter as it was before the load. *)
Variable part0_loaded : nat -> bool.

Set Default Proof Using "Type*".

(** [seq | hash_view] *)
Definition minimisers (a : search_arguments) (r : record_type) : list Z :=
  minimiser_hash (kmer_size a) (window_size a) (adjust_seed (kmer_size a))
                 (rec_seq r).

(** *** [compute_simple_model] (lines 50-66) *)
Definition compute_simple_model (a : search_arguments) : M (list Z) :=
  if double_is_zero (threshold a) then
    (cached <- do_cerealisation_in ;;
     match cached with
     | Some table => ret table
     | None =>
         log ev_precompute ;;
         let table := precompute_threshold (pattern_size a) (window_size a)
                                           (kmer_size a) (errors a) (tau a) in
         do_cerealisation_out table ;;
         ret table
     end)%run
  else ret [].

(** The table [compute_simple_model] returns when the cache file holds
    [cached]. *)
Definition threshold_table (a : search_arguments) (cached : option (list Z))
  : list Z :=
  if double_is_zero (threshold a) then
    match cached with
    | Some table => table
    | None => precompute_threshold (pattern_size a) (window_size a)
                                   (kmer_size a) (errors a) (tau a)
    end
  else [].

(** *** A parallel phase that writes lines *)

(** [do_parallel] on a task that writes a string per record; a task is
    given by the strings it writes, or [None]. *)
Definition parallel_lines (task : Z -> Z -> option (list string))
           (num_records threads : Z) : M unit :=
  (run <- defined (do_parallel num_records threads) ;;
   lines <- defined (all_defined (map (fun r => task (fst r) (snd r))
                                      (launched run))) ;;
   write_all (interleave lines))%run.

(** *** Single-part mode: [run_program_single] (lines 239-348) *)

(** The body of the worker's loop. *)
Definition worker_record (a : search_arguments) (c : search_constants)
           (precomp_thresholds : list Z) (ibf : interleaved_bloom_filter)
           (r : record_type) : option string :=
  let minimiser := minimisers a r in
  let result := bulk_count ibf minimiser in
  let minimiser_count := Z.of_nat (length minimiser) in
  match select_threshold a c precomp_thresholds minimiser_count with
  | Some threshold => Some (emit_line (rec_id r) threshold result)
  | None => None
  end.

Definition worker (a : search_arguments) (c : search_constants)
           (precomp_thresholds : list Z) (ibf : interleaved_bloom_filter)
           (records : list record_type) (start end_ : Z)
  : option (list string) :=
  all_defined (map (worker_record a c precomp_thresholds ibf)
                   (slice start end_ records)).

(** The body of the loop over chunks. *)
Definition single_chunk (a : search_arguments) (c : search_constants)
           (precomp_thresholds : list Z) (ibf : interleaved_bloom_filter)
           (records : list record_type) : M unit :=
  (log (ev_read_chunk (length records)) ;;
   parallel_lines (worker a c precomp_thresholds ibf records)
                  (Z.of_nat (length records)) (threads a))%run.

(** The index is deserialised by a background task that is waited for
    before the first parallel phase; the run is the one in which the
    task has finished when the next statement starts. *)
Definition run_program_single_chunked (n : Z) (a : search_arguments)
           (inp : inputs) : M unit :=
  (log ev_open_ibf ;;
   log (ev_load_ibf None) ;;
   log ev_open_query ;;
   open_out ;;
   c <- defined (derive_constants a) ;;
   precomp_thresholds <- compute_simple_model a ;;
   for_each (chunk n (query_records inp))
            (single_chunk a c precomp_thresholds (ibf_single inp)) ;;
   if write_time a then log ev_write_time else ret tt)%run.

Definition run_program_single : search_arguments -> inputs -> M unit :=
  run_program_single_chunked chunk_size.

(** *** Multi-part mode: [run_program_multiple] (lines 102-237) *)

(** The loop of [count_task].  [None] is undefined behaviour: an index
    past the end of [counts], or an accumulator wider than the counts
    added to it. *)
Fixpoint count_loop (a : search_arguments) (ibf : interleaved_bloom_filter)
         (recs : list record_type) (counter_id : Z) (counts : list (list Z))
  : option (list (list Z)) :=
  match recs with
  | [] => Some counts
  | r :: rest =>
      let result := bulk_count ibf (minimisers a r) in
      match nth_error counts (Z.to_nat counter_id) with
      | None => None
      | Some acc =>
          match cv_add acc result with
          | None => None
          | Some acc' =>
              count_loop a ibf rest (counter_id + 1)
                         (update counter_id (fun _ => acc') counts)
          end
      end
  end.

Definition count_task (a : search_arguments) (ibf : interleaved_bloom_filter)
           (records : list record_type) (counts : list (list Z))
           (start end_ : Z) : option (list (list Z)) :=
  count_loop a ibf (slice start end_ records) start counts.

(** [do_parallel(count_task, ...)]: the tasks work on disjoint slices of
    [counts]. *)
Definition parallel_count (a : search_arguments)
           (ibf : interleaved_bloom_filter) (records : list record_type)
           (counts : list (list Z)) : M (list (list Z)) :=
  (run <- defined (do_parallel (Z.of_nat (length records)) (threads a)) ;;
   defined (fold_left (fun cs r =>
                         match cs with
                         | Some cs => count_task a ibf records cs (fst r) (snd r)
                         | None => None
                         end)
                      (launched run) (Some counts)))%run.

(** The parts between the first and the last:
    [iota(1u, static_cast<unsigned int>(arguments.parts - 1))]. *)
Definition middle_parts (a : search_arguments) : list Z :=
  zrange 1 (Z.to_nat ((parts a - 1) mod 2 ^ 32 - 1)).

Fixpoint count_parts (a : search_arguments) (inp : inputs)
         (records : list record_type) (part_ids : list Z)
         (counts : list (list Z)) : M (list (list Z)) :=
  match part_ids with
  | [] => ret counts
  | part :: rest =>
      (log (ev_load_ibf (Some part)) ;;
       counts' <- parallel_count a (ibf_part inp part) records counts ;;
       count_parts a inp records rest counts')%run
  end.

(** The loop of [output_task]; the accumulators are returned with the
    lines. *)
Fixpoint output_loop (a : search_arguments) (c : search_constants)
         (precomp_thresholds : list Z) (ibf : interleaved_bloom_filter)
         (recs : list record_type) (counter_id : Z) (counts : list (list Z))
  : option (list string * list (list Z)) :=
  match recs with
  | [] => Some ([], counts)
  | r :: rest =>
      let minimiser := minimisers a r in
      match nth_error counts (Z.to_nat counter_id) with
      | None => None
      | Some acc =>
          match cv_add acc (bulk_count ibf minimiser) with
          | None => None
          | Some acc' =>
              let counts := update counter_id (fun _ => acc') counts in
              let minimiser_count := Z.of_nat (length minimiser) in
              match select_threshold a c precomp_thresholds minimiser_count with
              | None => None
              | Some threshold =>
                  let data := emit_line (rec_id r) threshold acc' in
                  match output_loop a c precomp_thresholds ibf rest
                                    (counter_id + 1) counts with
                  | None => None
                  | Some (lines, counts') => Some (data :: lines, counts')
                  end
              end
          end
      end
  end.

Definition output_task (a : search_arguments) (c : search_constants)
           (precomp_thresholds : list Z) (ibf : interleaved_bloom_filter)
           (records : list record_type) (counts : list (list Z))
           (start end_ : Z) : option (list string) :=
  option_map fst (output_loop a c precomp_thresholds ibf
                              (slice start end_ records) start counts).

(** The filter [ibf] holds when chunk [j] starts: the empty filter in
    the first chunk, afterwards the last part of the chunk before. *)
Definition held_before (a : search_arguments) (inp : inputs) (j : nat)
  : interleaved_bloom_filter :=
  match j with
  | O => empty_ibf
  | S _ => ibf_part inp (wrap (parts a - 1))
  end.

(** The width [ibf.bin_count()] the accumulators of chunk [j] are
    allocated with (lines 142-143): that of part 0 when its load had
    finished, otherwise that of the filter held before. *)
Definition allocation_width (a : search_arguments) (inp : inputs) (j : nat)
  : nat :=
  bin_count (if part0_loaded j then ibf_part inp 0 else held_before a inp j).

(** The body of the loop over chunks, with accumulators of [width]
    counters. *)
Definition multiple_chunk (a : search_arguments) (c : search_constants)
           (precomp_thresholds : list Z) (inp : inputs) (width : nat)
           (records : list record_type) : M unit :=
  (log (ev_load_ibf (Some 0)) ;;
   log (ev_read_chunk (length records)) ;;
   let counts := repeat (repeat 0 width) (length records) in
   counts <- parallel_count a (ibf_part inp 0) records counts ;;
   counts <- count_parts a inp records (middle_parts a) counts ;;
   log (ev_load_ibf (Some (wrap (parts a - 1)))) ;;
   open_out ;;
   parallel_lines (output_task a c precomp_thresholds
                               (ibf_part inp (wrap (parts a - 1)))
                               records counts)
                  (Z.of_nat (length records)) (threads a))%run.

Definition run_program_multiple_chunked (n : Z) (a : search_arguments)
           (inp : inputs) : M unit :=
  (log ev_open_query ;;
   c <- defined (derive_constants a) ;;
   precomp_thresholds <- compute_simple_model a ;;
   for_each_from 0 (chunk n (query_records inp))
                 (fun j => multiple_chunk a c precomp_thresholds inp
                                          (allocation_width a inp j)) ;;
   if write_time a then log ev_write_time else ret tt)%run.

Definition run_program_multiple : search_arguments -> inputs -> M unit :=
  run_program_multiple_chunked chunk_size.

(** The accumulator of a record after the parts [part_ids] were
    counted into [acc]. *)
Definition accumulate (a : search_arguments) (inp : inputs) (r : record_type)
           (part_ids : list Z) (acc : list Z) : option (list Z) :=
  fold_left (fun acc part =>
               match acc with
               | Some acc =>
                   cv_add acc (bulk_count (ibf_part inp part) (minimisers a r))
               | None => None
               end)
            part_ids (Some acc).

(** The same accumulator when every part is at least as wide as it
    is, so that no addition is undefined. *)
Definition accumulated (a : search_arguments) (inp : inputs) (r : record_type)
           (part_ids : list Z) (acc : list Z) : list Z :=
  fold_left (fun acc part =>
               cv_sum acc (bulk_count (ibf_part inp part) (minimisers a r)))
            part_ids acc.

(** One iteration of the loop of [output_task], on a record and its
    accumulator. *)
Definition output_record (a : search_arguments) (c : search_constants)
           (precomp_thresholds : list Z) (ibf : interleaved_bloom_filter)
           (ra : record_type * list Z) : option string :=
  let minimiser := minimisers a (fst ra) in
  match cv_add (snd ra) (bulk_count ibf minimiser) with
  | None => None
  | Some acc' =>
      match select_threshold a c precomp_thresholds
                             (Z.of_nat (length minimiser)) with
      | Some threshold => Some (emit_line (rec_id (fst ra)) threshold acc')
      | None => None
      end
  end.

(** What multi-part mode does to one record of a chunk whose
    accumulators have [width] counters: the accumulator starts at zero,
    receives every part but the last in the counting phases and the last
    part in [output_task]. *)
Definition multiple_record (a : search_arguments) (c : search_constants)
           (precomp_thresholds : list Z) (inp : inputs) (width : nat)
           (r : record_type) : option string :=
  match accumulate a inp r (zrange 0 (Z.to_nat (parts a - 1)))
                   (repeat 0 width) with
  | None => None
  | Some acc =>
      output_record a c precomp_thresholds (ibf_part inp (parts a - 1))
                    (r, acc)
  end.

(** *** [raptor_search] (lines 350-368)

    The two instances of each template differ in the layout of the
    filter only, not in its contract. *)
Definition raptor_search (a : search_arguments) (inp : inputs) : M unit :=
  if parts a =? 1 then
    if compressed a then run_program_single a inp
    else run_program_single a inp
  else
    if compressed a then run_program_multiple a inp
    else run_program_multiple a inp.


(** * Properties *)

(** ** Doubles: rounding to nearest, ties to even *)

Lemma round_nearest_even_div (N D : Z) :
0 < D -> round_nearest_even (N / D) (loc_div N D) = rne_div N D.
Proof.
intros HD. unfold loc_div, rne_div, round_nearest_even.
destruct (Z.eqb_spec (N mod D) 0) as [E|E].
- rewrite E. cbn. now destruct D.
- now destruct (2 * (N mod D) ?= D).
Qed.

Lemma shr_m_of_loc (m : Z) (l : location) : shr_m (shr_record_of_loc m l) = m.
Proof. now destruct l as [|[| |]]. Qed.

Lemma loc_of_shr_of_loc (m : Z) (l : location) :
loc_of_shr_record (shr_record_of_loc m l) = l.
Proof. now destruct l as [|[| |]]. Qed.

Lemma div_mod_double (N D : Z) :
0 < D ->
N / (D * 2) = N / D / 2 /\ N mod (D * 2) = N mod D + D * ((N / D) mod 2).
Proof.
intros HD. split.
- now rewrite Z.div_div by lia.
- rewrite Z.rem_mul_r by lia. reflexivity.
Qed.

Lemma shr_1_nonneg (m : Z) (r s : bool) :
0 <= m ->
shr_1 {| shr_m := m; shr_r := r; shr_s := s |}
= {| shr_m := m / 2; shr_r := Z.odd m; shr_s := r || s |}.
Proof.
intros Hm. rewrite <- Z.div2_div.
destruct m as [|[p|p|]|p]; try lia; reflexivity.
Qed.

Lemma shr_1_div (N D : Z) :
0 <= N -> 0 < D ->
shr_1 (shr_record_of_loc (N / D) (loc_div N D))
= shr_record_of_loc (N / (D * 2)) (loc_div N (D * 2)).
Proof.
intros HN HD. destruct (div_mod_double N D HD) as (Hq & Hr).
pose proof (Z.mod_pos_bound N D HD) as Hb.
assert (Hq0 : 0 <= N / D) by (apply Z.div_pos; lia).
pose proof (Z.mod_pos_bound (N / D) 2 ltac:(lia)) as Hb2.
pose proof (Z.div_mod (N / D) 2 ltac:(lia)) as Hdm.
unfold loc_div at 2. rewrite Hq, Hr.
assert (Hshr : forall r s,
          shr_1 {| shr_m := N / D; shr_r := r; shr_s := s |}
          = {| shr_m := N / D / 2; shr_r := Z.odd (N / D); shr_s := r || s |}).
{ intros r s. now apply shr_1_nonneg. }
assert (Hodd : Z.odd (N / D) = negb ((N / D) mod 2 =? 0)).
{ rewrite Zmod_odd. now destruct (Z.odd (N / D)). }
unfold loc_div.
destruct (Z.eqb_spec (N mod D) 0) as [E|E].
- cbn [shr_record_of_loc]. rewrite Hshr, Hodd, E. cbn [orb].
  destruct (Z.eqb_spec ((N / D) mod 2) 0) as [E2|E2].
  + rewrite E2. replace (0 + D * 0) with 0 by lia. reflexivity.
  + replace ((N / D) mod 2) with 1 by lia.
    replace (0 + D * 1 =? 0) with false by (symmetry; apply Z.eqb_neq; lia).
    replace (2 * (0 + D * 1) ?= D * 2) with Eq
      by (symmetry; apply Z.compare_eq_iff; lia).
    reflexivity.
- assert (Hs : forall c, shr_1 (shr_record_of_loc (N / D) (loc_Inexact c))
                 = {| shr_m := N / D / 2; shr_r := Z.odd (N / D); shr_s := true |}).
  { intros c. destruct c; cbn [shr_record_of_loc]; rewrite Hshr; reflexivity. }
  rewrite Hs, Hodd.
  replace (N mod D + D * ((N / D) mod 2) =? 0) with false
    by (symmetry; apply Z.eqb_neq; nia).
  destruct (Z.eqb_spec ((N / D) mod 2) 0) as [E2|E2].
  + rewrite E2.
    replace (2 * (N mod D + D * 0) ?= D * 2) with Lt
      by (symmetry; apply Z.compare_lt_iff; lia).
    reflexivity.
  + replace ((N / D) mod 2) with 1 by lia.
    replace (2 * (N mod D + D * 1) ?= D * 2) with Gt
      by (symmetry; apply Z.compare_gt_iff; lia).
    reflexivity.
Qed.

Lemma iter_shr_1_div (p : positive) (N D : Z) :
0 <= N -> 0 < D ->
iter_pos shr_1 p (shr_record_of_loc (N / D) (loc_div N D))
= shr_record_of_loc (N / (D * 2 ^ Z.pos p)) (loc_div N (D * 2 ^ Z.pos p)).
Proof.
intros HN. revert D.
induction p as [p IH|p IH|]; intros D HD; cbn [iter_pos].
- rewrite shr_1_div by assumption.
  rewrite IH by lia.
  assert (0 < 2 ^ Z.pos p) by (apply Z.pow_pos_nonneg; lia).
  rewrite IH by nia.
  replace (D * 2 ^ Z.pos p~1) with (D * 2 * 2 ^ Z.pos p * 2 ^ Z.pos p);
    [reflexivity|].
  replace (Z.pos p~1) with (Z.pos p + Z.pos p + 1) by lia.
  rewrite !Z.pow_add_r by lia. change (2 ^ 1) with 2. ring.
- assert (0 < 2 ^ Z.pos p) by (apply Z.pow_pos_nonneg; lia).
  rewrite IH by lia. rewrite IH by nia.
  replace (D * 2 ^ Z.pos p~0) with (D * 2 ^ Z.pos p * 2 ^ Z.pos p);
    [reflexivity|].
  replace (Z.pos p~0) with (Z.pos p + Z.pos p) by lia.
  rewrite !Z.pow_add_r by lia. ring.
- rewrite shr_1_div by assumption. reflexivity.
Qed.

Lemma shr_div (N D e n : Z) :
0 <= N -> 0 < D ->
shr (shr_record_of_loc (N / D) (loc_div N D)) e n
= (shr_record_of_loc (N / (D * 2 ^ Z.max 0 n)) (loc_div N (D * 2 ^ Z.max 0 n)),
   e + Z.max 0 n).
Proof.
intros HN HD. unfold shr. destruct n as [|p|p].
- cbn [Z.max Z.compare]. rewrite Z.mul_1_r, Z.add_0_r. reflexivity.
- rewrite iter_shr_1_div by assumption.
  replace (Z.max 0 (Z.pos p)) with (Z.pos p) by lia. reflexivity.
- replace (Z.max 0 (Z.neg p)) with 0 by lia.
  rewrite Z.mul_1_r, Z.add_0_r. reflexivity.
Qed.

Lemma loc_div_1 (M : Z) : loc_div M 1 = loc_Exact.
Proof. unfold loc_div. now rewrite Z.mod_1_r. Qed.

(** The result of [binary_round_aux] on the quotient [N / D] with its
  location. *)
Lemma binary_round_aux_div (prec emax N D ex : Z) :
0 <= N -> 0 < D ->
let n := Z.max 0 (fexp prec emax (Zdigits2 (N / D) + ex) - ex) in
let M := rne_div N (D * 2 ^ n) in
let n2 := Z.max 0 (fexp prec emax (Zdigits2 M + (ex + n)) - (ex + n)) in
0 <= M ->
binary_round_aux prec emax false (N / D) ex (loc_div N D)
= match M / 2 ^ n2 with
  | 0 => S754_zero false
  | Z.pos m => if ex + n + n2 <=? emax - prec
               then S754_finite false m (ex + n + n2)
               else S754_infinity false
  | Z.neg _ => S754_nan
  end.
Proof.
intros HN HD n M n2 HM. unfold binary_round_aux, shr_fexp.
rewrite (shr_div N D ex (fexp prec emax (Zdigits2 (N / D) + ex) - ex)) by assumption. fold n.
rewrite shr_m_of_loc, loc_of_shr_of_loc.
assert (0 < 2 ^ n) by (apply Z.pow_pos_nonneg; lia).
rewrite round_nearest_even_div by nia. fold M.
replace (shr_record_of_loc M loc_Exact)
  with (shr_record_of_loc (M / 1) (loc_div M 1))
  by (now rewrite loc_div_1, Z.div_1_r).
rewrite shr_div by lia. fold n2.
rewrite shr_m_of_loc, Z.mul_1_l. reflexivity.
Qed.

(** ** Binary digits *)

Lemma digits2_pos_size (p : positive) : digits2_pos p = Pos.size p.
Proof. induction p; cbn; congruence. Qed.

Lemma Zdigits2_log2 (m : Z) : 0 < m -> Zdigits2 m = Z.log2 m + 1.
Proof.
destruct m as [|p|p]; try lia. intros _. cbn [Zdigits2].
rewrite digits2_pos_size. destruct p; cbn [Z.log2 Pos.size]; lia.
Qed.

Lemma Zdigits2_bounds (m : Z) :
0 < m -> 2 ^ (Zdigits2 m - 1) <= m < 2 ^ Zdigits2 m.
Proof.
intros Hm. rewrite Zdigits2_log2 by assumption.
replace (Z.log2 m + 1 - 1) with (Z.log2 m) by lia.
replace (Z.log2 m + 1) with (Z.succ (Z.log2 m)) by lia.
now apply Z.log2_spec.
Qed.

Lemma Zdigits2_unique (m d : Z) :
2 ^ (d - 1) <= m < 2 ^ d -> 1 <= d -> Zdigits2 m = d.
Proof.
intros H Hd.
assert (0 < m).
{ assert (0 < 2 ^ (d - 1)) by (apply Z.pow_pos_nonneg; lia). lia. }
rewrite Zdigits2_log2 by assumption.
rewrite (Z.log2_unique m (d - 1)); [lia|lia|].
now replace (Z.succ (d - 1)) with d by lia.
Qed.

Lemma Zdigits2_pos (m : Z) : 0 < m -> 1 <= Zdigits2 m.
Proof.
intros Hm. rewrite Zdigits2_log2 by assumption.
pose proof (Z.log2_nonneg m). lia.
Qed.

Lemma Zdigits2_mono (a b : Z) : 0 < a <= b -> Zdigits2 a <= Zdigits2 b.
Proof.
intros H. rewrite !Zdigits2_log2 by lia.
pose proof (Z.log2_le_mono a b). lia.
Qed.

Lemma Zdigits2_mul_pow2 (m k : Z) :
0 < m -> 0 <= k -> Zdigits2 (m * 2 ^ k) = Zdigits2 m + k.
Proof.
intros Hm Hk. pose proof (Zdigits2_bounds m Hm) as Hb.
pose proof (Zdigits2_pos m Hm) as Hd.
assert (0 < 2 ^ k) by (apply Z.pow_pos_nonneg; lia).
apply Zdigits2_unique; [|lia].
replace (Zdigits2 m + k - 1) with (Zdigits2 m - 1 + k) by lia.
rewrite !Z.pow_add_r by lia. nia.
Qed.

Lemma pow2_le (a b : Z) : 0 <= a <= b -> 2 ^ a <= 2 ^ b.
Proof. intros H. apply Z.pow_le_mono_r; lia. Qed.

Lemma pow2_lt (a b : Z) : 0 <= a < b -> 2 ^ a < 2 ^ b.
Proof. intros H. apply Z.pow_lt_mono_r; lia. Qed.

Lemma pow2_pos (a : Z) : 0 <= a -> 0 < 2 ^ a.
Proof. intros H. apply Z.pow_pos_nonneg; lia. Qed.

Lemma pow2_split (a b : Z) : 0 <= a <= b -> 2 ^ b = 2 ^ (b - a) * 2 ^ a.
Proof.
intros H. rewrite <- Z.pow_add_r by lia. f_equal. lia.
Qed.

(** ** Rounding a quotient to the nearest integer, ties to even *)

Lemma rne_div_floor (N D : Z) : N / D <= rne_div N D <= N / D + 1.
Proof.
unfold rne_div. destruct (2 * (N mod D) ?= D); [|lia|lia].
destruct (Z.even (N / D)); lia.
Qed.

Lemma rne_div_exact (c D : Z) : 0 < D -> rne_div (c * D) D = c.
Proof.
intros HD. unfold rne_div. rewrite Z.mod_mul, Z.div_mul by lia.
replace (2 * 0 ?= D) with Lt by (symmetry; apply Z.compare_lt_iff; lia).
reflexivity.
Qed.

Lemma rne_div_mono (N1 N2 D : Z) :
0 < D -> N1 <= N2 -> rne_div N1 D <= rne_div N2 D.
Proof.
intros HD HN.
pose proof (Z.div_le_mono N1 N2 D HD HN) as Hq.
destruct (Z.eq_dec (N1 / D) (N2 / D)) as [E|E].
- pose proof (Z.div_mod N1 D ltac:(lia)) as H1.
  pose proof (Z.div_mod N2 D ltac:(lia)) as H2.
  assert (Hr : N1 mod D <= N2 mod D) by nia.
  unfold rne_div. rewrite E.
  destruct (Z.compare_spec (2 * (N1 mod D)) D);
    destruct (Z.compare_spec (2 * (N2 mod D)) D);
    try lia; destruct (Z.even (N2 / D)); lia.
- pose proof (rne_div_floor N1 D). pose proof (rne_div_floor N2 D). lia.
Qed.

Lemma rne_div_scale (N D c : Z) :
0 < D -> 0 < c -> rne_div (N * c) (D * c) = rne_div N D.
Proof.
intros HD Hc. unfold rne_div.
rewrite Z.div_mul_cancel_r, Z.mul_mod_distr_r by lia.
replace (2 * (N mod D * c) ?= D * c) with (2 * (N mod D) ?= D);
  [reflexivity|].
destruct (Z.compare_spec (2 * (N mod D)) D);
  [symmetry; apply Z.compare_eq_iff|symmetry; apply Z.compare_lt_iff
   |symmetry; apply Z.compare_gt_iff]; nia.
Qed.

Lemma rne_div_le (N D c : Z) : 0 < D -> N <= c * D -> rne_div N D <= c.
Proof.
intros HD H. rewrite <- (rne_div_exact c D HD). now apply rne_div_mono.
Qed.

Lemma rne_div_ge (N D c : Z) : 0 < D -> c * D <= N -> c <= rne_div N D.
Proof.
intros HD H. rewrite <- (rne_div_exact c D HD). now apply rne_div_mono.
Qed.

Lemma rne_div_multiple (N D k : Z) :
0 < D -> 0 < k -> (k | N) -> (D | k) -> rne_div N D * D = N.
Proof.
intros HD Hk (x & ->) (y & ->). rewrite Z.mul_assoc.
now rewrite rne_div_exact.
Qed.

Lemma fexp_53 (x : Z) : fexp prec emax x = Z.max (x - 53) (-1074).
Proof. reflexivity. Qed.

Lemma binary_round_aux_finite (N D ex : Z) :
0 < D -> D <= N ->
-1074 < Zdigits2 (N / D) + ex -> Zdigits2 (N / D) + ex < 1024 -> ex < 971 ->
let n := Z.max 0 (fexp prec emax (Zdigits2 (N / D) + ex) - ex) in
exists m e,
  binary_round_aux prec emax false (N / D) ex (loc_div N D)
  = S754_finite false m e /\
  ex + n <= e /\
  Z.pos m * 2 ^ (e - (ex + n)) = rne_div N (D * 2 ^ n).
Proof.
intros HD HN Hlo Hhi Hex n.
assert (Hmx : 0 < N / D) by (apply Z.div_str_pos; lia).
pose proof (Zdigits2_bounds _ Hmx) as Hb.
pose proof (Zdigits2_pos _ Hmx) as Hd.
set (d := Zdigits2 (N / D)) in *.
assert (Hn : 0 <= n <= d - 1) by (unfold n, fexp, emin, prec, emax; lia).
assert (Hpn : 0 < 2 ^ n) by (apply pow2_pos; lia).
set (M := rne_div N (D * 2 ^ n)).
assert (HM : 2 ^ (d - 1 - n) <= M <= 2 ^ (d - n)).
{ pose proof (rne_div_floor N (D * 2 ^ n)) as Hf. fold M in Hf.
  rewrite <- Z.div_div in Hf by lia.
  assert (2 ^ (d - 1 - n) <= N / D / 2 ^ n).
  { apply Z.div_le_lower_bound; [lia|].
    rewrite Z.mul_comm, <- (pow2_split n (d - 1)) by lia. lia. }
  assert (N / D / 2 ^ n < 2 ^ (d - n)).
  { apply Z.div_lt_upper_bound; [lia|].
    rewrite Z.mul_comm, <- (pow2_split n d) by lia. lia. }
  lia. }
assert (HM0 : 0 < M).
{ assert (0 < 2 ^ (d - 1 - n)) by (apply pow2_pos; lia). lia. }
pose proof (binary_round_aux_div prec emax N D ex ltac:(lia) HD) as H.
cbv zeta in H. fold d in H. fold n in H. fold M in H.
specialize (H ltac:(lia)). rewrite H. clear H.
set (n2 := Z.max 0 (fexp prec emax (Zdigits2 M + (ex + n)) - (ex + n))).
assert (Hcase : (n2 = 0) \/ (n2 = 1 /\ M = 2 ^ (d - n) /\ ex + n + 1 <= 971)).
{ destruct (Z.eq_dec M (2 ^ (d - n))) as [E|E].
  - assert (HdM : Zdigits2 M = d - n + 1).
    { apply Zdigits2_unique; [|lia]. rewrite E.
      replace (d - n + 1 - 1) with (d - n) by lia.
      split; [lia|]. apply pow2_lt. lia. }
    unfold n2. rewrite HdM. unfold n in *. unfold fexp, emin, prec, emax in *. lia.
  - left. assert (HdM : Zdigits2 M = d - n).
    { apply Zdigits2_unique; [|lia].
      replace (d - n - 1) with (d - 1 - n) by lia. lia. }
    unfold n2. rewrite HdM. unfold n in *. unfold fexp, emin, prec, emax in *. lia. }
assert (Hexp : ex + n <= 971) by (unfold n, fexp, emin, prec, emax; lia).
destruct Hcase as [E|(E & EM & Hov)]; rewrite E.
- rewrite Z.div_1_r. destruct M as [|m|m]; try lia.
  replace (ex + n + 0 <=? emax - prec) with true
    by (symmetry; apply Z.leb_le; unfold emax, prec; lia).
  exists m, (ex + n + 0). repeat split; [lia|].
  replace (ex + n + 0 - (ex + n)) with 0 by lia. cbn [Z.pow]. lia.
- assert (Hhalf : M / 2 ^ 1 = 2 ^ (d - n - 1)).
  { rewrite EM, (pow2_split 1 (d - n)) by lia.
    rewrite Z.div_mul by lia. f_equal. }
  assert (0 < 2 ^ (d - n - 1)) by (apply pow2_pos; lia).
  rewrite Hhalf. destruct (2 ^ (d - n - 1)) as [|m|m] eqn:Em; try lia.
  replace (ex + n + 1 <=? emax - prec) with true
    by (symmetry; apply Z.leb_le; unfold emax, prec; lia).
  exists m, (ex + n + 1). repeat split; [lia|].
  replace (ex + n + 1 - (ex + n)) with 1 by lia.
  fold M. rewrite EM, (pow2_split 1 (d - n)) by lia.
  replace (d - n - 1) with (d - n - 1) in Em by lia. rewrite Em. reflexivity.
Qed.

Lemma round_scaled_mono (L W1 W2 : Z) :
0 < W1 <= W2 -> round_scaled L W1 <= round_scaled L W2.
Proof.
intros HW. unfold round_scaled.
pose proof (Zdigits2_mono W1 W2 HW) as Hd.
pose proof (Zdigits2_bounds W1 ltac:(lia)) as Hb1.
pose proof (Zdigits2_bounds W2 ltac:(lia)) as Hb2.
pose proof (Zdigits2_pos W1 ltac:(lia)) as Hp1.
set (d1 := Zdigits2 W1) in *. set (d2 := Zdigits2 W2) in *.
set (k1 := Z.max 0 (fexp prec emax (d1 + L) - L)).
set (k2 := Z.max 0 (fexp prec emax (d2 + L) - L)).
assert (Hk : 0 <= k1 <= k2) by (unfold k1, k2, fexp, emin, prec, emax; lia).
assert (H1 : 0 < 2 ^ k1) by (apply pow2_pos; lia).
assert (H2 : 0 < 2 ^ k2) by (apply pow2_pos; lia).
destruct (Z.eq_dec k1 k2) as [E|E].
- rewrite E. apply Z.mul_le_mono_nonneg_r; [lia|].
  apply rne_div_mono; lia.
- assert (Hk2 : k2 = d2 - 53 /\ d1 < d2)
    by (unfold k1, k2, fexp, emin, prec, emax in *; lia).
  destruct Hk2 as (Hk2 & Hdd).
  assert (Hmid1 : W1 <= 2 ^ (k2 + 52)).
  { assert (2 ^ d1 <= 2 ^ (k2 + 52)) by (apply pow2_le; lia). lia. }
  assert (Hmid2 : 2 ^ (k2 + 52) <= W2).
  { replace (k2 + 52) with (d2 - 1) by lia. lia. }
  transitivity (2 ^ (k2 + 52)).
  + rewrite (pow2_split k1 (k2 + 52)) at 1 by lia.
    apply Z.mul_le_mono_nonneg_r; [lia|].
    apply rne_div_le; [lia|].
    rewrite <- (pow2_split k1 (k2 + 52)) by lia. exact Hmid1.
  + rewrite (pow2_split k2 (k2 + 52)) at 1 by lia.
    apply Z.mul_le_mono_nonneg_r; [lia|].
    apply rne_div_ge; [lia|].
    rewrite <- (pow2_split k2 (k2 + 52)) by lia. exact Hmid2.
Qed.

(** A representable value is not changed. *)
Lemma round_scaled_exact (L W : Z) :
0 < W -> (2 ^ Z.max 0 (fexp prec emax (Zdigits2 W + L) - L) | W) ->
round_scaled L W = W.
Proof.
intros HW (x & Hx). unfold round_scaled.
set (k := Z.max 0 _) in *.
assert (0 < 2 ^ k) by (apply pow2_pos; lia).
rewrite Hx at 1. rewrite rne_div_exact by lia. lia.
Qed.

Lemma binary_round_aux_scaled (P E L : Z) :
0 < P -> L <= E ->
-1074 < Zdigits2 P + E -> Zdigits2 P + E < 1024 -> E < 971 ->
exists m e,
  binary_round_aux prec emax false P E loc_Exact = S754_finite false m e /\
  L <= e /\
  Z.pos m * 2 ^ (e - L) = round_scaled L (P * 2 ^ (E - L)).
Proof.
intros HP HL Hlo Hhi HE.
pose proof (binary_round_aux_finite P 1 E ltac:(lia) ltac:(lia)) as H.
rewrite Z.div_1_r, loc_div_1 in H. cbv zeta in H.
destruct (H Hlo Hhi HE) as (m & e & Hbra & He & Hval). clear H.
exists m, e. split; [exact Hbra|].
set (f0 := fexp prec emax (Zdigits2 P + E)) in *.
set (n := Z.max 0 (f0 - E)) in *.
assert (Hn : 0 <= n) by (unfold n; lia).
split; [lia|].
replace (e - L) with ((e - (E + n)) + (E + n - L)) by lia.
rewrite Z.mul_1_l in Hval.
rewrite Z.pow_add_r, Z.mul_assoc, Hval by lia.
unfold round_scaled.
assert (HpEL : 0 < 2 ^ (E - L)) by (apply pow2_pos; lia).
rewrite Zdigits2_mul_pow2 by lia.
replace (Zdigits2 P + (E - L) + L) with (Zdigits2 P + E) by lia.
fold f0. set (k := Z.max 0 (f0 - L)).
assert (Hpn : 0 < 2 ^ n) by (apply pow2_pos; lia).
destruct (Z_le_gt_dec E f0) as [Hc|Hc].
- assert (Hk : k = n + (E - L)) by (unfold k, n; lia).
  rewrite Hk, Z.pow_add_r, rne_div_scale by lia.
  replace (E + n - L) with (n + (E - L)) by lia.
  now rewrite Z.pow_add_r by lia.
- assert (Hn0 : n = 0) by (unfold n; lia). rewrite Hn0.
  assert (Hk : 0 <= k <= E - L) by (unfold k; lia).
  assert (Hpk : 0 < 2 ^ k) by (apply pow2_pos; lia).
  change (2 ^ 0) with 1. unfold rne_div at 1.
  rewrite Z.mod_1_r, Z.div_1_r. cbn [Z.mul Z.compare].
  replace (E + 0 - L) with (E - L) by lia.
  rewrite (pow2_split k (E - L)) by lia.
  rewrite Z.mul_assoc, rne_div_exact by lia. reflexivity.
Qed.

(** Truncation of a positive double given by its scaled value. *)
Lemma truncate_scaled (m : positive) (e L : Z) :
L <= e -> L <= 0 ->
(if 0 <=? e then Z.pos m * 2 ^ e else Z.pos m / 2 ^ (- e))
= (Z.pos m * 2 ^ (e - L)) / 2 ^ (- L).
Proof.
intros He HL. assert (0 < 2 ^ (- L)) by (apply pow2_pos; lia).
destruct (Z.leb_spec 0 e) as [H0|H0].
- replace (e - L) with (e + - L) by lia.
  rewrite Z.pow_add_r, Z.mul_assoc, Z.div_mul by lia. reflexivity.
- rewrite (pow2_split (e - L) (- L)) by lia.
  replace (- L - (e - L)) with (- e) by lia.
  assert (0 < 2 ^ (e - L)) by (apply pow2_pos; lia).
  assert (0 < 2 ^ (- e)) by (apply pow2_pos; lia).
  rewrite Z.div_mul_cancel_r by lia. reflexivity.
Qed.

Lemma pos_iter_xO (p k : positive) :
Z.pos (Pos.iter xO p k) = Z.pos p * 2 ^ Z.pos k.
Proof.
induction k as [|k IH] using Pos.peano_ind.
- cbn [Pos.iter]. rewrite Pos2Z.inj_xO. change (2 ^ 1) with 2. lia.
- rewrite Pos.iter_succ, Pos2Z.inj_xO, IH, Pos2Z.inj_succ, Z.pow_succ_r by lia.
  ring.
Qed.

Lemma Zdigits2_le (m k : Z) : 0 < m -> m < 2 ^ k -> Zdigits2 m <= k.
Proof.
intros Hm H. pose proof (Zdigits2_bounds m Hm) as Hb.
pose proof (Zdigits2_pos m Hm).
destruct (Z_lt_le_dec k (Zdigits2 m)) as [Hlt|]; [|assumption].
assert (0 <= k).
{ destruct (Z_lt_le_dec k 0) as [Hk|]; [|assumption].
  rewrite Z.pow_neg_r in H by assumption. lia. }
assert (2 ^ k <= 2 ^ (Zdigits2 m - 1)) by (apply pow2_le; lia). lia.
Qed.

(** The double of an integer below [2^53] is the integer itself, with a
  mantissa of 53 binary digits. *)
Lemma double_of_size_t_exact (n : Z) :
0 < n < 2 ^ 53 ->
exists m e,
  double_of_size_t n = S754_finite false m e /\
  -52 <= e <= 0 /\ Z.pos m = n * 2 ^ (- e) /\ Zdigits2 (Z.pos m) = 53.
Proof.
intros Hn. destruct n as [|p|p]; try lia.
unfold double_of_size_t, binary_normalize, binary_round.
pose proof (Zdigits2_bounds (Z.pos p) ltac:(lia)) as Hb.
pose proof (Zdigits2_pos (Z.pos p) ltac:(lia)) as Hd1.
pose proof (Zdigits2_le (Z.pos p) 53 ltac:(lia) ltac:(lia)) as Hd2.
change (Z.pos (digits2_pos p)) with (Zdigits2 (Z.pos p)).
set (d := Zdigits2 (Z.pos p)) in *.
assert (Hf : fexp prec emax (d + 0) = d - 53)
  by (unfold fexp, emin, prec, emax; lia).
rewrite Hf.
assert (Hal : exists mz, shl_align p 0 (d - 53) = (mz, d - 53)
                         /\ Z.pos mz = Z.pos p * 2 ^ (53 - d)).
{ unfold shl_align. destruct (d - 53 - 0) as [|k|k] eqn:Ek; try lia.
  - exists p. replace (d - 53) with 0 by lia. split; [reflexivity|].
    replace (53 - d) with 0 by lia. cbn [Z.pow]. lia.
  - exists (Pos.iter xO p k). split; [reflexivity|].
    rewrite pos_iter_xO. do 2 f_equal. lia. }
destruct Hal as (mz & -> & Hmz).
assert (Hdz : Zdigits2 (Z.pos mz) = 53).
{ rewrite Hmz, Zdigits2_mul_pow2 by lia. fold d. lia. }
pose proof (binary_round_aux_div prec emax (Z.pos mz) 1 (d - 53)
              ltac:(lia) ltac:(lia)) as H.
rewrite Z.div_1_r, loc_div_1 in H. cbv zeta in H.
rewrite Hdz in H.
replace (Z.max 0 (fexp prec emax (53 + (d - 53)) - (d - 53))) with 0 in H
  by (unfold fexp, emin, prec, emax; lia).
change (1 * 2 ^ 0) with 1 in H.
assert (HM : rne_div (Z.pos mz) 1 = Z.pos mz).
{ rewrite <- (Z.mul_1_r (Z.pos mz)) at 1. apply rne_div_exact. lia. }
rewrite HM, Hdz in H.
replace (Z.max 0 (fexp prec emax (53 + (d - 53 + 0)) - (d - 53 + 0))) with 0 in H
  by (unfold fexp, emin, prec, emax; lia).
rewrite Z.div_1_r in H.
replace (d - 53 + 0 + 0 <=? emax - prec) with true in H
  by (symmetry; apply Z.leb_le; unfold emax, prec; lia).
rewrite H by lia. exists mz, (d - 53 + 0 + 0).
repeat split; try lia.
rewrite Hmz. do 2 f_equal. lia.
Qed.

Lemma size_t_of_double_of_size_t (n : Z) :
0 <= n < 2 ^ 53 -> size_t_of_double (double_of_size_t n) = Some n.
Proof.
intros Hn. destruct (Z.eq_dec n 0) as [->|Hn0]; [reflexivity|].
destruct (double_of_size_t_exact n ltac:(lia)) as (m & e & -> & He & Hm & _).
cbn [size_t_of_double]. rewrite Hm.
assert (0 < 2 ^ (- e)) by (apply pow2_pos; lia).
assert (Ht : (if 0 <=? e then n * 2 ^ (- e) * 2 ^ e else n * 2 ^ (- e) / 2 ^ (- e)) = n).
{ destruct (Z.leb_spec 0 e).
  - replace e with 0 by lia. cbn. lia.
  - now rewrite Z.div_mul by lia. }
rewrite Ht.
replace (n <? size_t_modulus) with true; [reflexivity|].
symmetry. apply Z.ltb_lt. unfold size_t_modulus.
assert (2 ^ 53 < 2 ^ 64) by (apply pow2_lt; lia). lia.
Qed.

Lemma valid_finite_bounds (s : bool) (m : positive) (e : Z) :
valid_binary prec emax (S754_finite s m e) = true ->
-1074 <= e <= 971 /\ Zdigits2 (Z.pos m) <= 53 /\
(-1074 < e -> Zdigits2 (Z.pos m) = 53).
Proof.
cbn [valid_binary]. unfold bounded, canonical_mantissa.
intros H. apply andb_prop in H. destruct H as (H1 & H2).
apply Z.eqb_eq in H1. apply Z.leb_le in H2.
change (Z.pos (digits2_pos m)) with (Zdigits2 (Z.pos m)) in H1.
unfold fexp, emin, prec, emax in *. lia.
Qed.

Lemma positive_at_most_one (t : double) :
double_lt double_zero t = true -> double_le t double_one = true ->
exists m e, t = S754_finite false m e.
Proof.
intros H1 H2. destruct t as [s|s| |s m e].
- discriminate H1.
- destruct s; [discriminate H1|discriminate H2].
- discriminate H1.
- destruct s; [discriminate H1|]. now exists m, e.
Qed.

Lemma finite_le_scaled (m1 m2 : positive) (e1 e2 : Z) :
valid_binary prec emax (S754_finite false m1 e1) = true ->
valid_binary prec emax (S754_finite false m2 e2) = true ->
double_le (S754_finite false m1 e1) (S754_finite false m2 e2) = true ->
Z.pos m1 * 2 ^ (e1 + 1074) <= Z.pos m2 * 2 ^ (e2 + 1074).
Proof.
intros V1 V2 Hle.
apply valid_finite_bounds in V1, V2.
destruct V1 as (He1 & Hd1 & Hn1). destruct V2 as (He2 & Hd2 & Hn2).
unfold double_le, SFleb, SFcompare in Hle.
pose proof (Zdigits2_bounds (Z.pos m1) ltac:(lia)) as Hb1.
pose proof (Zdigits2_bounds (Z.pos m2) ltac:(lia)) as Hb2.
pose proof (Zdigits2_pos (Z.pos m1) ltac:(lia)) as Hp1.
destruct (Z.compare_spec e1 e2) as [E|E|E]; try discriminate Hle.
- subst e2. apply Z.mul_le_mono_nonneg_r; [apply Z.pow_nonneg; lia|].
  change (Pos.compare_cont Eq m1 m2) with (Pos.compare m1 m2) in Hle.
  destruct (Pos.compare_spec m1 m2) as [E|E|E]; try discriminate Hle; lia.
- rewrite (Hn2 ltac:(lia)) in Hb2.
  assert (Z.pos m1 < 2 ^ 53).
  { assert (2 ^ Zdigits2 (Z.pos m1) <= 2 ^ 53) by (apply pow2_le; lia). lia. }
  assert (0 < 2 ^ (e1 + 1074)) by (apply pow2_pos; lia).
  assert (0 < 2 ^ (e2 + 1074)) by (apply pow2_pos; lia).
  assert (2 ^ 53 * 2 ^ (e1 + 1074) <= 2 ^ (53 - 1) * 2 ^ (e2 + 1074)).
  { rewrite <- !Z.pow_add_r by lia. apply pow2_le. lia. }
  nia.
Qed.

Lemma valid_double_one : valid_binary prec emax double_one = true.
Proof. reflexivity. Qed.

Lemma Zdigits2_mul_le (a b : Z) :
0 < a -> 0 < b -> Zdigits2 (a * b) <= Zdigits2 a + Zdigits2 b.
Proof.
intros Ha Hb. pose proof (Zdigits2_bounds a Ha). pose proof (Zdigits2_bounds b Hb).
pose proof (Zdigits2_pos a Ha). pose proof (Zdigits2_pos b Hb).
apply Zdigits2_le; [nia|]. rewrite Z.pow_add_r by lia. nia.
Qed.

(** The product of an integer below [2^53] and a positive double that is
  at most one, truncated: the scaled rounding of its exact value. *)
Lemma mul_truncate (n : Z) (mt : positive) (et : Z) :
0 < n < 2 ^ 53 ->
valid_binary prec emax (S754_finite false mt et) = true ->
Z.pos mt * 2 ^ (et + 1074) <= 2 ^ 1074 ->
let W := n * 2 ^ 52 * (Z.pos mt * 2 ^ (et + 1074)) in
size_t_of_double (double_mul (double_of_size_t n) (S754_finite false mt et))
= Some (round_scaled (-1126) W / 2 ^ 1126) /\
round_scaled (-1126) W / 2 ^ 1126 <= n.
Proof.
intros Hn V Hone W.
destruct (double_of_size_t_exact n Hn) as (mx & ex & -> & Hex & Hmx & Hdx).
apply valid_finite_bounds in V. destruct V as (Het & Hdt & _).
pose proof (Zdigits2_pos (Z.pos mt) ltac:(lia)) as Hdt1.
pose proof (Zdigits2_bounds (Z.pos mt) ltac:(lia)) as Hbt.
assert (Hp1 : 0 < 2 ^ (et + 1074)) by (apply pow2_pos; lia).
assert (Het0 : Zdigits2 (Z.pos mt) + et <= 1).
{ destruct (Z_le_gt_dec (Zdigits2 (Z.pos mt) + et) 1) as [|Hgt]; [assumption|].
  assert (2 ^ 1074 < 2 ^ (Zdigits2 (Z.pos mt) - 1) * 2 ^ (et + 1074)).
  { rewrite <- Z.pow_add_r by lia. apply pow2_lt. lia. }
  nia. }
unfold double_mul, SFmul. cbn [xorb]. rewrite Pos2Z.inj_mul.
assert (Hdp : 53 <= Zdigits2 (Z.pos mx * Z.pos mt) <= 53 + Zdigits2 (Z.pos mt)).
{ split.
  - rewrite <- Hdx. apply Zdigits2_mono. nia.
  - rewrite <- Hdx. apply Zdigits2_mul_le; lia. }
destruct (binary_round_aux_scaled (Z.pos mx * Z.pos mt) (ex + et) (-1126)
            ltac:(lia) ltac:(lia) ltac:(lia) ltac:(lia) ltac:(lia))
  as (m & e & -> & He & Hval).
assert (HW : Z.pos mx * Z.pos mt * 2 ^ (ex + et - -1126) = W).
{ unfold W. rewrite Hmx.
  replace (ex + et - -1126) with (ex + 52 + (et + 1074)) by lia.
  rewrite Z.pow_add_r by lia.
  rewrite (pow2_split (- ex) 52) by lia.
  replace (52 - - ex) with (ex + 52) by lia. ring. }
rewrite HW in Hval.
assert (HWpos : 0 < W).
{ unfold W. assert (0 < 2 ^ 52) by (apply pow2_pos; lia). nia. }
assert (Hbound : round_scaled (-1126) W <= n * 2 ^ 1126).
{ transitivity (round_scaled (-1126) (n * 2 ^ 1126)).
  - apply round_scaled_mono. split; [assumption|].
    unfold W. replace (2 ^ 1126) with (2 ^ 52 * 2 ^ 1074)
      by (rewrite <- Z.pow_add_r by lia; reflexivity).
    assert (0 < 2 ^ 52) by (apply pow2_pos; lia). nia.
  - assert (0 < 2 ^ 1126) by (apply pow2_pos; lia).
    rewrite round_scaled_exact; [lia|nia|].
    rewrite Zdigits2_mul_pow2 by lia.
    pose proof (Zdigits2_pos n ltac:(lia)).
    pose proof (Zdigits2_le n 53 ltac:(lia) ltac:(lia)).
    set (k := Z.max 0 _).
    assert (Hk : 0 <= k <= 1126)
      by (unfold k, fexp, emin, prec, emax; lia).
    exists (n * 2 ^ (1126 - k)).
    rewrite <- Z.mul_assoc, <- pow2_split by lia. reflexivity. }
assert (Hq : round_scaled (-1126) W / 2 ^ 1126 <= n).
{ assert (0 < 2 ^ 1126) by (apply pow2_pos; lia).
  apply Z.div_le_upper_bound; lia. }
split; [|exact Hq].
cbn [size_t_of_double].
rewrite (truncate_scaled m e (-1126)) by lia.
rewrite Hval. change (- -1126) with 1126.
replace (round_scaled (-1126) W / 2 ^ 1126 <? size_t_modulus) with true;
  [reflexivity|].
symmetry. apply Z.ltb_lt. unfold size_t_modulus.
assert (2 ^ 53 < 2 ^ 64) by (apply pow2_lt; lia). lia.
Qed.

Lemma compare_cont_Eq (p q : positive) :
Pos.compare_cont Eq p q = Pos.compare p q.
Proof. reflexivity. Qed.

Lemma double_le_positive (m1 : positive) (e1 : Z) (t2 : double) :
double_le (S754_finite false m1 e1) t2 = true ->
double_le t2 double_one = true ->
exists m2 e2, t2 = S754_finite false m2 e2.
Proof.
intros H1 H2. destruct t2 as [s|s| |s m e].
- discriminate H1.
- destruct s; [discriminate H1|discriminate H2].
- discriminate H1.
- destruct s; [discriminate H1|]. now exists m, e.
Qed.

(** Raising the factor never lowers the truncated product. *)
Lemma mul_truncate_mono (n : Z) (t1 t2 : double) :
0 <= n < 2 ^ 53 ->
valid_binary prec emax t1 = true -> valid_binary prec emax t2 = true ->
double_lt double_zero t1 = true -> double_le t1 t2 = true ->
double_le t2 double_one = true ->
exists tau1 tau2,
  size_t_of_double (double_mul (double_of_size_t n) t1) = Some tau1 /\
  size_t_of_double (double_mul (double_of_size_t n) t2) = Some tau2 /\
  tau1 <= tau2 /\ tau2 <= n.
Proof.
intros Hn V1 V2 Hpos Hle Hone.
assert (Hle1 : double_le t1 double_one = true).
{ destruct t1 as [s|s| |s m e]; try discriminate Hpos.
  - destruct s; [discriminate Hpos|].
    destruct t2 as [s2|s2| |s2 m2 e2]; try discriminate Hle.
    destruct s2; [discriminate Hle|discriminate Hone].
  - destruct s; [discriminate Hpos|].
    destruct (double_le_positive _ _ _ Hle Hone) as (m2 & e2 & ->).
    pose proof (finite_le_scaled _ _ _ _ V1 V2 Hle) as H12.
    pose proof (finite_le_scaled _ _ _ _ V2 valid_double_one Hone) as H21.
    apply valid_finite_bounds in V1, V2.
    unfold double_le, SFleb, SFcompare, double_one.
    destruct (Z.compare_spec e (-52)) as [E|E|E]; try reflexivity.
    + rewrite compare_cont_Eq.
      destruct (Pos.compare_spec m 4503599627370496) as [Em|Em|Em];
        try reflexivity.
      exfalso. subst e. change (-52 + 1074) with 1022 in H12.
      assert (0 < 2 ^ 1022) by (apply pow2_pos; lia).
      assert (Z.pos 4503599627370496 * 2 ^ 1022
              < Z.pos m * 2 ^ 1022) by nia.
      change (Z.pos 4503599627370496 * 2 ^ (-52 + 1074))
        with (Z.pos 4503599627370496 * 2 ^ 1022) in H21. lia.
    + exfalso.
      assert (Hd : Zdigits2 (Z.pos m) = 53) by (apply V1; lia).
      pose proof (Zdigits2_bounds (Z.pos m) ltac:(lia)) as Hb.
      rewrite Hd in Hb.
      assert (2 ^ (53 - 1) * 2 ^ (-52 + 1074) < 2 ^ (53 - 1) * 2 ^ (e + 1074)).
      { apply Z.mul_lt_mono_pos_l; [apply pow2_pos; lia|].
        apply pow2_lt. lia. }
      assert (0 < 2 ^ (e + 1074)) by (apply pow2_pos; lia).
      change (Z.pos 4503599627370496) with (2 ^ (53 - 1)) in H21.
      nia. }
destruct (positive_at_most_one t1 Hpos Hle1) as (m1 & e1 & ->).
destruct (double_le_positive _ _ _ Hle Hone) as (m2 & e2 & ->).
destruct (Z.eq_dec n 0) as [->|Hn0].
- exists 0, 0. repeat split; lia.
- pose proof (finite_le_scaled _ _ _ _ V1 V2 Hle) as H12.
  pose proof (finite_le_scaled _ _ _ _ V1 valid_double_one Hle1) as H1.
  pose proof (finite_le_scaled _ _ _ _ V2 valid_double_one Hone) as H2.
  change (Z.pos 4503599627370496 * 2 ^ (-52 + 1074)) with (2 ^ 1074) in H1, H2.
  destruct (mul_truncate n m1 e1 ltac:(lia) V1 H1) as (-> & _).
  destruct (mul_truncate n m2 e2 ltac:(lia) V2 H2) as (-> & Hb2).
  eexists _, _. repeat split; [|exact Hb2].
  apply Z.div_le_mono; [apply pow2_pos; lia|].
  apply valid_finite_bounds in V1.
  assert (0 < 2 ^ (e1 + 1074)) by (apply pow2_pos; lia).
  assert (0 < 2 ^ 52) by (apply pow2_pos; lia).
  apply round_scaled_mono. split; [nia|].
  apply Z.mul_le_mono_nonneg_l; [nia|exact H12].
Qed.

Lemma new_location_div (N D : Z) :
0 < D -> new_location D (N mod D) = loc_div N D.
Proof.
intros HD. pose proof (Z.mod_pos_bound N D HD) as Hb.
unfold new_location, new_location_even, new_location_odd, loc_div.
destruct (Z.even D) eqn:Ev; [reflexivity|].
destruct (Z.eqb_spec (N mod D) 0) as [E|E]; [reflexivity|].
f_equal.
assert (Hodd : Z.odd D = true) by (rewrite <- Z.negb_even, Ev; reflexivity).
apply Z.odd_spec in Hodd. destruct Hodd as (x & Hx).
destruct (Z.compare_spec (2 * (N mod D) + 1) D);
  destruct (Z.compare_spec (2 * (N mod D)) D); try reflexivity; lia.
Qed.

Lemma rne_div_gt (N D c Y : Z) :
0 < D -> 0 < Y -> D < 2 * Y -> c * D + Y <= N -> c < rne_div N D.
Proof.
intros HD HY HDY HN.
assert (c + 1 <= rne_div (c * D + Y) D).
{ destruct (Z_lt_le_dec Y D) as [Hlt|Hge].
  - unfold rne_div. replace (c * D + Y) with (Y + c * D) by lia.
    rewrite Z.mod_add, Z.div_add, Z.mod_small, Z.div_small by lia.
    replace (2 * Y ?= D) with Gt by (symmetry; apply Z.compare_gt_iff; lia).
    lia.
  - apply rne_div_ge; lia. }
pose proof (rne_div_mono (c * D + Y) N D HD HN). lia.
Qed.

Lemma ceil_div_spec (a b : Z) :
0 < a -> 0 < b ->
let c := (a + b - 1) / b in (c - 1) * b < a <= c * b.
Proof.
intros Ha Hb c.
pose proof (Z.div_mod (a + b - 1) b ltac:(lia)) as H.
pose proof (Z.mod_pos_bound (a + b - 1) b Hb) as Hm.
fold c in H. nia.
Qed.

Lemma ceil_of_rounded (a b sigma : Z) (m : positive) (e : Z) :
0 < a < 2 ^ 53 -> 0 < b -> 0 <= sigma -> b < 2 ^ (sigma + 1) ->
- sigma <= e ->
Z.pos m * 2 ^ (e + sigma) = rne_div (a * 2 ^ sigma) b ->
size_t_of_double (double_ceil (S754_finite false m e))
= Some ((a + b - 1) / b).
Proof.
intros Ha Hb Hs Hbs He HM.
pose proof (ceil_div_spec a b ltac:(lia) Hb) as Hc. cbv zeta in Hc.
set (c := (a + b - 1) / b) in *.
assert (Hps : 0 < 2 ^ sigma) by (apply pow2_pos; lia).
assert (Hc1 : 1 <= c <= a) by nia.
assert (Hup : rne_div (a * 2 ^ sigma) b <= c * 2 ^ sigma).
{ apply rne_div_le; [lia|]. nia. }
assert (Hlo : (c - 1) * 2 ^ sigma < rne_div (a * 2 ^ sigma) b).
{ apply (rne_div_gt _ _ _ (2 ^ sigma)); try lia.
  - rewrite Z.pow_add_r in Hbs by lia. change (2 ^ 1) with 2 in Hbs. lia.
  - nia. }
rewrite <- HM in Hup, Hlo.
assert (H64 : (c <? size_t_modulus) = true).
{ apply Z.ltb_lt. unfold size_t_modulus.
  assert (2 ^ 53 < 2 ^ 64) by (apply pow2_lt; lia). lia. }
unfold double_ceil. destruct (Z.leb_spec 0 e) as [H0|H0].
- cbn [size_t_of_double].
  replace (0 <=? e) with true by (symmetry; apply Z.leb_le; lia).
  rewrite Z.pow_add_r in Hup, Hlo by lia.
  assert (0 < 2 ^ e) by (apply pow2_pos; lia).
  assert (E : Z.pos m * 2 ^ e = c) by nia.
  rewrite E, H64. reflexivity.
- assert (Hu : 0 < 2 ^ (- e)) by (apply pow2_pos; lia).
  assert (Hes : 0 < 2 ^ (e + sigma)) by (apply pow2_pos; lia).
  rewrite (pow2_split (e + sigma) sigma) in Hup, Hlo by lia.
  replace (sigma - (e + sigma)) with (- e) in Hup, Hlo by lia.
  pose proof (Z.div_mod (Z.pos m) (2 ^ (- e)) ltac:(lia)) as Hdm.
  pose proof (Z.mod_pos_bound (Z.pos m) (2 ^ (- e)) Hu) as Hr.
  set (q := Z.pos m / 2 ^ (- e)) in *.
  set (r := Z.pos m mod 2 ^ (- e)) in *.
  assert (Hv : (if r =? 0 then q else q + 1) = c).
  { assert (Hm1 : (c - 1) * 2 ^ (- e) < Z.pos m) by nia.
    assert (Hm2 : Z.pos m <= c * 2 ^ (- e)) by nia.
    destruct (Z.eqb_spec r 0) as [E|E]; nia. }
  rewrite Hv. change (binary_normalize prec emax c 0 false)
    with (double_of_size_t c).
  apply size_t_of_double_of_size_t. lia.
Qed.

Lemma div_eucl_div_mod (N D : Z) : Z.div_eucl N D = (N / D, N mod D).
Proof. unfold Z.div, Z.modulo. now destruct (Z.div_eucl N D). Qed.

(** The ceiling of the double quotient of two integers below [2^53] is
  the ceiling of their quotient. *)
Lemma double_div_ceil (a b : Z) :
0 < a < 2 ^ 53 -> 0 < b < 2 ^ 53 ->
size_t_of_double
  (double_ceil (double_div (double_of_size_t a) (double_of_size_t b)))
= Some ((a + b - 1) / b).
Proof.
intros Ha Hb.
destruct (double_of_size_t_exact a Ha) as (ma & ea & -> & Hea & Hma & Hda).
destruct (double_of_size_t_exact b Hb) as (mb & eb & -> & Heb & Hmb & Hdb).
pose proof (Zdigits2_bounds (Z.pos ma) ltac:(lia)) as Hba.
pose proof (Zdigits2_bounds (Z.pos mb) ltac:(lia)) as Hbb.
rewrite Hda in Hba. rewrite Hdb in Hbb.
change (53 - 1) with 52 in Hba, Hbb.
assert (H52 : 0 < 2 ^ 52) by (apply pow2_pos; lia).
assert (H53 : 2 ^ 53 = 2 * 2 ^ 52) by (rewrite (pow2_split 52 53) by lia; reflexivity).
set (N := Z.pos ma * 2 ^ 53).
set (D := Z.pos mb).
set (e' := ea - eb - 53).
assert (Hcore : SFdiv_core_binary prec emax (Z.pos ma) ea (Z.pos mb) eb
                = (N / D, e', loc_div N D)).
{ unfold SFdiv_core_binary. rewrite Hda, Hdb.
  replace (Z.min (fexp prec emax (53 + ea - (53 + eb))) (ea - eb)) with e'
    by (unfold e', fexp, emin, prec, emax; lia).
  replace (ea - eb - e') with 53 by (unfold e'; lia).
  rewrite Z.shiftl_mul_pow2 by lia. fold N. fold D.
  rewrite div_eucl_div_mod, new_location_div by (unfold D; lia).
  reflexivity. }
unfold double_div, SFdiv. rewrite Hcore. cbn [xorb].
assert (HND : 2 ^ 52 * D <= N /\ N < 2 ^ 54 * D).
{ unfold N, D. rewrite (pow2_split 53 54) by lia. change (2 ^ (54 - 53)) with 2.
  nia. }
assert (Hq : 2 ^ 52 <= N / D < 2 ^ 54).
{ split.
  - apply Z.div_le_lower_bound; unfold D in *; lia.
  - apply Z.div_lt_upper_bound; unfold D in *; lia. }
assert (Hdq : 53 <= Zdigits2 (N / D) <= 54).
{ split.
  - replace 53 with (Zdigits2 (2 ^ 52))
      by (apply Zdigits2_unique; [split; [reflexivity|apply pow2_lt; lia]|lia]).
    apply Zdigits2_mono. lia.
  - apply Zdigits2_le; lia. }
destruct (binary_round_aux_finite N D e') as (m & e & -> & He & Hval);
  try (unfold e', D in *; lia).
set (n := Z.max 0 (fexp prec emax (Zdigits2 (N / D) + e') - e')) in *.
assert (Hn : 0 <= n <= 1) by (unfold n, e', fexp, emin, prec, emax; lia).
set (sigma := - (e' + n)).
assert (Hsig : 0 <= sigma) by (unfold sigma, e'; lia).
apply (ceil_of_rounded a b sigma);
  [lia|lia|lia| | |].
- assert (b < 2 ^ (53 + eb)).
  { assert (0 < 2 ^ (- eb)) by (apply pow2_pos; lia).
    rewrite (pow2_split (- eb) 53) in Hbb by lia.
    replace (53 - - eb) with (53 + eb) in Hbb by lia.
    rewrite Hmb in Hbb. nia. }
  assert (2 ^ (53 + eb) <= 2 ^ (sigma + 1))
    by (apply pow2_le; unfold sigma, e'; lia).
  lia.
- unfold sigma. lia.
- replace (e + sigma) with (e - (e' + n)) by (unfold sigma; lia).
  rewrite Hval.
  assert (Hc : 0 < 2 ^ (n - eb)) by (apply pow2_pos; lia).
  rewrite <- (rne_div_scale (a * 2 ^ sigma) b (2 ^ (n - eb))) by lia.
  f_equal.
  + unfold N. rewrite Hma, <- !Z.mul_assoc, <- !Z.pow_add_r
      by (unfold sigma, e'; lia).
    do 2 f_equal. unfold sigma, e'. lia.
  + unfold D. rewrite Hmb, <- !Z.mul_assoc, <- !Z.pow_add_r by lia.
    do 2 f_equal. lia.
Qed.

(** ** Lists indexed by integers *)

Lemma zrange_length (lo : Z) (n : nat) : length (zrange lo n) = n.
Proof. unfold zrange. now rewrite length_map, length_seq. Qed.

Lemma zrange_S (lo : Z) (n : nat) :
  zrange lo (S n) = lo :: zrange (lo + 1) n.
Proof.
  unfold zrange. cbn [seq map]. f_equal; [lia|].
  rewrite <- seq_shift, map_map. apply map_ext. intros j. lia.
Qed.

Lemma zrange_app (lo : Z) (n m : nat) :
  zrange lo (n + m) = zrange lo n ++ zrange (lo + Z.of_nat n) m.
Proof.
  revert lo. induction n as [|n IH]; intros lo.
  - cbn [Nat.add]. replace (lo + Z.of_nat 0) with lo by lia. reflexivity.
  - cbn [Nat.add]. rewrite !zrange_S, IH. cbn [app]. do 3 f_equal. lia.
Qed.

Lemma zrange_snoc (lo : Z) (n : nat) :
  zrange lo (S n) = zrange lo n ++ [lo + Z.of_nat n].
Proof.
  replace (S n) with (n + 1)%nat by lia. rewrite zrange_app. f_equal.
  rewrite zrange_S. f_equal; lia.
Qed.

Lemma in_zrange (lo : Z) (n : nat) (j : Z) :
  In j (zrange lo n) <-> lo <= j < lo + Z.of_nat n.
Proof.
  unfold zrange. rewrite in_map_iff. split.
  - intros (i & <- & Hi). apply in_seq in Hi. lia.
  - intros H. exists (Z.to_nat (j - lo)). split; [lia|]. apply in_seq. lia.
Qed.

Lemma nth_zrange (lo : Z) (n i : nat) (d : Z) :
  (i < n)%nat -> nth i (zrange lo n) d = lo + Z.of_nat i.
Proof.
  revert lo i. induction n as [|n IH]; intros lo i H; [lia|].
  rewrite zrange_S. destruct i as [|i]; cbn [nth]; [lia|].
  rewrite IH by lia. lia.
Qed.

Lemma take_firstn {X : Type} (n : Z) (l : list X) :
  take n l = firstn (Z.to_nat n) l.
Proof.
  revert n. induction l as [|x l IH]; intros n; cbn [take].
  - now rewrite firstn_nil.
  - destruct (Z.ltb_spec 0 n) as [H|H].
    + replace (Z.to_nat n) with (S (Z.to_nat (n - 1))) by lia.
      cbn [firstn]. now rewrite IH.
    + replace (Z.to_nat n) with 0%nat by lia. reflexivity.
Qed.

Lemma drop_skipn {X : Type} (n : Z) (l : list X) :
  drop n l = skipn (Z.to_nat n) l.
Proof.
  revert n. induction l as [|x l IH]; intros n; cbn [drop].
  - now rewrite skipn_nil.
  - destruct (Z.ltb_spec 0 n) as [H|H].
    + replace (Z.to_nat n) with (S (Z.to_nat (n - 1))) by lia.
      cbn [skipn]. now rewrite IH.
    + replace (Z.to_nat n) with 0%nat by lia. reflexivity.
Qed.

Lemma slice_app_exact {X : Type} (pre mid post : list X) (s e : Z) :
  s = Z.of_nat (length pre) -> e = s + Z.of_nat (length mid) ->
  slice s e (pre ++ mid ++ post) = mid.
Proof.
  intros -> ->. unfold slice. rewrite take_firstn, drop_skipn.
  rewrite Nat2Z.id, skipn_app, skipn_all, Nat.sub_diag. cbn [skipn app].
  replace (Z.to_nat _) with (length mid) by lia.
  now rewrite firstn_app, firstn_all, Nat.sub_diag, firstn_O, app_nil_r.
Qed.

(** ** The ranges of [do_parallel] *)

Lemma tiles_app (lo mid hi : Z) (r1 r2 : list (Z * Z)) :
  tiles lo r1 mid -> tiles mid r2 hi -> tiles lo (r1 ++ r2) hi.
Proof.
  revert lo. induction r1 as [|r r1 IH]; intros lo; cbn [tiles app].
  - now intros ->.
  - intros (H1 & H2 & H3) H4. auto.
Qed.

Lemma tiles_le (lo hi : Z) (ranges : list (Z * Z)) :
  tiles lo ranges hi -> lo <= hi.
Proof.
  revert lo. induction ranges as [|r rest IH]; intros lo; cbn [tiles].
  - lia.
  - intros (H1 & H2 & H3). apply IH in H3. lia.
Qed.

Lemma tiles_indices (lo hi : Z) (ranges : list (Z * Z)) :
  tiles lo ranges hi ->
  concat (map task_indices ranges) = zrange lo (Z.to_nat (hi - lo)).
Proof.
  revert lo. induction ranges as [|r rest IH]; intros lo; cbn [tiles map concat].
  - intros ->. now rewrite Z.sub_diag.
  - intros (H1 & H2 & H3). pose proof (tiles_le _ _ _ H3) as Hle.
    rewrite (IH _ H3). unfold task_indices. rewrite H1.
    replace (Z.to_nat (hi - lo))
      with (Z.to_nat (snd r - lo) + Z.to_nat (hi - snd r))%nat by lia.
    rewrite zrange_app. do 2 f_equal. lia.
Qed.

Lemma tiles_once (lo hi j : Z) (ranges : list (Z * Z)) :
  tiles lo ranges hi -> lo <= j < hi ->
  length (filter (fun r => (fst r <=? j) && (j <? snd r)) ranges) = 1%nat.
Proof.
  revert lo. induction ranges as [|r rest IH]; intros lo; cbn [tiles filter].
  - lia.
  - intros (H1 & H2 & H3) Hj. rewrite H1.
    destruct (Z.ltb_spec j (snd r)) as [Hlt|Hge].
    + replace (lo <=? j) with true by (symmetry; apply Z.leb_le; lia).
      cbn [andb length]. f_equal.
      clear IH. revert H3 Hlt. generalize (snd r). clear.
      induction rest as [|r' rest IH]; intros e; cbn [tiles filter].
      * reflexivity.
      * intros (H1 & H2 & H3) Hlt.
        replace (fst r' <=? j) with false by (symmetry; apply Z.leb_gt; lia).
        cbn [andb]. apply (IH _ H3). lia.
    + rewrite andb_false_r. apply (IH _ H3). lia.
Qed.

Lemma tiles_slices {X : Type} (l : list X) (ranges : list (Z * Z)) (lo : Z) :
  0 <= lo -> tiles lo ranges (Z.of_nat (length l)) ->
  concat (map (fun r => slice (fst r) (snd r) l) ranges) = drop lo l.
Proof.
  revert lo. induction ranges as [|r rest IH]; intros lo Hlo; cbn [tiles map concat].
  - intros ->. rewrite drop_skipn, Nat2Z.id. now rewrite skipn_all.
  - intros (H1 & H2 & H3). pose proof (tiles_le _ _ _ H3) as Hle.
    rewrite (IH (snd r)) by (assumption || lia).
    rewrite H1. unfold slice. rewrite take_firstn, !drop_skipn.
    transitivity (firstn (Z.to_nat (snd r - lo)) (skipn (Z.to_nat lo) l)
                  ++ skipn (Z.to_nat (snd r - lo)) (skipn (Z.to_nat lo) l));
      [|apply firstn_skipn].
    f_equal. rewrite skipn_skipn. f_equal. lia.
Qed.

Lemma wrap_small (z : Z) : 0 <= z < size_t_modulus -> wrap z = z.
Proof. intros H. unfold wrap. now apply Z.mod_small. Qed.

Lemma launch_loop_spec (n t : Z) (fuel : nat) (i : Z) (tasks : list (Z * Z)) :
  0 <= n < size_t_modulus -> 1 <= t < size_t_modulus ->
  0 <= i -> i + Z.of_nat fuel = t ->
  launch_loop fuel i n t (n / t) tasks
  = tasks ++ map (Spec.task_range n t) (zrange i fuel).
Proof.
  intros Hn Ht. revert i tasks.
  induction fuel as [|fuel IH]; intros i tasks Hi Hfuel; cbn [launch_loop].
  - cbn. now rewrite app_nil_r.
  - replace (i <? t) with true by (symmetry; apply Z.ltb_lt; lia).
    assert (Hq : 0 <= n / t) by (apply Z.div_pos; lia).
    assert (Hqt : t * (n / t) <= n) by (apply Z.mul_div_le; lia).
    rewrite (wrap_small (i + 1)) by lia.
    rewrite (wrap_small (t - 1)) by lia.
    rewrite (wrap_small (n / t * i)) by nia.
    rewrite IH by lia. rewrite zrange_S. cbn [map].
    rewrite <- app_assoc. cbn [app]. do 2 f_equal.
    unfold Spec.task_range. f_equal; [lia|].
    destruct (Z.eqb_spec i (t - 1)) as [E|E]; [reflexivity|].
    rewrite wrap_small by nia. lia.
Qed.

Lemma task_ranges_tile (n t : Z) (m : nat) (i : Z) :
  0 <= n -> 1 <= t -> 0 <= i -> i + Z.of_nat m = t ->
  tiles (i * (n / t)) (map (Spec.task_range n t) (zrange i m))
        (if (m =? 0)%nat then i * (n / t) else n).
Proof.
  intros Hn Ht. revert i.
  assert (Hq : 0 <= n / t) by (apply Z.div_pos; lia).
  assert (Hqt : t * (n / t) <= n) by (apply Z.mul_div_le; lia).
  induction m as [|m IH]; intros i Hi Hm.
  - reflexivity.
  - rewrite zrange_S. cbn [map tiles Nat.eqb]. unfold Spec.task_range at 1 2 3.
    cbn [fst snd]. split; [reflexivity|].
    destruct (Z.eqb_spec i (t - 1)) as [E|E].
    + split; [nia|]. assert (m = 0%nat) by lia. subst m. reflexivity.
    + split; [nia|]. specialize (IH (i + 1) ltac:(lia) ltac:(lia)).
      destruct m as [|m]; [lia|]. exact IH.
Qed.

Lemma do_parallel_launched (n t : Z) :
  0 <= n < size_t_modulus -> 1 <= t < size_t_modulus ->
  do_parallel n t
  = Some {| launched := map (Spec.task_range n t) (zrange 0 (Z.to_nat t));
            waited := seq 0 (Z.to_nat t) |}.
Proof.
  intros Hn Ht. unfold do_parallel.
  replace (t =? 0) with false by (symmetry; apply Z.eqb_neq; lia).
  rewrite launch_loop_spec by lia. cbn [app].
  now rewrite length_map, zrange_length.
Qed.

Lemma do_parallel_tiles (n t : Z) :
  0 <= n < size_t_modulus -> 1 <= t < size_t_modulus ->
  exists run, do_parallel n t = Some run /\ tiles 0 (launched run) n.
Proof.
  intros Hn Ht. eexists. split; [now apply do_parallel_launched|].
  cbn [launched].
  pose proof (task_ranges_tile n t (Z.to_nat t) 0 ltac:(lia) ltac:(lia)
                               ltac:(lia) ltac:(lia)) as H.
  replace (Z.to_nat t =? 0)%nat with false in H
    by (symmetry; apply Nat.eqb_neq; lia).
  exact H.
Qed.

Lemma nth_map_task_range (n t : Z) (i : Z) :
  0 <= i < t ->
  nth (Z.to_nat i) (map (Spec.task_range n t) (zrange 0 (Z.to_nat t))) (0, 0)
  = Spec.task_range n t i.
Proof.
  intros Hi.
  rewrite nth_indep with (d' := Spec.task_range n t 0)
    by (rewrite length_map, zrange_length; lia).
  rewrite map_nth, nth_zrange by lia. f_equal. lia.
Qed.

(** C8: for [n >= 0] records and [t >= 1] threads, [do_parallel]
    launches exactly [t] tasks; task [i < t - 1] gets the half-open range
    [[i * (n / t), (i + 1) * (n / t))], the last task gets
    [[(t - 1) * (n / t), n)], and the driver waits for every task it
    launched before it returns. *)
Theorem do_parallel_ranges (n t : Z) :
  0 <= n < size_t_modulus -> 1 <= t < size_t_modulus ->
  exists run,
    do_parallel n t = Some run /\
    Z.of_nat (length (launched run)) = t /\
    (forall i, 0 <= i < t - 1 ->
       nth (Z.to_nat i) (launched run) (0, 0)
       = (i * (n / t), (i + 1) * (n / t))) /\
    nth (Z.to_nat (t - 1)) (launched run) (0, 0) = ((t - 1) * (n / t), n) /\
    waited run = seq 0 (length (launched run)).
Proof.
  intros Hn Ht. eexists. split; [now apply do_parallel_launched|].
  cbn [launched waited]. rewrite length_map, zrange_length.
  repeat split.
  - lia.
  - intros i Hi. rewrite nth_map_task_range by lia. unfold Spec.task_range.
    now replace (i =? t - 1) with false by (symmetry; apply Z.eqb_neq; lia).
  - rewrite nth_map_task_range by lia. unfold Spec.task_range.
    now rewrite Z.eqb_refl.
Qed.

(** C10: for [n >= 0] records and [t >= 1] threads, the ranges handed to
    the tasks cover [[0, n)] exactly once: listing the indices of the
    tasks in launch order gives [0, 1, ..., n - 1], and every index lies
    in the range of exactly one task.  For [t > n] the first [t - 1]
    ranges are empty and the last one is [[0, n)].  For [t = 0] the
    division [n / t] is undefined. *)
Theorem do_parallel_covers (n t : Z) :
  0 <= n < size_t_modulus -> 1 <= t < size_t_modulus ->
  do_parallel n 0 = None /\
  exists run,
    do_parallel n t = Some run /\
    concat (map task_indices (launched run)) = zrange 0 (Z.to_nat n) /\
    (forall j, 0 <= j < n ->
       length (filter (fun r => (fst r <=? j) && (j <? snd r)) (launched run))
       = 1%nat) /\
    (n < t -> launched run = repeat (0, 0) (Z.to_nat (t - 1)) ++ [(0, n)]).
Proof.
  intros Hn Ht. split; [reflexivity|].
  destruct (do_parallel_tiles n t Hn Ht) as (run & Hrun & Htiles).
  exists run. split; [assumption|]. repeat split.
  - rewrite (tiles_indices _ _ _ Htiles). f_equal. lia.
  - intros j Hj. now apply (tiles_once 0 n).
  - intros Hlt. rewrite do_parallel_launched in Hrun by assumption.
    injection Hrun as <-. cbn [launched].
    replace (Z.to_nat t) with (S (Z.to_nat (t - 1))) by lia.
    rewrite zrange_snoc, map_app. cbn [map]. f_equal.
    + rewrite <- (zrange_length 0 (Z.to_nat (t - 1))) at 2.
      rewrite <- map_const. apply map_ext_in. intros i Hi.
      apply in_zrange in Hi. unfold Spec.task_range.
      rewrite Z.div_small by lia.
      replace (i =? t - 1) with false by (symmetry; apply Z.eqb_neq; lia).
      now rewrite !Z.mul_0_r.
    + unfold Spec.task_range. rewrite Z.div_small by lia.
      replace (0 + Z.of_nat (Z.to_nat (t - 1)) =? t - 1) with true
        by (symmetry; apply Z.eqb_eq; lia).
      now rewrite Z.mul_0_r.
Qed.

(** ** The emitted line *)

Lemma string_app_assoc (s1 s2 s3 : string) :
  ((s1 ++ s2) ++ s3 = s1 ++ (s2 ++ s3))%string.
Proof. induction s1 as [|ch s1 IH]; cbn; [reflexivity|now rewrite IH]. Qed.

Lemma string_app_nil_r (s : string) : (s ++ "" = s)%string.
Proof. induction s as [|ch s IH]; cbn; [reflexivity|now rewrite IH]. Qed.

Lemma emit_bins_spec (threshold : Z) (counts : list Z) (lo : Z) (s : string) :
  emit_bins threshold counts lo s
  = (s ++ String.concat EmptyString
            (map (fun b => to_string b ++ comma)
                 (map fst (filter (fun bc => (threshold <=? snd bc)%Z)
                                  (combine (zrange lo (length counts)) counts)))))%string.
Proof.
  revert lo s. induction counts as [|count rest IH]; intros lo s.
  - cbn. now rewrite string_app_nil_r.
  - cbn [emit_bins length]. rewrite zrange_S. cbn [combine filter snd].
    rewrite IH. destruct (threshold <=? count); [|reflexivity].
    cbn [map fst]. rewrite !string_app_assoc. f_equal.
    set (tl := map _ (map fst _)).
    destruct tl as [|x tl']; cbn [String.concat].
    + now rewrite string_app_nil_r.
    + cbn. now rewrite !string_app_assoc.
Qed.

Lemma emit_line_spec (id : string) (threshold : Z) (counts : list Z) :
  emit_line id threshold counts = Spec.line id (Spec.hit_bins threshold counts).
Proof.
  unfold emit_line, Spec.line, Spec.hit_bins. rewrite emit_bins_spec.
  now rewrite !string_app_assoc.
Qed.

Lemma in_combine_zrange (lo : Z) (l : list Z) (b v : Z) :
  In (b, v) (combine (zrange lo (length l)) l)
  <-> lo <= b < lo + Z.of_nat (length l) /\ nth_error l (Z.to_nat (b - lo)) = Some v.
Proof. clear precompute_threshold minimiser_hash adjust_seed.
  revert lo. induction l as [|x l IH]; intros lo.
  - cbn. split; [tauto|lia].
  - cbn [length]. rewrite zrange_S. cbn [combine In]. rewrite IH. split.
    + intros [E|(H1 & H2)].
      * injection E as <- <-. rewrite Z.sub_diag. cbn. split; [lia|reflexivity].
      * split; [lia|].
        replace (Z.to_nat (b - lo)) with (S (Z.to_nat (b - (lo + 1)))) by lia.
        exact H2.
    + intros (H1 & H2). destruct (Z.eq_dec b lo) as [->|Hne].
      * left. rewrite Z.sub_diag in H2. cbn in H2. congruence.
      * right. split; [lia|].
        replace (Z.to_nat (b - lo)) with (S (Z.to_nat (b - (lo + 1)))) in H2 by lia.
        exact H2.
Qed.

Lemma in_hit_bins (threshold : Z) (counts : list Z) (b : Z) :
  In b (Spec.hit_bins threshold counts)
  <-> 0 <= b < Z.of_nat (length counts)
      /\ threshold <= nth (Z.to_nat b) counts 0.
Proof.
  unfold Spec.hit_bins. rewrite in_map_iff. split.
  - intros ((b' & v) & <- & H). apply filter_In in H. destruct H as (H & Hv).
    apply in_combine_zrange in H. cbn [fst snd] in *.
    rewrite Z.sub_0_r in H. destruct H as (H1 & H2).
    split; [lia|]. rewrite (nth_error_nth _ _ _ H2). now apply Z.leb_le.
  - intros (H1 & H2).
    destruct (nth_error counts (Z.to_nat b)) as [v|] eqn:E.
    + exists (b, v). split; [reflexivity|]. apply filter_In. split.
      * apply in_combine_zrange. rewrite Z.sub_0_r. split; [lia|assumption].
      * cbn [snd]. rewrite (nth_error_nth _ _ _ E) in H2. now apply Z.leb_le.
    + apply nth_error_None in E. lia.
Qed.

Lemma hit_bins_sorted_from (threshold : Z) (counts : list Z) (lo : Z) :
  StronglySorted Z.lt
    (map fst (filter (fun bc => threshold <=? snd bc)
                     (combine (zrange lo (length counts)) counts))).
Proof.
  revert lo. induction counts as [|count rest IH]; intros lo.
  - constructor.
  - cbn [length]. rewrite zrange_S. cbn [combine filter snd].
    destruct (threshold <=? count); [|apply IH].
    cbn [map fst]. constructor; [apply IH|].
    apply Forall_forall. intros b Hb. apply in_map_iff in Hb.
    destruct Hb as ((b' & v) & <- & H). apply filter_In in H.
    destruct H as (H & _). apply in_combine_zrange in H. cbn [fst]. lia.
Qed.

Lemma nzhead_not_D0 (d d' : Decimal.uint) : Decimal.nzhead d <> Decimal.D0 d'.
Proof. induction d; cbn; try discriminate. exact IHd. Qed.

Lemma to_uint_not_padded (n : N) (d : Decimal.uint) :
  N.to_uint n = Decimal.D0 d -> d = Decimal.Nil.
Proof.
  intros H. pose proof (DecimalN.Unsigned.to_of (N.to_uint n)) as Hn.
  rewrite DecimalN.Unsigned.of_to in Hn. rewrite H in Hn.
  unfold Decimal.unorm in Hn. cbn [Decimal.nzhead] in Hn.
  destruct (Decimal.nzhead d) eqn:E; try discriminate.
  - now injection Hn.
  - exfalso. injection Hn as Hn. subst. now apply nzhead_not_D0 in E.
Qed.

Lemma to_uint_not_nil (n : N) : N.to_uint n <> Decimal.Nil.
Proof.
  intros H. pose proof (DecimalN.Unsigned.to_of (N.to_uint n)) as Hn.
  rewrite DecimalN.Unsigned.of_to, H in Hn. discriminate Hn.
Qed.

Lemma to_string_decimal (b : Z) :
  NilZero.uint_of_string (to_string b) = Some (N.to_uint (Z.to_N b)).
Proof. unfold to_string. apply NilZero.usu, to_uint_not_nil. Qed.

Lemma to_string_not_padded (b : Z) (s : string) :
  0 <= b -> to_string b = String "0"%char s -> b = 0 /\ s = EmptyString.
Proof.
  intros Hb H. unfold to_string, NilZero.string_of_uint in H.
  destruct (N.to_uint (Z.to_N b)) as [|d|d|d|d|d|d|d|d|d|d] eqn:E;
    try discriminate H.
  - now destruct (to_uint_not_nil _ E).
  - pose proof (to_uint_not_padded _ _ E) as ->.
    cbn in H. injection H as <-. split; [|reflexivity].
    assert (Z.to_N b = 0%N) by (apply DecimalN.Unsigned.to_uint_inj; now rewrite E).
    lia.
Qed.

(** ** Parallel phases *)

Lemma take_0 {X : Type} (l : list X) : take 0 l = [].
Proof. now destruct l. Qed.

Lemma drop_0 {X : Type} (l : list X) : drop 0 l = l.
Proof. now destruct l. Qed.

Lemma take_all {X : Type} (n : Z) (l : list X) :
  Z.of_nat (length l) <= n -> take n l = l.
Proof. intros H. rewrite take_firstn. apply firstn_all2. lia. Qed.

Lemma drop_all {X : Type} (n : Z) (l : list X) :
  Z.of_nat (length l) <= n -> drop n l = [].
Proof. intros H. rewrite drop_skipn. apply skipn_all2. lia. Qed.

Lemma take_length {X : Type} (n : Z) (l : list X) :
  0 <= n <= Z.of_nat (length l) -> Z.of_nat (length (take n l)) = n.
Proof. intros H. rewrite take_firstn, length_firstn. lia. Qed.

Lemma drop_length {X : Type} (n : Z) (l : list X) :
  0 <= n <= Z.of_nat (length l) ->
  Z.of_nat (length (drop n l)) = Z.of_nat (length l) - n.
Proof. intros H. rewrite drop_skipn, length_skipn. lia. Qed.

Lemma take_drop {X : Type} (n : Z) (l : list X) : take n l ++ drop n l = l.
Proof. rewrite take_firstn, drop_skipn. apply firstn_skipn. Qed.

Lemma drop_drop {X : Type} (n m : Z) (l : list X) :
  0 <= n -> 0 <= m -> drop m (drop n l) = drop (n + m) l.
Proof.
  intros Hn Hm. rewrite !drop_skipn, skipn_skipn. f_equal. lia.
Qed.

Lemma drop_split {X : Type} (lo e : Z) (l : list X) :
  0 <= lo <= e -> drop lo l = slice lo e l ++ drop e l.
Proof.
  intros H. unfold slice.
  rewrite <- (take_drop (e - lo) (drop lo l)) at 1. f_equal.
  rewrite drop_drop by lia. f_equal. lia.
Qed.

Lemma slice_length {X : Type} (s e : Z) (l : list X) :
  0 <= s <= e -> e <= Z.of_nat (length l) ->
  Z.of_nat (length (slice s e l)) = e - s.
Proof.
  intros H1 H2. unfold slice. rewrite take_length; [lia|].
  rewrite drop_length; lia.
Qed.

Lemma slice_map {X Y : Type} (f : X -> Y) (s e : Z) (l : list X) :
  slice s e (map f l) = map f (slice s e l).
Proof.
  unfold slice. rewrite !take_firstn, !drop_skipn.
  now rewrite skipn_map, firstn_map.
Qed.

Lemma split_at_slice {X : Type} (s e : Z) (l : list X) :
  0 <= s <= e -> l = take s l ++ slice s e l ++ drop e l.
Proof.
  intros H. rewrite <- drop_split by assumption. symmetry. apply take_drop.
Qed.

Lemma tiles_bounds (lo hi : Z) (ranges : list (Z * Z)) :
  tiles lo ranges hi ->
  Forall (fun r => lo <= fst r /\ fst r <= snd r /\ snd r <= hi) ranges.
Proof.
  revert lo. induction ranges as [|r rest IH]; intros lo; cbn [tiles].
  - constructor.
  - intros (H1 & H2 & H3). pose proof (tiles_le _ _ _ H3).
    constructor; [lia|].
    apply IH in H3. eapply Forall_impl; [|exact H3]. cbn. intros; lia.
Qed.

Lemma all_defined_app {X : Type} (l1 l2 : list (option X)) :
  all_defined (l1 ++ l2)
  = match all_defined l1, all_defined l2 with
    | Some x1, Some x2 => Some (x1 ++ x2)
    | _, _ => None
    end.
Proof.
  induction l1 as [|[x|] l1 IH]; cbn [app all_defined].
  - now destruct (all_defined l2).
  - rewrite IH. now destruct (all_defined l1), (all_defined l2).
  - reflexivity.
Qed.

Lemma all_defined_length {X : Type} (l : list (option X)) (xs : list X) :
  all_defined l = Some xs -> length xs = length l.
Proof.
  revert xs. induction l as [|[x|] l IH]; intros xs; cbn [all_defined].
  - now intros [= <-].
  - destruct (all_defined l); [|discriminate]. intros [= <-].
    cbn [length]. f_equal. now apply IH.
  - discriminate.
Qed.

Lemma all_defined_tasks {X Y : Type} (g : X -> option Y) (l : list X)
      (ranges : list (Z * Z)) (lo : Z) :
  0 <= lo -> tiles lo ranges (Z.of_nat (length l)) ->
  option_map (@concat Y)
    (all_defined (map (fun r => all_defined (map g (slice (fst r) (snd r) l)))
                      ranges))
  = all_defined (map g (drop lo l)).
Proof.
  revert lo. induction ranges as [|r rest IH]; intros lo Hlo; cbn [tiles].
  - intros ->. rewrite drop_all by lia. reflexivity.
  - intros (H1 & H2 & H3). rewrite (drop_split lo (snd r)) by lia.
    rewrite map_app, all_defined_app, <- (IH (snd r)) by (lia || assumption).
    cbn [map all_defined]. rewrite H1.
    destruct (all_defined (map g (slice lo (snd r) l))) as [x|]; [|reflexivity].
    now destruct (all_defined (map _ rest)).
Qed.

Lemma parallel_lines_spec {X : Type} (task : Z -> Z -> option (list string))
      (g : X -> option string) (l : list X) (t : Z) (w : world) :
  Z.of_nat (length l) < size_t_modulus -> 1 <= t < size_t_modulus ->
  (forall s e, 0 <= s <= e -> e <= Z.of_nat (length l) ->
               task s e = all_defined (map g (slice s e l))) ->
  match all_defined (map g l) with
  | Some ys =>
      exists yss, concat yss = ys /\
        parallel_lines task (Z.of_nat (length l)) t w
        = write_all (interleave yss) w
  | None => parallel_lines task (Z.of_nat (length l)) t w = Undef w
  end.
Proof.
  intros Hn Ht Htask.
  destruct (do_parallel_tiles (Z.of_nat (length l)) t ltac:(lia) Ht)
    as (run & Hrun & Htiles).
  unfold parallel_lines, bind, defined. rewrite Hrun.
  pose proof (all_defined_tasks g l (launched run) 0 ltac:(lia) Htiles) as H.
  rewrite drop_0 in H.
  assert (E : map (fun r => task (fst r) (snd r)) (launched run)
              = map (fun r => all_defined (map g (slice (fst r) (snd r) l)))
                    (launched run)).
  { apply map_ext_in. intros r Hr.
    pose proof (tiles_bounds _ _ _ Htiles) as Hb.
    rewrite Forall_forall in Hb. specialize (Hb r Hr). apply Htask; lia. }
  rewrite E.
  destruct (all_defined (map (fun r => all_defined _) (launched run)))
    as [yss|]; cbn [option_map] in H; rewrite <- H.
  - exists yss. split; reflexivity.
  - reflexivity.
Qed.

(** ** The accumulators of multi-part mode *)

Lemma update_middle {X : Type} (f : X -> X) (pre post : list X) (x : X) :
  update (Z.of_nat (length pre)) f (pre ++ x :: post) = pre ++ f x :: post.
Proof.
  induction pre as [|y pre IH]; cbn [length app update].
  - reflexivity.
  - replace (Z.of_nat (S (length pre)) =? 0) with false
      by (symmetry; apply Z.eqb_neq; lia).
    f_equal. rewrite <- IH. f_equal. lia.
Qed.

Lemma nth_error_middle_Z {X : Type} (pre post : list X) (x : X) :
  nth_error (pre ++ x :: post) (Z.to_nat (Z.of_nat (length pre))) = Some x.
Proof.
  rewrite Nat2Z.id, nth_error_app2 by lia. now rewrite Nat.sub_diag.
Qed.

Lemma combine_app {X Y : Type} (l1 l2 : list X) (k1 k2 : list Y) :
  length l1 = length k1 ->
  combine (l1 ++ l2) (k1 ++ k2) = combine l1 k1 ++ combine l2 k2.
Proof.
  revert k1. induction l1 as [|x l1 IH]; intros [|y k1] H;
    try discriminate H; cbn [app combine].
  - reflexivity.
  - f_equal. apply IH. now injection H.
Qed.

Lemma combine_map_r {X Y : Type} (h : X -> Y) (l : list X) :
  combine l (map h l) = map (fun x => (x, h x)) l.
Proof. induction l as [|x l IH]; cbn; [reflexivity|now rewrite IH]. Qed.

Lemma all_defined_map_total {X Y : Type} (f : X -> option Y) (g : X -> Y)
      (l : list X) :
  (forall x, In x l -> f x = Some (g x)) ->
  all_defined (map f l) = Some (map g l).
Proof.
  induction l as [|x l IH]; intros H; [reflexivity|].
  cbn [map all_defined]. rewrite (H x) by now left.
  rewrite IH by (intros y Hy; apply H; now right). reflexivity.
Qed.

Lemma bulk_count_length (ibf : interleaved_bloom_filter) (hashes : list Z) :
  length (bulk_count ibf hashes) = bin_count ibf.
Proof. unfold bulk_count. now rewrite length_map, length_seq. Qed.

Lemma cv_add_fits (acc rhs : list Z) :
  (length acc <= length rhs)%nat -> cv_add acc rhs = Some (cv_sum acc rhs).
Proof.
  intros H. unfold cv_add.
  now replace (length rhs <? length acc)%nat with false
    by (symmetry; apply Nat.ltb_ge; exact H).
Qed.

Lemma cv_add_too_wide (acc rhs : list Z) :
  (length rhs < length acc)%nat -> cv_add acc rhs = None.
Proof.
  intros H. unfold cv_add.
  now replace (length rhs <? length acc)%nat with true
    by (symmetry; apply Nat.ltb_lt; exact H).
Qed.

Lemma cv_sum_length (acc rhs : list Z) :
  (length acc <= length rhs)%nat -> length (cv_sum acc rhs) = length acc.
Proof.
  intros H. unfold cv_sum. rewrite length_map, length_combine. lia.
Qed.

Lemma cv_add_length (acc rhs acc' : list Z) :
  cv_add acc rhs = Some acc' -> length acc' = length acc.
Proof.
  unfold cv_add. destruct (Nat.ltb_spec (length rhs) (length acc));
    [discriminate|]. intros [= <-]. now apply cv_sum_length.
Qed.

Lemma count_loop_spec (a : search_arguments) (ibf : interleaved_bloom_filter)
      (recs : list record_type) (pre mid post : list (list Z)) :
  length mid = length recs ->
  count_loop a ibf recs (Z.of_nat (length pre)) (pre ++ mid ++ post)
  = option_map (fun mid' => pre ++ mid' ++ post)
      (all_defined
         (map (fun p => cv_add (snd p) (bulk_count ibf (minimisers a (fst p))))
              (combine recs mid))).
Proof.
  revert pre mid. induction recs as [|r rest IH]; intros pre [|m mid] H;
    try discriminate H; cbn [count_loop combine map all_defined app fst snd].
  - reflexivity.
  - rewrite nth_error_middle_Z.
    destruct (cv_add m (bulk_count ibf (minimisers a r))) as [m'|];
      [|reflexivity].
    rewrite update_middle.
    replace (Z.of_nat (length pre) + 1) with (Z.of_nat (length (pre ++ [m'])))
      by (rewrite length_app; cbn [length]; lia).
    replace (pre ++ m' :: mid ++ post) with ((pre ++ [m']) ++ mid ++ post)
      by (now rewrite <- app_assoc).
    rewrite IH by (now injection H).
    destruct (all_defined _) as [mid'|]; [|reflexivity].
    cbn [option_map]. now rewrite <- app_assoc.
Qed.

Lemma count_sums_fit (a : search_arguments) (ibf : interleaved_bloom_filter)
      (recs : list record_type) (accs : list (list Z)) :
  Forall (fun acc => (length acc <= bin_count ibf)%nat) accs ->
  all_defined
    (map (fun p => cv_add (snd p) (bulk_count ibf (minimisers a (fst p))))
         (combine recs accs))
  = Some (map (fun p => cv_sum (snd p) (bulk_count ibf (minimisers a (fst p))))
              (combine recs accs)).
Proof.
  intros H. apply all_defined_map_total. intros (r & acc) Hin.
  apply in_combine_r in Hin. rewrite Forall_forall in H.
  cbn [fst snd]. apply cv_add_fits. rewrite bulk_count_length. now apply H.
Qed.

Lemma Forall_take {X : Type} (P : X -> Prop) (n : Z) (l : list X) :
  Forall P l -> Forall P (take n l).
Proof.
  intros H. rewrite <- (take_drop n l) in H.
  now apply Forall_app in H.
Qed.

Lemma Forall_drop {X : Type} (P : X -> Prop) (n : Z) (l : list X) :
  Forall P l -> Forall P (drop n l).
Proof.
  intros H. rewrite <- (take_drop n l) in H.
  now apply Forall_app in H.
Qed.

Lemma fold_count_tiles (a : search_arguments) (ibf : interleaved_bloom_filter)
      (records : list record_type) (ranges : list (Z * Z))
      (done todo : list (list Z)) :
  tiles (Z.of_nat (length done)) ranges (Z.of_nat (length records)) ->
  length (done ++ todo) = length records ->
  Forall (fun acc => (length acc <= bin_count ibf)%nat) todo ->
  fold_left (fun cs r =>
               match cs with
               | Some cs => count_task a ibf records cs (fst r) (snd r)
               | None => None
               end)
            ranges (Some (done ++ todo))
  = Some (done
          ++ map (fun p => cv_sum (snd p) (bulk_count ibf (minimisers a (fst p))))
                 (combine (drop (Z.of_nat (length done)) records) todo)).
Proof.
  revert done todo. induction ranges as [|r rest IH]; intros done todo;
    cbn [tiles fold_left].
  - intros E Hlen _. rewrite length_app in Hlen.
    destruct todo; [|cbn [length] in Hlen; lia].
    now rewrite combine_nil.
  - intros (H1 & H2 & H3) Hlen Hfit. pose proof (tiles_le _ _ _ H3) as Hle.
    rewrite length_app in Hlen.
    set (e := snd r) in *.
    unfold count_task. rewrite H1. fold e.
    rewrite <- (take_drop (e - Z.of_nat (length done)) todo).
    assert (Hmid : length (take (e - Z.of_nat (length done)) todo)
                   = length (slice (Z.of_nat (length done)) e records)).
    { apply Nat2Z.inj. rewrite take_length, slice_length; lia. }
    rewrite count_loop_spec by assumption.
    rewrite count_sums_fit by (now apply Forall_take).
    cbn [option_map]. rewrite app_assoc.
    assert (Hdone : Z.of_nat (length (done ++ map
              (fun p => cv_sum (snd p) (bulk_count ibf (minimisers a (fst p))))
              (combine (slice (Z.of_nat (length done)) e records)
                       (take (e - Z.of_nat (length done)) todo)))) = e).
    { rewrite length_app, length_map, length_combine, <- Hmid, Nat.min_id.
      rewrite Nat2Z.inj_add, take_length; lia. }
    rewrite IH.
    + rewrite Hdone, <- app_assoc. do 2 f_equal. rewrite <- map_app. f_equal.
      rewrite (drop_split (Z.of_nat (length done)) e records) by lia.
      now rewrite combine_app by (symmetry; assumption).
    + now rewrite Hdone.
    + rewrite length_app. apply Nat2Z.inj. rewrite Nat2Z.inj_add, Hdone.
      rewrite drop_length; lia.
    + now apply Forall_drop.
Qed.

Lemma parallel_count_spec (a : search_arguments) (ibf : interleaved_bloom_filter)
      (records : list record_type) (h : record_type -> list Z) (w : world) :
  Z.of_nat (length records) < size_t_modulus ->
  1 <= threads a < size_t_modulus ->
  (forall r, In r records -> (length (h r) <= bin_count ibf)%nat) ->
  parallel_count a ibf records (map h records) w
  = Ok (map (fun r => cv_sum (h r) (bulk_count ibf (minimisers a r))) records) w.
Proof.
  intros Hn Ht Hfit.
  destruct (do_parallel_tiles (Z.of_nat (length records)) (threads a)
                              ltac:(lia) Ht) as (run & Hrun & Htiles).
  unfold parallel_count, bind, defined. rewrite Hrun.
  pose proof (fold_count_tiles a ibf records (launched run) [] (map h records))
    as H.
  cbn [length app] in H. rewrite drop_0 in H.
  rewrite H; [| assumption | now rewrite length_map |].
  - rewrite combine_map_r, map_map. reflexivity.
  - apply Forall_forall. intros acc Hacc. apply in_map_iff in Hacc.
    destruct Hacc as (r & <- & Hr). now apply Hfit.
Qed.

Lemma accumulate_cons (a : search_arguments) (inp : inputs) (r : record_type)
      (part : Z) (rest : list Z) (acc : list Z) :
  accumulate a inp r (part :: rest) acc
  = match cv_add acc (bulk_count (ibf_part inp part) (minimisers a r)) with
    | Some acc' => accumulate a inp r rest acc'
    | None => None
    end.
Proof.
  unfold accumulate. cbn [fold_left].
  destruct (cv_add acc _) as [acc'|]; [reflexivity|].
  induction rest as [|p rest IH]; [reflexivity|exact IH].
Qed.

Lemma accumulated_cons (a : search_arguments) (inp : inputs) (r : record_type)
      (part : Z) (rest : list Z) (acc : list Z) :
  accumulated a inp r (part :: rest) acc
  = accumulated a inp r rest
      (cv_sum acc (bulk_count (ibf_part inp part) (minimisers a r))).
Proof. reflexivity. Qed.

Lemma accumulate_fits (a : search_arguments) (inp : inputs) (r : record_type)
      (part_ids : list Z) (acc : list Z) :
  (forall part, In part part_ids ->
                (length acc <= bin_count (ibf_part inp part))%nat) ->
  accumulate a inp r part_ids acc = Some (accumulated a inp r part_ids acc) /\
  length (accumulated a inp r part_ids acc) = length acc.
Proof.
  revert acc. induction part_ids as [|part rest IH]; intros acc Hfit.
  - split; reflexivity.
  - rewrite accumulate_cons, accumulated_cons.
    assert (Hp : (length acc
                  <= length (bulk_count (ibf_part inp part) (minimisers a r)))%nat)
      by (rewrite bulk_count_length; apply Hfit; now left).
    rewrite cv_add_fits by exact Hp.
    pose proof (cv_sum_length _ _ Hp) as Hl.
    destruct (IH (cv_sum acc (bulk_count (ibf_part inp part) (minimisers a r))))
      as (E1 & E2).
    { intros p Hin. rewrite Hl. apply Hfit. now right. }
    split; [exact E1|]. now rewrite E2.
Qed.

Lemma count_parts_spec (a : search_arguments) (inp : inputs)
      (records : list record_type) (part_ids : list Z)
      (h : record_type -> list Z) (w : world) :
  Z.of_nat (length records) < size_t_modulus ->
  1 <= threads a < size_t_modulus ->
  (forall r part, In r records -> In part part_ids ->
                  (length (h r) <= bin_count (ibf_part inp part))%nat) ->
  count_parts a inp records part_ids (map h records) w
  = Ok (map (fun r => accumulated a inp r part_ids (h r)) records)
       {| out := out w; cache := cache w;
          trace := trace w ++ map (fun p => ev_load_ibf (Some p)) part_ids |}.
Proof.
  intros Hn Ht. revert h w.
  induction part_ids as [|part rest IH]; intros h w Hfit; cbn [count_parts map].
  - unfold ret. rewrite app_nil_r. now destruct w.
  - unfold bind at 1. unfold log at 1. unfold bind at 1.
    rewrite parallel_count_spec;
      [|assumption|assumption|intros r Hr; apply Hfit; [exact Hr|now left]].
    rewrite (IH (fun r => cv_sum (h r)
                   (bulk_count (ibf_part inp part) (minimisers a r)))).
    + cbn [out cache trace]. now rewrite <- app_assoc.
    + intros r p Hr Hp. rewrite cv_sum_length.
      * apply Hfit; [exact Hr|now right].
      * rewrite bulk_count_length. apply Hfit; [exact Hr|now left].
Qed.

Lemma output_loop_spec (a : search_arguments) (c : search_constants)
      (table : list Z) (ibf : interleaved_bloom_filter)
      (recs : list record_type) (pre mid post : list (list Z)) :
  length mid = length recs ->
  option_map fst
    (output_loop a c table ibf recs (Z.of_nat (length pre)) (pre ++ mid ++ post))
  = all_defined (map (output_record a c table ibf) (combine recs mid)).
Proof.
  revert pre mid. induction recs as [|r rest IH]; intros pre [|m mid] H;
    try discriminate H; cbn [output_loop combine map all_defined app].
  - reflexivity.
  - unfold output_record at 1. cbn [fst snd]. cbv zeta.
    rewrite nth_error_middle_Z.
    destruct (cv_add m (bulk_count ibf (minimisers a r))) as [m'|];
      [|reflexivity].
    destruct (select_threshold a c table _) as [threshold|]; [|reflexivity].
    rewrite update_middle.
    replace (Z.of_nat (length pre) + 1)
      with (Z.of_nat (length (pre ++ [m'])))
      by (rewrite length_app; cbn [length]; lia).
    replace (pre ++ m' :: mid ++ post) with ((pre ++ [m']) ++ mid ++ post)
      by (now rewrite <- app_assoc).
    rewrite <- (IH (pre ++ [m']) mid) by (now injection H).
    now destruct (output_loop a c table ibf rest _ _) as [[lines counts']|].
Qed.

Lemma output_task_slices (a : search_arguments) (c : search_constants)
      (table : list Z) (ibf : interleaved_bloom_filter)
      (records : list record_type) (counts : list (list Z)) (s e : Z) :
  0 <= s <= e -> e <= Z.of_nat (length records) ->
  length counts = length records ->
  output_task a c table ibf records counts s e
  = all_defined (map (output_record a c table ibf)
                     (combine (slice s e records) (slice s e counts))).
Proof.
  intros H1 H2 Hlen. unfold output_task.
  rewrite <- (output_loop_spec a c table ibf (slice s e records)
                (take s counts) (slice s e counts) (drop e counts))
    by (apply Nat2Z.inj; rewrite !slice_length; lia).
  rewrite <- split_at_slice by assumption.
  rewrite take_length by lia. reflexivity.
Qed.

Lemma output_task_spec (a : search_arguments) (c : search_constants)
      (table : list Z) (ibf : interleaved_bloom_filter)
      (records : list record_type) (h : record_type -> list Z) (s e : Z) :
  0 <= s <= e -> e <= Z.of_nat (length records) ->
  output_task a c table ibf records (map h records) s e
  = all_defined (map (fun r => output_record a c table ibf (r, h r))
                     (slice s e records)).
Proof.
  intros H1 H2.
  rewrite output_task_slices by (assumption || apply length_map).
  now rewrite slice_map, combine_map_r, map_map.
Qed.

(** ** Chunks *)

Lemma chunk_fuel_irrelevant {X : Type} (n : Z) (fuel1 fuel2 : nat) (l : list X) :
  1 <= n -> (length l <= fuel1)%nat -> (length l <= fuel2)%nat ->
  chunk_fuel fuel1 n l = chunk_fuel fuel2 n l.
Proof.
  intros Hn. revert fuel2 l.
  induction fuel1 as [|fuel1 IH]; intros fuel2 l H1 H2.
  - destruct l; [now destruct fuel2|cbn [length] in H1; lia].
  - destruct l as [|x l]; [now destruct fuel2|].
    destruct fuel2 as [|fuel2]; [cbn [length] in H2; lia|].
    cbn [chunk_fuel]. f_equal.
    assert (Hd : (length (drop n (x :: l)) <= length l)%nat).
    { rewrite drop_skipn.
      replace (Z.to_nat n) with (S (Z.to_nat (n - 1))) by lia.
      cbn [skipn]. rewrite length_skipn. lia. }
    cbn [length] in H1, H2. apply IH; lia.
Qed.

Lemma chunk_fuel_enough {X : Type} (n : Z) (fuel : nat) (l : list X) :
  1 <= n -> (length l <= fuel)%nat -> chunk_fuel fuel n l = chunk n l.
Proof.
  intros Hn Hl. unfold chunk. now apply chunk_fuel_irrelevant.
Qed.

Lemma chunk_cons {X : Type} (n : Z) (l : list X) :
  1 <= n -> l <> [] -> chunk n l = take n l :: chunk n (drop n l).
Proof.
  intros Hn Hl. destruct l as [|x l]; [congruence|].
  unfold chunk at 1. cbn [length chunk_fuel]. f_equal.
  apply chunk_fuel_enough; [assumption|].
  rewrite drop_skipn. replace (Z.to_nat n) with (S (Z.to_nat (n - 1))) by lia.
  cbn [skipn]. rewrite length_skipn. lia.
Qed.

Lemma chunk_app_exact {X : Type} (n : Z) (l1 l2 : list X) :
  1 <= n -> Z.of_nat (length l1) = n -> chunk n (l1 ++ l2) = l1 :: chunk n l2.
Proof.
  intros Hn Hl. rewrite chunk_cons; [|assumption|].
  - rewrite take_firstn, drop_skipn.
    replace (Z.to_nat n) with (length l1 + 0)%nat by lia.
    rewrite firstn_app_2, skipn_app, Nat.add_0_r, skipn_all.
    replace (length l1 - length l1)%nat with 0%nat by lia.
    cbn [firstn skipn app]. now rewrite app_nil_r.
  - destruct l1; [cbn [length] in Hl; lia|discriminate].
Qed.

Lemma chunk_small {X : Type} (n : Z) (l : list X) :
  1 <= n -> l <> [] -> Z.of_nat (length l) <= n -> chunk n l = [l].
Proof.
  intros Hn Hl Hlen. rewrite chunk_cons by assumption.
  now rewrite take_all, drop_all by assumption.
Qed.

Lemma chunk_concat {X : Type} (n : Z) (l : list X) :
  1 <= n ->
  concat (chunk n l) = l /\
  Forall (fun c => Z.of_nat (length c) <= n) (chunk n l).
Proof.
  intros Hn. remember (length l) as k eqn:Hk. revert l Hk.
  induction k as [k IH] using lt_wf_ind. intros l Hk.
  destruct l as [|x l]; [split; [reflexivity|constructor]|].
  rewrite chunk_cons by (assumption || discriminate).
  assert (Hd : (length (drop n (x :: l)) < k)%nat).
  { subst k. rewrite drop_skipn.
    replace (Z.to_nat n) with (S (Z.to_nat (n - 1))) by lia.
    cbn [skipn length]. rewrite length_skipn. lia. }
  destruct (IH _ Hd (drop n (x :: l)) eq_refl) as (H1 & H2).
  split.
  - cbn [concat]. rewrite H1. apply take_drop.
  - constructor; [|assumption].
    rewrite take_firstn, length_firstn. lia.
Qed.

(** ** The steps of a run *)

Lemma compute_simple_model_ok (a : search_arguments) (w : world) :
  exists w',
    compute_simple_model a w = Ok (threshold_table a (cache w)) w' /\
    out w' = out w.
Proof.
  unfold compute_simple_model, threshold_table.
  destruct (double_is_zero (threshold a)).
  - unfold bind, do_cerealisation_in.
    destruct (cache w) as [cached|]; cbn; eexists; split; reflexivity.
  - eexists; split; reflexivity.
Qed.

Lemma single_chunk_spec (a : search_arguments) (c : search_constants)
      (table : list Z) (ibf : interleaved_bloom_filter)
      (records : list record_type) (w : world) :
  Z.of_nat (length records) < size_t_modulus ->
  1 <= threads a < size_t_modulus ->
  match all_defined (map (worker_record a c table ibf) records) with
  | Some ys =>
      exists data w',
        single_chunk a c table ibf records w = Ok tt w' /\
        Permutation data ys /\
        out w' = option_map (fun o => o ++ data) (out w) /\
        cache w' = cache w
  | None => exists w', single_chunk a c table ibf records w = Undef w'
  end.
Proof.
  intros Hn Ht. unfold single_chunk, bind, log. cbv beta iota.
  pose proof (parallel_lines_spec (worker a c table ibf records)
                (worker_record a c table ibf) records (threads a)
                {| out := out w; cache := cache w;
                   trace := trace w ++ [ev_read_chunk (length records)] |}
                Hn Ht ltac:(reflexivity)) as H.
  destruct (all_defined (map (worker_record a c table ibf) records)) as [ys|].
  - destruct H as (yss & Hc & ->). eexists (interleave yss), _.
    split; [reflexivity|]. cbn [out cache]. repeat split.
    rewrite <- Hc. apply interleave_perm.
  - rewrite H. eexists. reflexivity.
Qed.

Lemma single_chunks_spec (a : search_arguments) (c : search_constants)
      (table : list Z) (ibf : interleaved_bloom_filter)
      (chunks : list (list record_type)) (w : world) (o : list string) :
  Forall (fun ch => Z.of_nat (length ch) < size_t_modulus) chunks ->
  1 <= threads a < size_t_modulus ->
  out w = Some o ->
  match all_defined (map (worker_record a c table ibf) (concat chunks)) with
  | Some ys =>
      exists data w',
        for_each chunks (single_chunk a c table ibf) w = Ok tt w' /\
        Permutation data ys /\ out w' = Some (o ++ data)
  | None =>
      exists w', for_each chunks (single_chunk a c table ibf) w = Undef w'
  end.
Proof.
  intros Hch Ht. revert w o.
  induction chunks as [|ch chunks IH]; intros w o Ho; cbn [concat for_each].
  - cbn. exists [], w. rewrite app_nil_r. repeat split; [constructor|assumption].
  - inversion Hch as [|? ? Hlen Hrest]; subst.
    rewrite map_app, all_defined_app.
    pose proof (single_chunk_spec a c table ibf ch w Hlen Ht) as H1.
    unfold bind.
    destruct (all_defined (map (worker_record a c table ibf) ch)) as [y1|].
    + destruct H1 as (d1 & w1 & -> & Hp1 & Ho1 & _).
      rewrite Ho in Ho1. cbn [option_map] in Ho1.
      specialize (IH Hrest w1 (o ++ d1) Ho1).
      destruct (all_defined (map _ (concat chunks))) as [y2|].
      * destruct IH as (d2 & w2 & -> & Hp2 & Ho2).
        exists (d1 ++ d2), w2. repeat split.
        -- now apply Permutation_app.
        -- now rewrite app_assoc.
      * exact IH.
    + destruct H1 as (w1 & ->). now exists w1.
Qed.

(** ** The chunks of multi-part mode *)

Lemma accumulated_app (a : search_arguments) (inp : inputs) (r : record_type)
      (l1 l2 : list Z) (acc : list Z) :
  accumulated a inp r (l1 ++ l2) acc
  = accumulated a inp r l2 (accumulated a inp r l1 acc).
Proof. unfold accumulated. apply fold_left_app. Qed.

Lemma multiple_record_fits (a : search_arguments) (c : search_constants)
      (table : list Z) (inp : inputs) (width : nat) (r : record_type) :
  (forall i, 0 <= i < parts a - 1 ->
             (width <= bin_count (ibf_part inp i))%nat) ->
  multiple_record a c table inp width r
  = output_record a c table (ibf_part inp (parts a - 1))
      (r, accumulated a inp r (zrange 0 (Z.to_nat (parts a - 1)))
                      (repeat 0 width)).
Proof.
  intros Hfit. unfold multiple_record.
  destruct (accumulate_fits a inp r (zrange 0 (Z.to_nat (parts a - 1)))
              (repeat 0 width)) as (-> & _); [|reflexivity].
  intros part Hin. apply in_zrange in Hin. rewrite repeat_length.
  apply Hfit. lia.
Qed.

Lemma multiple_record_total (a : search_arguments) (c : search_constants)
      (table : list Z) (inp : inputs) (width : nat) (r : record_type) :
  1 <= parts a ->
  (forall i, 0 <= i < parts a -> (width <= bin_count (ibf_part inp i))%nat) ->
  multiple_record a c table inp width r
  = option_map
      (fun threshold =>
         emit_line (rec_id r) threshold
           (accumulated a inp r (zrange 0 (Z.to_nat (parts a)))
                        (repeat 0 width)))
      (select_threshold a c table (Z.of_nat (length (minimisers a r)))).
Proof.
  intros Hp Hfit.
  rewrite multiple_record_fits by (intros i Hi; apply Hfit; lia).
  unfold output_record. cbn [fst snd]. cbv zeta.
  destruct (accumulate_fits a inp r (zrange 0 (Z.to_nat (parts a - 1)))
              (repeat 0 width)) as (_ & Hlen).
  { intros part Hin. apply in_zrange in Hin. rewrite repeat_length.
    apply Hfit. lia. }
  rewrite repeat_length in Hlen.
  rewrite cv_add_fits
    by (rewrite bulk_count_length, Hlen; apply Hfit; lia).
  replace (Z.to_nat (parts a)) with (S (Z.to_nat (parts a - 1))) by lia.
  rewrite zrange_snoc, accumulated_app.
  replace (0 + Z.of_nat (Z.to_nat (parts a - 1))) with (parts a - 1) by lia.
  reflexivity.
Qed.

Lemma all_defined_some {X Y : Type} (g : X -> option Y) (l : list X) :
  (forall x, In x l -> g x <> None) ->
  exists ys, all_defined (map g l) = Some ys.
Proof.
  induction l as [|x l IH]; intros H; cbn [map all_defined].
  - now exists [].
  - destruct (g x) as [y|] eqn:E; [|now destruct (H x (or_introl eq_refl))].
    destruct IH as (ys & ->); [intros z Hz; apply H; now right|].
    now exists (y :: ys).
Qed.

Lemma all_defined_in {X Y : Type} (g : X -> option Y) (l : list X)
      (ys : list Y) (x : X) :
  all_defined (map g l) = Some ys -> In x l ->
  exists y, g x = Some y /\ In y ys.
Proof.
  revert ys. induction l as [|z l IH]; intros ys H Hin; [now destruct Hin|].
  cbn [map all_defined] in H. destruct (g z) as [y|] eqn:E; [|discriminate].
  destruct (all_defined (map g l)) as [ys'|]; [|discriminate].
  injection H as <-. destruct Hin as [->|Hin].
  - exists y. split; [exact E|now left].
  - destruct (IH ys' eq_refl Hin) as (y' & Hy & Hin'). exists y'.
    split; [exact Hy|now right].
Qed.

Lemma multiple_chunk_spec (a : search_arguments) (c : search_constants)
      (table : list Z) (inp : inputs) (width : nat)
      (records : list record_type) (w : world) :
  Z.of_nat (length records) < size_t_modulus ->
  1 <= threads a < size_t_modulus ->
  2 <= parts a < 2 ^ 32 ->
  (forall i, 0 <= i < parts a - 1 ->
             (width <= bin_count (ibf_part inp i))%nat) ->
  match all_defined (map (multiple_record a c table inp width) records) with
  | Some ys =>
      exists data w',
        multiple_chunk a c table inp width records w = Ok tt w' /\
        Permutation data ys /\ out w' = Some data
  | None => exists w', multiple_chunk a c table inp width records w = Undef w'
  end.
Proof.
  intros Hn Ht Hp Hfit. unfold multiple_chunk, bind, log. cbv beta iota zeta.
  rewrite <- map_const.
  rewrite parallel_count_spec;
    [|assumption|assumption
     |intros r _; rewrite repeat_length; apply Hfit; lia].
  assert (Hw0 : forall r : record_type,
             length (cv_sum (repeat 0 width)
                       (bulk_count (ibf_part inp 0) (minimisers a r))) = width).
  { intros r. rewrite cv_sum_length; rewrite repeat_length; [reflexivity|].
    rewrite bulk_count_length. apply Hfit. lia. }
  rewrite count_parts_spec; [|assumption|assumption|].
  2:{ intros r part _ Hin. rewrite Hw0. unfold middle_parts in Hin.
      rewrite Z.mod_small in Hin by lia. apply in_zrange in Hin.
      apply Hfit. lia. }
  cbn [out cache trace].
  assert (Hlast : wrap (parts a - 1) = parts a - 1).
  { apply wrap_small. unfold size_t_modulus. lia. }
  rewrite Hlast. unfold open_out. cbn [out cache trace].
  match goal with
  | |- context [parallel_lines ?task _ _ ?w0] =>
      pose proof (parallel_lines_spec task
                    (multiple_record a c table inp width) records (threads a)
                    w0 Hn Ht) as H
  end.
  match type of H with
  | ?P -> _ => assert (Htask : P); [|specialize (H Htask); clear Htask]
  end.
  { intros s e H1 H2. rewrite output_task_spec by assumption.
    f_equal. apply map_ext. intros r.
    rewrite multiple_record_fits by exact Hfit. do 2 f_equal.
    unfold middle_parts. rewrite Z.mod_small by lia.
    rewrite <- accumulated_cons. f_equal.
    replace (Z.to_nat (parts a - 1)) with (S (Z.to_nat (parts a - 1 - 1))) by lia.
    now rewrite zrange_S. }
  destruct (all_defined (map (multiple_record a c table inp width) records))
    as [ys|].
  - destruct H as (yss & Hc & ->). eexists (interleave yss), _.
    split; [reflexivity|]. cbn [out]. split; [|reflexivity].
    rewrite <- Hc. apply interleave_perm.
  - rewrite H. eexists. reflexivity.
Qed.

Lemma multiple_chunks_spec (a : search_arguments) (c : search_constants)
      (table : list Z) (inp : inputs) (width : nat -> nat)
      (chunks : list (list record_type)) (j : nat) (w : world) :
  Forall (fun ch => Z.of_nat (length ch) < size_t_modulus) chunks ->
  1 <= threads a < size_t_modulus ->
  2 <= parts a < 2 ^ 32 ->
  (forall k i, (j <= k < j + length chunks)%nat -> 0 <= i < parts a - 1 ->
               (width k <= bin_count (ibf_part inp i))%nat) ->
  (forall k r, (j <= k < j + length chunks)%nat -> In r (concat chunks) ->
               multiple_record a c table inp (width k) r <> None) ->
  exists w',
    for_each_from j chunks
      (fun k => multiple_chunk a c table inp (width k)) w = Ok tt w' /\
    (chunks = [] -> out w' = out w) /\
    (chunks <> [] ->
     exists data ys,
       all_defined (map (multiple_record a c table inp
                           (width (j + length chunks - 1)%nat))
                        (last chunks []))
       = Some ys /\
       Permutation data ys /\ out w' = Some data).
Proof.
  intros Hch Ht Hp. revert j w.
  induction chunks as [|ch chunks IH]; intros j w Hfit Hdef;
    cbn [concat for_each_from].
  - exists w. repeat split. congruence.
  - inversion Hch as [|? ? Hlen Hrest]; subst. cbn [length] in Hfit, Hdef.
    pose proof (multiple_chunk_spec a c table inp (width j) ch w Hlen Ht Hp
                  (fun i => Hfit j i ltac:(lia))) as H1.
    destruct (all_defined_some (multiple_record a c table inp (width j)) ch)
      as (y1 & E1).
    { intros r Hr. apply Hdef; [lia|]. apply in_or_app. now left. }
    rewrite E1 in H1. destruct H1 as (d1 & w1 & Hrun & Hp1 & Ho1).
    unfold bind. rewrite Hrun.
    destruct (IH Hrest (S j) w1) as (w2 & -> & Hnil & Hcons).
    { intros k i Hk. apply Hfit. lia. }
    { intros k r Hk Hr. apply Hdef; [lia|]. apply in_or_app. now right. }
    exists w2. split; [reflexivity|]. split; [discriminate|].
    intros _. destruct chunks as [|ch' chunks].
    + exists d1, y1. cbn [last length].
      replace (j + 1 - 1)%nat with j by lia.
      rewrite Hnil by reflexivity. repeat split; assumption.
    + destruct (Hcons ltac:(discriminate)) as (d2 & ys2 & H2 & H3 & H4).
      exists d2, ys2.
      replace (j + length (ch :: ch' :: chunks) - 1)%nat
        with (S j + length (ch' :: chunks) - 1)%nat by (cbn [length]; lia).
      repeat split; assumption.
Qed.

Lemma chunk_sizes (n : Z) (l : list record_type) :
  1 <= n < size_t_modulus ->
  Forall (fun ch => Z.of_nat (length ch) < size_t_modulus) (chunk n l).
Proof.
  intros Hn. destruct (chunk_concat n l ltac:(lia)) as (_ & H).
  eapply Forall_impl; [|exact H]. intros ch Hch. cbv beta in Hch. lia.
Qed.

Lemma run_program_single_chunked_spec (n : Z) (a : search_arguments)
      (c : search_constants) (inp : inputs) (w : world) (ys : list string) :
  1 <= n < size_t_modulus ->
  1 <= threads a < size_t_modulus ->
  derive_constants a = Some c ->
  all_defined (map (worker_record a c (threshold_table a (cache w))
                                  (ibf_single inp))
                   (query_records inp)) = Some ys ->
  exists data w',
    run_program_single_chunked n a inp w = Ok tt w' /\
    Permutation data ys /\ out w' = Some data.
Proof.
  intros Hn Ht Hc Hys. unfold run_program_single_chunked.
  unfold bind at 1 2 3 4 5, log, open_out, defined. cbv beta iota.
  rewrite Hc. cbn [out cache trace].
  match goal with
  | |- context [bind (compute_simple_model a) _ ?w0] =>
      destruct (compute_simple_model_ok a w0) as (w1 & Hm & Ho1);
      unfold bind at 1; rewrite Hm
  end.
  cbn [cache out] in Ho1 |- *.
  pose proof (single_chunks_spec a c (threshold_table a (cache w))
                (ibf_single inp) (chunk n (query_records inp)) w1 []
                (chunk_sizes n _ Hn) Ht Ho1) as H.
  destruct (chunk_concat n (query_records inp) ltac:(lia)) as (Hcc & _).
  rewrite Hcc, Hys in H. destruct H as (data & w2 & Hrun & Hperm & Hout).
  unfold bind. rewrite Hrun. exists data.
  destruct (write_time a).
  - eexists. unfold log. repeat split; [assumption|exact Hout].
  - exists w2. repeat split; assumption.
Qed.

Lemma run_program_multiple_chunked_spec (n : Z) (a : search_arguments)
      (c : search_constants) (inp : inputs) (w : world) :
  1 <= n < size_t_modulus ->
  1 <= threads a < size_t_modulus ->
  2 <= parts a < 2 ^ 32 ->
  derive_constants a = Some c ->
  (forall k i, (k < length (chunk n (query_records inp)))%nat ->
               0 <= i < parts a - 1 ->
               (allocation_width a inp k <= bin_count (ibf_part inp i))%nat) ->
  (forall k r, (k < length (chunk n (query_records inp)))%nat ->
               In r (query_records inp) ->
               multiple_record a c (threshold_table a (cache w)) inp
                               (allocation_width a inp k) r <> None) ->
  exists w',
    run_program_multiple_chunked n a inp w = Ok tt w' /\
    (query_records inp = [] -> out w' = out w) /\
    (query_records inp <> [] ->
     exists data ys_last,
       all_defined
         (map (multiple_record a c (threshold_table a (cache w)) inp
                 (allocation_width a inp
                    (length (chunk n (query_records inp)) - 1)%nat))
              (last (chunk n (query_records inp)) []))
       = Some ys_last /\
       Permutation data ys_last /\ out w' = Some data).
Proof.
  intros Hn Ht Hp Hc Hfit Hdef. unfold run_program_multiple_chunked.
  unfold bind at 1 2, log, defined. cbv beta iota.
  rewrite Hc.
  match goal with
  | |- context [bind (compute_simple_model a) _ ?w0] =>
      destruct (compute_simple_model_ok a w0) as (w1 & Hm & Ho1);
      unfold bind at 1; rewrite Hm
  end.
  cbn [cache out] in Ho1 |- *.
  destruct (chunk_concat n (query_records inp) ltac:(lia)) as (Hcc & _).
  destruct (multiple_chunks_spec a c (threshold_table a (cache w)) inp
              (allocation_width a inp) (chunk n (query_records inp)) 0 w1
              (chunk_sizes n _ Hn) Ht Hp)
    as (w2 & Hrun & Hnil & Hcons).
  { intros k i Hk. apply Hfit. lia. }
  { intros k r Hk Hr. apply Hdef; [lia|]. now rewrite <- Hcc. }
  unfold bind. rewrite Hrun. cbv beta iota.
  assert (Hout : exists w', (if write_time a then log ev_write_time else ret tt) w2
                            = Ok tt w' /\ out w' = out w2).
  { destruct (write_time a); eexists; split; reflexivity. }
  destruct Hout as (w3 & Hw3 & Ho3). exists w3. split; [exact Hw3|].
  rewrite Ho3. split.
  - intros E. rewrite E in Hnil. rewrite Hnil by reflexivity. exact Ho1.
  - intros E. apply Hcons. intros E'. rewrite E' in Hcc.
    cbn [concat] in Hcc. congruence.
Qed.

(** ** Threshold selection *)

Lemma size_t_53 : 2 ^ 53 < size_t_modulus.
Proof. unfold size_t_modulus. apply pow2_lt. lia. Qed.

Lemma derive_constants_spec (a : search_arguments) :
  1 <= kmer_size a <= window_size a ->
  window_size a <= pattern_size a < 2 ^ 53 ->
  0 <= errors a -> (errors a + 1) * kmer_size a < size_t_modulus ->
  derive_constants a
  = Some {| c_kmers_per_window := window_size a - kmer_size a + 1;
            c_min_number_of_minimisers :=
              Spec.min_minimisers (pattern_size a) (window_size a) (kmer_size a);
            c_kmer_lemma :=
              Spec.kmer_lemma (pattern_size a) (errors a) (kmer_size a);
            c_max_number_of_minimisers :=
              Spec.max_minimisers (pattern_size a) (window_size a) |}.
Proof.
  intros Hk Hp He Hek. pose proof size_t_53 as H53.
  assert (Hkpw : kmers_per_window a = window_size a - kmer_size a + 1).
  { unfold kmers_per_window. rewrite !wrap_small; rewrite ?wrap_small; lia. }
  assert (Hkpp : kmers_per_pattern a = pattern_size a - kmer_size a + 1).
  { unfold kmers_per_pattern. rewrite !wrap_small; rewrite ?wrap_small; lia. }
  assert (Hmax : max_number_of_minimisers a
                 = Spec.max_minimisers (pattern_size a) (window_size a)).
  { unfold max_number_of_minimisers, Spec.max_minimisers.
    rewrite !wrap_small; rewrite ?wrap_small; lia. }
  assert (Hlem : kmer_lemma a
                 = Spec.kmer_lemma (pattern_size a) (errors a) (kmer_size a)).
  { unfold kmer_lemma, Spec.kmer_lemma.
    assert (E1 : wrap (errors a + 1) = errors a + 1) by (apply wrap_small; nia).
    rewrite E1.
    assert (E2 : wrap ((errors a + 1) * kmer_size a) = (errors a + 1) * kmer_size a)
      by (apply wrap_small; nia).
    assert (E3 : wrap (pattern_size a + 1) = pattern_size a + 1)
      by (apply wrap_small; lia).
    rewrite E2, E3.
    destruct (Z.ltb_spec ((errors a + 1) * kmer_size a) (pattern_size a + 1)).
    - rewrite wrap_small by lia. lia.
    - lia. }
  assert (Hmin : min_number_of_minimisers a
                 = Some (Spec.min_minimisers (pattern_size a) (window_size a)
                                             (kmer_size a))).
  { unfold min_number_of_minimisers, Spec.min_minimisers, Spec.ceil_div.
    rewrite Hkpw, Hkpp.
    destruct (Z.eqb_spec (window_size a - kmer_size a + 1) 1) as [E|E].
    - rewrite size_t_of_double_of_size_t by lia. rewrite E.
      now rewrite Z.div_1_r, Z.add_simpl_r.
    - apply double_div_ceil; lia. }
  unfold derive_constants. now rewrite Hmin, Hkpw, Hmax, Hlem.
Qed.

Lemma ceil_div_le_windows (n w : Z) :
  2 <= w <= n -> Spec.ceil_div n w <= n - w + 1.
Proof.
  intros H. unfold Spec.ceil_div.
  apply Z.lt_succ_r. apply Z.div_lt_upper_bound; nia.
Qed.

Lemma select_threshold_spec (a : search_arguments) (table : list Z) (m : Z) :
  1 <= kmer_size a <= window_size a ->
  window_size a <= pattern_size a < 2 ^ 53 ->
  0 <= errors a -> (errors a + 1) * kmer_size a < size_t_modulus ->
  0 <= m < size_t_modulus ->
  Forall (fun t => 0 <= t < size_t_modulus - 2) table ->
  exists c,
    derive_constants a = Some c /\
    select_threshold a c table m = Spec.tau_req_double a table m.
Proof.
  intros Hk Hp He Hek Hm Htable.
  eexists. split; [now apply derive_constants_spec|].
  unfold select_threshold, Spec.tau_req_double.
  cbn [c_kmers_per_window c_min_number_of_minimisers c_kmer_lemma
       c_max_number_of_minimisers].
  destruct (treshold_was_set a); [reflexivity|].
  destruct (Z.eqb_spec (window_size a - kmer_size a + 1) 1) as [E|E];
    [reflexivity|].
  pose proof size_t_53 as H53.
  set (minm := Spec.min_minimisers (pattern_size a) (window_size a) (kmer_size a)).
  set (maxm := Spec.max_minimisers (pattern_size a) (window_size a)).
  assert (Hminmax : 1 <= minm <= maxm).
  { unfold minm, maxm, Spec.min_minimisers, Spec.max_minimisers. split.
    - unfold Spec.ceil_div. apply Z.div_le_lower_bound; lia.
    - pose proof (ceil_div_le_windows (pattern_size a - kmer_size a + 1)
                    (window_size a - kmer_size a + 1) ltac:(lia)). lia. }
  assert (Hmax : maxm < 2 ^ 53) by (unfold maxm, Spec.max_minimisers; lia).
  unfold Spec.table_index. fold minm. fold maxm.
  rewrite (wrap_small (maxm - minm)) by lia.
  assert (Hidx : (if m <? minm then 0 else wrap (m - minm))
                 = (if m <? minm then 0 else m - minm)).
  { destruct (Z.ltb_spec m minm); [reflexivity|]. apply wrap_small. lia. }
  rewrite Hidx.
  destruct (nth_error table _) as [t|] eqn:Et; [|reflexivity].
  cbn [option_map]. f_equal. apply wrap_small.
  apply nth_error_In in Et. rewrite Forall_forall in Htable.
  specialize (Htable t Et). lia.
Qed.

Lemma worker_record_spec (a : search_arguments) (c : search_constants)
      (table : list Z) (ibf : interleaved_bloom_filter) (r : record_type) :
  worker_record a c table ibf r
  = option_map
      (fun threshold =>
         Spec.line (rec_id r)
                   (Spec.hit_bins threshold (bulk_count ibf (minimisers a r))))
      (select_threshold a c table (Z.of_nat (length (minimisers a r)))).
Proof.
  unfold worker_record.
  destruct (select_threshold a c table _); [|reflexivity].
  cbn [option_map]. now rewrite emit_line_spec.
Qed.

Lemma output_record_spec (a : search_arguments) (c : search_constants)
      (table : list Z) (ibf : interleaved_bloom_filter) (r : record_type)
      (acc : list Z) :
  output_record a c table ibf (r, acc)
  = match cv_add acc (bulk_count ibf (minimisers a r)) with
    | Some acc' =>
        option_map
          (fun threshold =>
             Spec.line (rec_id r) (Spec.hit_bins threshold acc'))
          (select_threshold a c table (Z.of_nat (length (minimisers a r))))
    | None => None
    end.
Proof.
  unfold output_record. cbn [fst snd]. cbv zeta.
  destruct (cv_add acc _) as [acc'|]; [|reflexivity].
  destruct (select_threshold a c table _); [|reflexivity].
  cbn [option_map]. now rewrite emit_line_spec.
Qed.

(** C1 (amended): for valid parameters ([1 <= k <= w <= p < 2^53], a
    product [(e + 1) * k] that fits a [size_t], table entries below
    [2^64 - 2], a minimiser count that is a [size_t]) the constants of a
    run are those of the specification, [min_minimisers] being the
    integer ceiling of
    [(p - k + 1) / (w - k + 1)], and the threshold selected for an
    observed minimiser count [m] is: with a user threshold, the double
    product of [m] and the threshold truncated toward zero (the product is
    rounded to the nearest double before the truncation); else
    [kmer_lemma] when [w - k + 1 = 1]; else the table entry at
    [min (m < min_minimisers ? 0 : m - min_minimisers)
         (max_minimisers - min_minimisers)] plus 2.  A bin is listed on
    the line of a record exactly when its count is at least the selected
    threshold. *)
Theorem threshold_selection (a : search_arguments) (table : list Z)
        (ibf : interleaved_bloom_filter) (r : record_type) :
  1 <= kmer_size a <= window_size a ->
  window_size a <= pattern_size a < 2 ^ 53 ->
  0 <= errors a -> (errors a + 1) * kmer_size a < size_t_modulus ->
  Forall (fun t => 0 <= t < size_t_modulus - 2) table ->
  Z.of_nat (length (minimisers a r)) < size_t_modulus ->
  exists c,
    derive_constants a = Some c /\
    c_kmers_per_window c = window_size a - kmer_size a + 1 /\
    c_min_number_of_minimisers c
    = Spec.ceil_div (pattern_size a - kmer_size a + 1)
                    (window_size a - kmer_size a + 1) /\
    c_max_number_of_minimisers c = pattern_size a - window_size a + 1 /\
    c_kmer_lemma c
    = Z.max 0 (pattern_size a + 1 - (errors a + 1) * kmer_size a) /\
    (forall m, 0 <= m < size_t_modulus ->
       select_threshold a c table m = Spec.tau_req_double a table m) /\
    worker_record a c table ibf r
    = option_map
        (fun tau_req =>
           Spec.line (rec_id r)
                     (Spec.hit_bins tau_req (bulk_count ibf (minimisers a r))))
        (Spec.tau_req_double a table (Z.of_nat (length (minimisers a r)))) /\
    (forall tau_req counts b,
       In b (Spec.hit_bins tau_req counts)
       <-> 0 <= b < Z.of_nat (length counts)
           /\ tau_req <= nth (Z.to_nat b) counts 0).
Proof.
  intros Hk Hp He Hek Htable Hlen.
  pose proof (derive_constants_spec a Hk Hp He Hek) as Hc.
  eexists. split; [exact Hc|]. cbn [c_kmers_per_window
    c_min_number_of_minimisers c_kmer_lemma c_max_number_of_minimisers].
  do 4 (split; [reflexivity|]).
  split; [|split].
  - intros m Hm.
    destruct (select_threshold_spec a table m Hk Hp He Hek Hm Htable)
      as (c & Hc' & Hsel).
    rewrite Hc in Hc'. injection Hc' as <-. exact Hsel.
  - rewrite worker_record_spec.
    destruct (select_threshold_spec a table
                (Z.of_nat (length (minimisers a r))) Hk Hp He Hek
                ltac:(lia) Htable) as (c & Hc' & Hsel).
    rewrite Hc in Hc'. injection Hc' as <-. now rewrite Hsel.
  - intros tau_req counts b. apply in_hit_bins.
Qed.

(** C2: the lines of the two loops.  [worker] (single-part mode) and
    [output_task] (multi-part mode) emit, for every record of their
    range in order, the id as read, a tab, the ids of the bins whose
    count is at least the threshold of the record, in ascending order
    and each followed by a comma, and a line feed; in [worker] the
    counts are the result of [bulk_count], in [output_task] the
    accumulator of the record after the counts of the last part were
    added.  [std::to_string] writes a bin id in decimal without padding
    zeros, and a record without hits gets its id, a tab and a line
    feed. *)
Theorem emitted_line_format (a : search_arguments) (c : search_constants)
        (table : list Z) (ibf : interleaved_bloom_filter)
        (records : list record_type) (accumulators : list (list Z))
        (s e : Z) (id : string) (threshold : Z) (counts : list Z) :
  0 <= s <= e -> e <= Z.of_nat (length records) ->
  length accumulators = length records ->
  worker a c table ibf records s e
  = all_defined
      (map (fun r =>
              option_map
                (fun threshold =>
                   Spec.line (rec_id r)
                     (Spec.hit_bins threshold
                                    (bulk_count ibf (minimisers a r))))
                (select_threshold a c table
                                  (Z.of_nat (length (minimisers a r)))))
           (slice s e records)) /\
  output_task a c table ibf records accumulators s e
  = all_defined
      (map (fun ra =>
              match cv_add (snd ra)
                           (bulk_count ibf (minimisers a (fst ra))) with
              | Some acc =>
                  option_map
                    (fun threshold =>
                       Spec.line (rec_id (fst ra))
                                 (Spec.hit_bins threshold acc))
                    (select_threshold a c table
                       (Z.of_nat (length (minimisers a (fst ra)))))
              | None => None
              end)
           (combine (slice s e records) (slice s e accumulators))) /\
  emit_line id threshold counts = Spec.line id (Spec.hit_bins threshold counts) /\
  StronglySorted Z.lt (Spec.hit_bins threshold counts) /\
  (forall b, In b (Spec.hit_bins threshold counts)
             <-> 0 <= b < Z.of_nat (length counts)
                 /\ threshold <= nth (Z.to_nat b) counts 0) /\
  (forall b, NilZero.uint_of_string (to_string b)
             = Some (N.to_uint (Z.to_N b))) /\
  (forall b s, 0 <= b -> to_string b = String "0"%char s ->
               b = 0 /\ s = EmptyString) /\
  Spec.line id [] = (id ++ tab ++ newline)%string.
Proof.
  intros Hs He Hlen.
  split.
  { unfold worker. f_equal. apply map_ext. intros r.
    apply worker_record_spec. }
  split.
  { rewrite output_task_slices by assumption. f_equal. apply map_ext.
    intros (r & acc). apply output_record_spec. }
  split; [apply emit_line_spec|].
  split; [apply hit_bins_sorted_from|].
  split; [intros b; apply in_hit_bins|].
  split; [apply to_string_decimal|].
  split; [apply to_string_not_padded|].
  reflexivity.
Qed.

(** ** Records without minimisers *)










Lemma hit_bins_antitone (tau1 tau2 : Z) (counts : list Z) :
  tau1 <= tau2 -> incl (Spec.hit_bins tau2 counts) (Spec.hit_bins tau1 counts).
Proof.
  intros H b Hb. apply in_hit_bins in Hb. apply in_hit_bins. lia.
Qed.

(** C7: with the user threshold set, for a minimiser count [m] and
    counts that are the same, and two thresholds [t1 <= t2] in (0, 1],
    the selected thresholds are ordered as [t1] and [t2] are, and every
    bin listed under [t2] is listed under [t1]. *)
Theorem user_threshold_monotone (a1 a2 : search_arguments)
        (c : search_constants) (table : list Z) (m : Z) (id : string)
        (counts : list Z) :
  treshold_was_set a1 = true -> treshold_was_set a2 = true ->
  unit_interval (threshold a1) -> unit_interval (threshold a2) ->
  double_le (threshold a1) (threshold a2) = true ->
  0 <= m < 2 ^ 53 ->
  exists tau1 tau2,
    select_threshold a1 c table m = Some tau1 /\
    select_threshold a2 c table m = Some tau2 /\
    tau1 <= tau2 /\
    incl (Spec.hit_bins tau2 counts) (Spec.hit_bins tau1 counts) /\
    emit_line id tau1 counts = Spec.line id (Spec.hit_bins tau1 counts) /\
    emit_line id tau2 counts = Spec.line id (Spec.hit_bins tau2 counts).
Proof.
  intros Hs1 Hs2 (V1 & P1 & _) (V2 & _ & O2) Hle Hm.
  destruct (mul_truncate_mono m (threshold a1) (threshold a2) Hm V1 V2 P1 Hle O2)
    as (tau1 & tau2 & H1 & H2 & H12 & _).
  exists tau1, tau2. unfold select_threshold. rewrite Hs1, Hs2.
  repeat split; try assumption.
  - now apply hit_bins_antitone.
  - apply emit_line_spec.
  - apply emit_line_spec.
Qed.

(** ** The trace of a run *)

Lemma extends_refl (w : world) : extends w w.
Proof. exists []. now rewrite app_nil_r. Qed.

Lemma extends_trans (w1 w2 w3 : world) :
  extends w1 w2 -> extends w2 w3 -> extends w1 w3.
Proof.
  intros (r1 & H1) (r2 & H2). exists (r1 ++ r2).
  now rewrite H2, H1, app_assoc.
Qed.

Lemma grows_ret {X : Type} (x : X) : grows (ret x).
Proof. intros w. apply extends_refl. Qed.

Lemma grows_defined {X : Type} (o : option X) : grows (defined o).
Proof. intros w. unfold defined. destruct o; apply extends_refl. Qed.

Lemma grows_log (e : io_event) : grows (log e).
Proof. intros w. now exists [e]. Qed.

Lemma grows_open_out : grows open_out.
Proof. intros w. now exists [ev_open_out]. Qed.

Lemma grows_write_all (data : list string) : grows (write_all data).
Proof. intros w. now exists (map ev_write data). Qed.

Lemma grows_bind {X Y : Type} (m : M X) (k : X -> M Y) :
  grows m -> (forall x, grows (k x)) -> grows (bind m k).
Proof.
  intros Hm Hk w. unfold bind. specialize (Hm w).
  destruct (m w) as [x w'|w']; cbn [world_of] in *.
  - eapply extends_trans; [exact Hm|apply Hk].
  - exact Hm.
Qed.

Lemma grows_for_each {X : Type} (l : list X) (body : X -> M unit) :
  (forall x, grows (body x)) -> grows (for_each l body).
Proof.
  intros Hb. induction l as [|x l IH]; cbn [for_each].
  - apply grows_ret.
  - apply grows_bind; [apply Hb|]. intros _. exact IH.
Qed.

Lemma grows_for_each_from {X : Type} (j : nat) (l : list X)
      (body : nat -> X -> M unit) :
  (forall k x, grows (body k x)) -> grows (for_each_from j l body).
Proof.
  intros Hb. revert j. induction l as [|x l IH]; intros j;
    cbn [for_each_from].
  - apply grows_ret.
  - apply grows_bind; [apply Hb|]. intros _. apply IH.
Qed.

Lemma grows_compute_simple_model (a : search_arguments) :
  grows (compute_simple_model a).
Proof.
  unfold compute_simple_model. destruct (double_is_zero (threshold a)).
  - apply grows_bind; [intros w; now exists [ev_cache_read]|].
    intros [table|]; [apply grows_ret|].
    apply grows_bind; [apply grows_log|]. intros _.
    apply grows_bind; [intros w; now exists [ev_cache_write]|].
    intros _. apply grows_ret.
  - apply grows_ret.
Qed.

Lemma grows_parallel_lines (task : Z -> Z -> option (list string))
      (n t : Z) : grows (parallel_lines task n t).
Proof using Type.
  unfold parallel_lines.
  apply grows_bind; [apply grows_defined|]. intros run.
  apply grows_bind; [apply grows_defined|]. intros lines.
  apply grows_write_all.
Qed.

Lemma grows_parallel_count (a : search_arguments)
      (ibf : interleaved_bloom_filter) (records : list record_type)
      (counts : list (list Z)) : grows (parallel_count a ibf records counts).
Proof.
  unfold parallel_count.
  apply grows_bind; [apply grows_defined|]. intros run.
  apply grows_defined.
Qed.

Lemma grows_count_parts (a : search_arguments) (inp : inputs)
      (records : list record_type) (part_ids : list Z)
      (counts : list (list Z)) :
  grows (count_parts a inp records part_ids counts).
Proof.
  revert counts. induction part_ids as [|part rest IH]; intros counts;
    cbn [count_parts].
  - apply grows_ret.
  - apply grows_bind; [apply grows_log|]. intros _.
    apply grows_bind; [apply grows_parallel_count|]. intros counts'. apply IH.
Qed.

Lemma grows_single_chunk (a : search_arguments) (c : search_constants)
      (table : list Z) (ibf : interleaved_bloom_filter)
      (records : list record_type) :
  grows (single_chunk a c table ibf records).
Proof using Type.
  unfold single_chunk. apply grows_bind; [apply grows_log|]. intros _.
  apply grows_parallel_lines.
Qed.

Lemma grows_multiple_chunk (a : search_arguments) (c : search_constants)
      (table : list Z) (inp : inputs) (width : nat)
      (records : list record_type) :
  grows (multiple_chunk a c table inp width records).
Proof using Type.
  unfold multiple_chunk.
  apply grows_bind; [apply grows_log|]. intros _.
  apply grows_bind; [apply grows_log|]. intros _.
  apply grows_bind; [apply grows_parallel_count|]. intros counts.
  apply grows_bind; [apply grows_count_parts|]. intros counts'.
  apply grows_bind; [apply grows_log|]. intros _.
  apply grows_bind; [apply grows_open_out|]. intros _.
  apply grows_parallel_lines.
Qed.

Lemma grows_write_time (a : search_arguments) :
  grows (if write_time a then log ev_write_time else ret tt).
Proof. destruct (write_time a); [apply grows_log|apply grows_ret]. Qed.

Lemma run_program_single_trace (n : Z) (a : search_arguments) (inp : inputs)
      (w : world) :
  exists rest,
    trace (world_of (run_program_single_chunked n a inp w))
    = trace w ++ [ev_open_ibf; ev_load_ibf None; ev_open_query; ev_open_out]
            ++ rest.
Proof using Type.
  unfold run_program_single_chunked.
  unfold bind at 1 2 3 4, log, open_out. cbv beta iota.
  match goal with
  | |- context [bind ?m ?k ?w0] =>
      assert (Hg : grows (bind m k))
  end.
  { apply grows_bind; [apply grows_defined|]. intros c.
    apply grows_bind; [apply grows_compute_simple_model|]. intros table.
    apply grows_bind; [|intros _; apply grows_write_time].
    apply grows_for_each. intros records. apply grows_single_chunk. }
  match goal with
  | |- context [bind ?m ?k ?w0] => destruct (Hg w0) as (rest & Hrest)
  end.
  exists rest. rewrite Hrest. cbn [trace].
  now rewrite <- !app_assoc.
Qed.

Lemma run_program_multiple_trace (n : Z) (a : search_arguments) (inp : inputs)
      (w : world) :
  exists rest,
    trace (world_of (run_program_multiple_chunked n a inp w))
    = trace w ++ [ev_open_query] ++ rest.
Proof using Type.
  unfold run_program_multiple_chunked.
  unfold bind at 1, log. cbv beta iota.
  match goal with
  | |- context [bind ?m ?k ?w0] =>
      assert (Hg : grows (bind m k))
  end.
  { apply grows_bind; [apply grows_defined|]. intros c.
    apply grows_bind; [apply grows_compute_simple_model|]. intros table.
    apply grows_bind; [|intros _; apply grows_write_time].
    apply grows_for_each_from. intros j records.
    apply grows_multiple_chunk. }
  match goal with
  | |- context [bind ?m ?k ?w0] => destruct (Hg w0) as (rest & Hrest)
  end.
  exists rest. rewrite Hrest. cbn [trace].
  now rewrite <- !app_assoc.
Qed.

(** C9 (amended): [raptor_search] validates no parameter: for every
    parameterisation, valid or not, its first steps are file operations.
    With [parts = 1] it opens the index file, loads it, opens the query
    file and creates or truncates the results file; otherwise it opens
    the query file. *)
Theorem raptor_search_begins_with_io (a : search_arguments) (inp : inputs)
        (w : world) :
  exists rest,
    trace (world_of (raptor_search a inp w))
    = trace w
      ++ (if parts a =? 1
          then [ev_open_ibf; ev_load_ibf None; ev_open_query; ev_open_out]
          else [ev_open_query])
      ++ rest.
Proof using Type.
  unfold raptor_search, run_program_single, run_program_multiple.
  destruct (parts a =? 1), (compressed a);
    (apply run_program_single_trace || apply run_program_multiple_trace).
Qed.

(** The steps of [compute_simple_model]: the cache is read, and on a miss
    the table computed and written back, exactly when
    [arguments.threshold] is zero. *)
Lemma compute_simple_model_steps (a : search_arguments) (w : world) :
  compute_simple_model a w
  = Ok (threshold_table a (cache w))
       {| out := out w;
          cache := if double_is_zero (threshold a)
                   then Some (threshold_table a (cache w)) else cache w;
          trace := trace w
                   ++ if double_is_zero (threshold a) then
                        match cache w with
                        | Some _ => [ev_cache_read]
                        | None => [ev_cache_read; ev_precompute; ev_cache_write]
                        end
                      else [] |}.
Proof.
  unfold compute_simple_model, threshold_table.
  destruct (double_is_zero (threshold a)).
  - unfold bind, do_cerealisation_in, do_cerealisation_out, log, ret.
    destruct (cache w) as [cached|] eqn:E; cbn [cache out trace].
    + now rewrite <- E.
    + now rewrite <- !app_assoc.
  - unfold ret. rewrite app_nil_r. now destruct w.
Qed.

(** ** An index split by hash value *)

Lemma list_sum_map_add {X : Type} (f g : X -> nat) (l : list X) :
  list_sum (map (fun x => (f x + g x)%nat) l)
  = (list_sum (map f l) + list_sum (map g l))%nat.
Proof.
  induction l as [|x l IH]; [reflexivity|]. rewrite !map_cons.
  change (list_sum (?y :: ?t)) with (y + list_sum t)%nat. lia.
Qed.

Lemma list_sum_indicator {X : Type} (p : X -> bool) (l : list X) :
  list_sum (map (fun x => if p x then 1%nat else 0%nat) l)
  = length (filter p l).
Proof.
  induction l as [|x l IH]; [reflexivity|]. rewrite map_cons.
  change (list_sum (?y :: ?t)) with (y + list_sum t)%nat.
  cbn [filter]. destruct (p x); cbn [length]; lia.
Qed.

Lemma count_by_rows_or_columns {X Y : Type} (p : X -> Y -> bool)
      (xs : list X) (ys : list Y) :
  list_sum (map (fun x => length (filter (p x) ys)) xs)
  = list_sum (map (fun y => length (filter (fun x => p x y) xs)) ys).
Proof.
  induction ys as [|y ys IH].
  - cbn [filter length map]. induction xs as [|x xs IHx]; [reflexivity|].
    rewrite map_cons. change (list_sum (?y :: ?t)) with (y + list_sum t)%nat.
    cbn in IHx |- *. lia.
  - rewrite map_cons. change (list_sum (?x :: ?l)) with (x + list_sum l)%nat.
    rewrite <- IH, <- list_sum_indicator.
    rewrite <- list_sum_map_add. f_equal. apply map_ext. intros x.
    cbn [filter]. destruct (p x y); cbn [length]; lia.
Qed.

Lemma wrap8_add (x y : Z) : wrap8 (wrap8 x + wrap8 y) = wrap8 (x + y).
Proof. unfold wrap8. now rewrite <- Z.add_mod by lia. Qed.

Lemma combine_map_same {X Y1 Y2 : Type} (f : X -> Y1) (g : X -> Y2)
      (l : list X) :
  combine (map f l) (map g l) = map (fun x => (f x, g x)) l.
Proof. induction l as [|x l IH]; cbn; [reflexivity|now rewrite IH]. Qed.

(** The accumulator after the parts [ids], all of [width] bins. *)
Lemma accumulated_sums (a : search_arguments) (inp : inputs) (r : record_type)
      (ids : list Z) (width : nat) (f : nat -> Z) :
  (forall i, In i ids -> bin_count (ibf_part inp i) = width) ->
  accumulated a inp r ids (map (fun b => wrap8 (f b)) (seq 0 width))
  = map (fun b =>
           wrap8 (f b + Z.of_nat (list_sum
                      (map (fun i => length (filter
                              (fun h => contains (ibf_part inp i) h b)
                              (minimisers a r))) ids))))
        (seq 0 width).
Proof.
  revert f. induction ids as [|i ids IH]; intros f Hw.
  - cbn. apply map_ext. intros b. f_equal. lia.
  - rewrite accumulated_cons. unfold cv_sum at 1, bulk_count.
    rewrite (Hw i) by now left. rewrite combine_map_same, map_map.
    cbn [fst snd].
    rewrite (map_ext _ (fun b => wrap8 (f b + member_count (ibf_part inp i)
                                                  (minimisers a r) b)))
      by (intros b; apply wrap8_add).
    rewrite IH by (intros j Hj; apply Hw; now right).
    apply map_ext. intros b. f_equal. unfold member_count.
    rewrite map_cons.
    change (list_sum (?x :: ?l)) with (x + list_sum l)%nat. lia.
Qed.

(** On an index split by hash value, the accumulator of a record over
    all parts is its counting vector on the whole index. *)
Lemma accumulated_hash_split (a : search_arguments) (inp : inputs)
      (r : record_type) (n : Z) :
  0 <= n ->
  splits_by_hash (ibf_single inp) (ibf_part inp) n ->
  accumulated a inp r (zrange 0 (Z.to_nat n))
              (repeat 0 (bin_count (ibf_single inp)))
  = bulk_count (ibf_single inp) (minimisers a r).
Proof.
  intros Hn (Hw & Hs).
  replace (repeat 0 (bin_count (ibf_single inp)))
    with (map (fun b : nat => wrap8 ((fun _ => 0) b))
              (seq 0 (bin_count (ibf_single inp)))).
  2:{ change (fun b : nat => wrap8 ((fun _ => 0) b)) with (fun _ : nat => 0).
      now rewrite map_const, length_seq. }
  rewrite accumulated_sums.
  2:{ intros i Hi. apply Hw. apply in_zrange in Hi. lia. }
  unfold bulk_count. apply map_ext_in. intros b Hb. apply in_seq in Hb.
  f_equal. unfold member_count. rewrite Z.add_0_l. f_equal.
  rewrite (count_by_rows_or_columns
             (fun i h => contains (ibf_part inp i) h b)).
  rewrite <- list_sum_indicator. f_equal. apply map_ext. intros h.
  apply Hs. lia.
Qed.

Lemma multiple_record_hash_split (a : search_arguments) (c : search_constants)
      (table : list Z) (inp : inputs) (r : record_type) :
  2 <= parts a ->
  splits_by_hash (ibf_single inp) (ibf_part inp) (parts a) ->
  multiple_record a c table inp (bin_count (ibf_single inp)) r
  = worker_record a c table (ibf_single inp) r.
Proof.
  intros Hp Hs. pose proof Hs as (Hw & _).
  rewrite multiple_record_total
    by (lia || (intros i Hi; rewrite (Hw i) by lia; apply Nat.le_refl)).
  rewrite accumulated_hash_split by (lia || exact Hs).
  unfold worker_record. cbv zeta.
  now destruct (select_threshold a c table _).
Qed.

(** ** The results file of a run *)

Lemma with_parts_single (n k : Z) (a : search_arguments) (inp : inputs) :
  run_program_single_chunked n (with_parts a k) inp
  = run_program_single_chunked n a inp.
Proof. reflexivity. Qed.

Lemma chunk_size_bounds : 17 <= chunk_size < size_t_modulus.
Proof. unfold chunk_size, size_t_modulus. lia. Qed.

(** The last chunk holds the records left over by the full chunks. *)
Lemma last_chunk_length {X : Type} (n : Z) (q : nat) (l : list X) (rem : Z) :
  1 <= n -> 0 < rem <= n ->
  Z.of_nat (length l) = Z.of_nat q * n + rem ->
  Z.of_nat (length (last (chunk n l) [])) = rem.
Proof.
  intros Hn Hrem. revert l. induction q as [|q IH]; intros l Hl.
  - rewrite chunk_small; [cbn [last]; lia|lia| |lia].
    intros ->. cbn [length] in Hl. lia.
  - rewrite chunk_cons; [|lia|intros ->; cbn [length] in Hl; nia].
    assert (Hd : Z.of_nat (length (drop n l)) = Z.of_nat q * n + rem).
    { rewrite drop_length by nia. nia. }
    specialize (IH _ Hd).
    destruct (chunk n (drop n l)) as [|ch chs] eqn:E.
    + cbn [last length] in IH. lia.
    + exact IH.
Qed.

Lemma chunk_count {X : Type} (n : Z) (q : nat) (l : list X) (rem : Z) :
  1 <= n -> 0 < rem <= n ->
  Z.of_nat (length l) = Z.of_nat q * n + rem ->
  length (chunk n l) = S q.
Proof.
  intros Hn Hrem. revert l. induction q as [|q IH]; intros l Hl.
  - rewrite chunk_small; [reflexivity|lia| |lia].
    intros ->. cbn [length] in Hl. lia.
  - rewrite chunk_cons; [|lia|intros ->; cbn [length] in Hl; nia].
    cbn [length]. f_equal. apply IH.
    rewrite drop_length by nia. nia.
Qed.

Lemma all_defined_map_repeat {X Y : Type} (f : X -> option Y) (x : X)
      (y : Y) (n : nat) :
  f x = Some y -> all_defined (map f (repeat x n)) = Some (repeat y n).
Proof.
  intros H. induction n as [|n IH]; [reflexivity|].
  cbn [repeat map all_defined]. now rewrite H, IH.
Qed.


Lemma multiple_record_defined (a : search_arguments) (c : search_constants)
      (table : list Z) (inp : inputs) (width : nat) (r : record_type) :
  1 <= parts a ->
  (forall i, 0 <= i < parts a -> (width <= bin_count (ibf_part inp i))%nat) ->
  select_threshold a c table (Z.of_nat (length (minimisers a r))) <> None ->
  multiple_record a c table inp width r <> None.
Proof.
  intros Hp Hfit Hsel. rewrite multiple_record_total by assumption.
  destruct (select_threshold a c table _); [discriminate|congruence].
Qed.

(** C3 (multi-part mode): on a query file of [3 * C + 17] records, for
    [C] the chunk size, the run with [parts >= 2] leaves a results file
    of exactly 17 lines: the file is opened anew for every chunk.  The
    run is defined when every record has a threshold and no part is
    narrower than the accumulators of one of the four chunks. *)
Theorem multiple_mode_keeps_last_chunk (a : search_arguments)
        (c : search_constants) (inp : inputs) (w : world) :
  1 <= threads a < size_t_modulus ->
  2 <= parts a < 2 ^ 32 ->
  derive_constants a = Some c ->
  (forall r, In r (query_records inp) ->
             select_threshold a c (threshold_table a (cache w))
                              (Z.of_nat (length (minimisers a r))) <> None) ->
  (forall j i, (j < 4)%nat -> 0 <= i < parts a ->
               (allocation_width a inp j <= bin_count (ibf_part inp i))%nat) ->
  Z.of_nat (length (query_records inp)) = 3 * chunk_size + 17 ->
  exists data w',
    raptor_search a inp w = Ok tt w' /\ out w' = Some data /\
    length data = 17%nat.
Proof.
  intros Ht Hp Hc Hsel Hfit Hlen. pose proof chunk_size_bounds as Hb.
  assert (Hn : 1 <= chunk_size < size_t_modulus) by lia.
  assert (Hfour : length (chunk chunk_size (query_records inp)) = 4%nat)
    by (apply (chunk_count chunk_size 3 _ 17); lia).
  destruct (run_program_multiple_chunked_spec chunk_size a c inp w
              Hn Ht Hp Hc) as (w' & Hrun & _ & Hlast).
  { rewrite Hfour. intros k i Hk Hi. apply Hfit; lia. }
  { rewrite Hfour. intros k r Hk Hr. apply multiple_record_defined;
      [lia|intros i Hi; now apply Hfit|now apply Hsel]. }
  destruct Hlast as (data & ys_last & Hdef & Hperm & Hout).
  { intros E. rewrite E in Hlen. cbn [length] in Hlen. lia. }
  exists data, w'. split; [|split; [exact Hout|]].
  - unfold raptor_search. replace (parts a =? 1) with false by lia.
    now destruct (compressed a).
  - rewrite (Permutation_length Hperm), (all_defined_length _ _ Hdef).
    rewrite length_map. apply Nat2Z.inj.
    apply (last_chunk_length chunk_size 3); lia.
Qed.

(** C4 (amended): for an index split by hash value into [parts >= 2]
    parts, each with the bins of the whole index, and a query file of
    one chunk whose accumulators are allocated when part 0 is loaded,
    multi-part mode and single-part mode on the whole index leave the
    same lines in the results file, up to their order. *)
Theorem multi_part_matches_single_part (a : search_arguments)
        (c : search_constants) (inp : inputs) (w : world) (ys : list string) :
  1 <= threads a < size_t_modulus ->
  2 <= parts a < 2 ^ 32 ->
  derive_constants a = Some c ->
  splits_by_hash (ibf_single inp) (ibf_part inp) (parts a) ->
  query_records inp <> [] ->
  Z.of_nat (length (query_records inp)) <= chunk_size ->
  part0_loaded 0 = true ->
  all_defined (map (worker_record a c (threshold_table a (cache w))
                                  (ibf_single inp))
                   (query_records inp)) = Some ys ->
  exists single multiple w1 w2,
    raptor_search (with_parts a 1) inp w = Ok tt w1 /\
    raptor_search a inp w = Ok tt w2 /\
    out w1 = Some single /\ out w2 = Some multiple /\
    Permutation single ys /\ Permutation multiple ys.
Proof.
  intros Ht Hp Hc Hs Hne Hlen Hearly Hys. pose proof chunk_size_bounds as Hb.
  assert (Hn : 1 <= chunk_size < size_t_modulus) by lia.
  destruct (run_program_single_chunked_spec chunk_size a c inp w ys
              Hn Ht Hc Hys) as (single & w1 & Hrun1 & Hperm1 & Hout1).
  pose proof Hs as (Hw & _).
  assert (Hwidth : forall k, allocation_width a inp k
                             = bin_count (ibf_single inp)).
  { intros k. unfold allocation_width, held_before.
    rewrite (wrap_small (parts a - 1)) by (unfold size_t_modulus; lia).
    destruct k as [|k]; [rewrite Hearly|destruct (part0_loaded (S k))];
      apply Hw; lia. }
  assert (Hrec : forall k r,
             multiple_record a c (threshold_table a (cache w)) inp
                             (allocation_width a inp k) r
             = worker_record a c (threshold_table a (cache w))
                             (ibf_single inp) r).
  { intros k r. rewrite Hwidth.
    apply multiple_record_hash_split; [lia|exact Hs]. }
  destruct (run_program_multiple_chunked_spec chunk_size a c inp w
              Hn Ht Hp Hc) as (w2 & Hrun2 & _ & Hlast).
  { intros k i _ Hi. rewrite Hwidth, (Hw i) by lia. apply Nat.le_refl. }
  { intros k r _ Hr. rewrite Hrec.
    destruct (all_defined_in _ _ _ r Hys Hr) as (y & Hy & _).
    congruence. }
  destruct (Hlast Hne) as (multiple & ys_last & Hdef & Hperm2 & Hout2).
  rewrite chunk_small in Hdef by (assumption || lia). cbn [last] in Hdef.
  rewrite (map_ext _ _ (Hrec _)) in Hdef.
  assert (ys_last = ys) as -> by congruence.
  exists single, multiple, w1, w2. repeat split; try assumption.
  - unfold raptor_search, run_program_single.
    change (parts (with_parts a 1) =? 1) with true. cbv iota.
    rewrite with_parts_single.
    now destruct (compressed (with_parts a 1)).
  - unfold raptor_search. replace (parts a =? 1) with false by lia.
    now destruct (compressed a).
Qed.

(** ** Records without minimisers *)




(** ** The user threshold and the exact product *)

Lemma round_scaled_integer (c : Z) :
  0 < c < 2 ^ 53 -> round_scaled (-1126) (c * 2 ^ 1126) = c * 2 ^ 1126.
Proof.
  intros Hc. assert (0 < 2 ^ 1126) by (apply pow2_pos; lia).
  apply round_scaled_exact; [nia|].
  rewrite Zdigits2_mul_pow2 by lia.
  pose proof (Zdigits2_pos c ltac:(lia)).
  pose proof (Zdigits2_le c 53 ltac:(lia) ltac:(lia)).
  set (k := Z.max 0 _).
  assert (Hk : 0 <= k <= 1126) by (unfold k, fexp, emin, prec, emax; lia).
  exists (c * 2 ^ (1126 - k)).
  rewrite <- Z.mul_assoc, <- pow2_split by lia. reflexivity.
Qed.

(** The truncated double product lies between the floor of the exact
    product and the integer above it. *)
Lemma mul_truncate_near_floor (n : Z) (mt : positive) (et : Z) :
  0 < n < 2 ^ 53 ->
  valid_binary prec emax (S754_finite false mt et) = true ->
  Z.pos mt * 2 ^ (et + 1074) <= 2 ^ 1074 ->
  exists tau_req,
    size_t_of_double (double_mul (double_of_size_t n) (S754_finite false mt et))
    = Some tau_req /\
    Spec.floor_product n (S754_finite false mt et) <= tau_req
    <= Spec.floor_product n (S754_finite false mt et) + 1 /\
    tau_req <= n.
Proof.
  intros Hn V Hone.
  destruct (mul_truncate n mt et Hn V Hone) as (Hmul & Hle).
  cbv zeta in Hmul, Hle.
  set (W := n * 2 ^ 52 * (Z.pos mt * 2 ^ (et + 1074))) in *.
  eexists. split; [exact Hmul|]. split; [|exact Hle].
  apply valid_finite_bounds in V. destruct V as (Het & _ & Hdt).
  assert (HP : 0 < 2 ^ 1126) by (apply pow2_pos; lia).
  assert (H52 : 0 < 2 ^ 52) by (apply pow2_pos; lia).
  assert (Hp1 : 0 < 2 ^ (et + 1074)) by (apply pow2_pos; lia).
  assert (Het0 : et < 0).
  { destruct (Z_lt_ge_dec et 0) as [|Hge]; [assumption|].
    pose proof (Zdigits2_bounds (Z.pos mt) ltac:(lia)) as Hb.
    assert (Hd : Zdigits2 (Z.pos mt) = 53) by (apply Hdt; lia).
    rewrite Hd in Hb.
    assert (2 ^ 1074 <= 2 ^ (et + 1074)) by (apply pow2_le; lia).
    assert (2 <= 2 ^ (53 - 1)) by (change 2 with (2 ^ 1) at 1; apply pow2_le; lia).
    nia. }
  assert (HWpos : 0 < W) by (unfold W; nia).
  assert (HF : Spec.floor_product n (S754_finite false mt et) = W / 2 ^ 1126).
  { unfold Spec.floor_product.
    replace (0 <=? et) with false by (symmetry; apply Z.leb_gt; lia).
    rewrite Z.mul_1_l. unfold W.
    replace (n * 2 ^ 52 * (Z.pos mt * 2 ^ (et + 1074)))
      with (n * Z.pos mt * 2 ^ (et + 1126)).
    2:{ replace (et + 1126) with (52 + (et + 1074)) by lia.
        rewrite Z.pow_add_r by lia. ring. }
    rewrite (pow2_split (et + 1126) 1126) by lia.
    replace (1126 - (et + 1126)) with (- et) by lia.
    assert (0 < 2 ^ (et + 1126)) by (apply pow2_pos; lia).
    assert (0 < 2 ^ (- et)) by (apply pow2_pos; lia).
    now rewrite Z.div_mul_cancel_r by lia. }
  rewrite HF. set (F := W / 2 ^ 1126) in *.
  assert (HF0 : 0 <= F) by (apply Z.div_pos; lia).
  pose proof (Z.mul_div_le W (2 ^ 1126) HP) as Hlo.
  pose proof (Z.mul_succ_div_gt W (2 ^ 1126) HP) as Hhi.
  fold F in Hlo, Hhi. split.
  - destruct (Z.eq_dec F 0) as [E|E].
    + rewrite E. apply Z.div_pos; [|lia].
      unfold round_scaled.
      set (k := Z.max 0 _). assert (0 < 2 ^ k) by (apply pow2_pos; lia).
      pose proof (rne_div_floor W (2 ^ k)).
      assert (0 <= W / 2 ^ k) by (apply Z.div_pos; lia). nia.
    + apply Z.div_le_lower_bound; [lia|].
      assert (F <= n).
      { apply Z.div_le_upper_bound; [lia|]. unfold W.
        replace (2 ^ 1126) with (2 ^ 52 * 2 ^ 1074)
          by (rewrite <- Z.pow_add_r by lia; reflexivity). nia. }
      rewrite (Z.mul_comm (2 ^ 1126) F).
      rewrite <- (round_scaled_integer F) by lia.
      apply round_scaled_mono. nia.
  - destruct (Z_lt_ge_dec F n) as [Hlt|Hge]; [|lia].
    apply Z.div_le_upper_bound; [lia|].
    rewrite (Z.mul_comm (2 ^ 1126) (F + 1)).
    rewrite <- (round_scaled_integer (F + 1)) by lia.
    apply round_scaled_mono. unfold Z.succ in Hhi. lia.
Qed.


(** X1: with the user threshold set to a double [t] in (0, 1] and a
    minimiser count [m < 2^53], the selected threshold is the floor of
    the exact product [m * t] or the integer above it, and never more
    than [m]; for [t = 1.0] it is [m]. *)
Theorem user_threshold_near_floor (a : search_arguments)
        (c : search_constants) (table : list Z) (m : Z) :
  treshold_was_set a = true -> unit_interval (threshold a) ->
  0 <= m < 2 ^ 53 ->
  exists tau_req,
    select_threshold a c table m = Some tau_req /\
    Spec.floor_product m (threshold a) <= tau_req
    <= Spec.floor_product m (threshold a) + 1 /\
    tau_req <= m /\
    (threshold a = double_one -> tau_req = m).
Proof.
  intros Hset (V & Hpos & Hone) Hm. unfold select_threshold. rewrite Hset.
  destruct (positive_at_most_one _ Hpos Hone) as (mt & et & Et).
  rewrite Et in *.
  assert (Hfix : forall tau_req,
             Spec.floor_product m (S754_finite false mt et) <= tau_req <= m ->
             S754_finite false mt et = double_one -> tau_req = m).
  { intros tau_req Hb E. rewrite E in Hb.
    unfold Spec.floor_product, double_one in Hb. cbv zeta in Hb.
    change (0 <=? -52) with false in Hb. cbv iota in Hb.
    rewrite Z.mul_1_l in Hb. change (- -52) with 52 in Hb.
    change (Z.pos 4503599627370496) with (2 ^ 52) in Hb.
    rewrite Z.div_mul in Hb by (apply Z.pow_nonzero; lia). lia. }
  destruct (Z.eq_dec m 0) as [->|Hm0].
  - exists 0. split; [reflexivity|].
    assert (E0 : Spec.floor_product 0 (S754_finite false mt et) = 0).
    { unfold Spec.floor_product. destruct (0 <=? et); reflexivity. }
    rewrite E0. repeat split; try lia.
  - pose proof (finite_le_scaled _ _ _ _ V valid_double_one Hone) as H1.
    change (Z.pos 4503599627370496 * 2 ^ (-52 + 1074)) with (2 ^ 1074) in H1.
    destruct (mul_truncate_near_floor m mt et ltac:(lia) V H1)
      as (tau_req & Hsel & Hnear & Hle).
    exists tau_req. repeat split; try assumption; try lia.
    apply Hfix. lia.
Qed.

(** X2: without a user threshold and with more than one k-mer per
    window, for [k < w <= p] the clamp keeps the index into the table
    between 0 and [max_minimisers - min_minimisers], which does not wrap
    around: a table with more than [max_minimisers - min_minimisers]
    entries is never read out of bounds.  Counts up to [min_minimisers]
    read the first entry, counts from [max_minimisers] the entry at
    [max_minimisers - min_minimisers]. *)
Theorem table_lookup_in_bounds (a : search_arguments) (table : list Z)
        (m : Z) :
  1 <= kmer_size a < window_size a ->
  window_size a <= pattern_size a < 2 ^ 53 ->
  0 <= errors a -> (errors a + 1) * kmer_size a < size_t_modulus ->
  treshold_was_set a = false ->
  Forall (fun t => 0 <= t < size_t_modulus - 2) table ->
  Spec.max_minimisers (pattern_size a) (window_size a)
  - Spec.min_minimisers (pattern_size a) (window_size a) (kmer_size a)
  < Z.of_nat (length table) ->
  0 <= m < size_t_modulus ->
  exists c t,
    derive_constants a = Some c /\
    0 <= Spec.table_index a m
    <= c_max_number_of_minimisers c - c_min_number_of_minimisers c /\
    nth_error table (Z.to_nat (Spec.table_index a m)) = Some t /\
    select_threshold a c table m = Some (t + 2) /\
    (m <= c_min_number_of_minimisers c -> Spec.table_index a m = 0) /\
    (c_max_number_of_minimisers c <= m ->
     Spec.table_index a m
     = c_max_number_of_minimisers c - c_min_number_of_minimisers c).
Proof.
  intros Hk Hp He Hek Hset Htable Hlen Hm.
  destruct (select_threshold_spec a table m ltac:(lia) Hp He Hek Hm Htable)
    as (c & Hc & Hsel).
  pose proof (derive_constants_spec a ltac:(lia) Hp He Hek) as Hc'.
  rewrite Hc in Hc'. injection Hc' as ->.
  cbn [c_max_number_of_minimisers c_min_number_of_minimisers] in *.
  set (minm := Spec.min_minimisers (pattern_size a) (window_size a)
                                   (kmer_size a)) in *.
  set (maxm := Spec.max_minimisers (pattern_size a) (window_size a)) in *.
  assert (Hminmax : 1 <= minm <= maxm).
  { unfold minm, maxm, Spec.min_minimisers, Spec.max_minimisers. split.
    - unfold Spec.ceil_div. apply Z.div_le_lower_bound; lia.
    - pose proof (ceil_div_le_windows (pattern_size a - kmer_size a + 1)
                    (window_size a - kmer_size a + 1) ltac:(lia)). lia. }
  assert (Hidx : 0 <= Spec.table_index a m <= maxm - minm).
  { unfold Spec.table_index. fold minm. fold maxm.
    destruct (Z.ltb_spec m minm); lia. }
  destruct (nth_error table (Z.to_nat (Spec.table_index a m))) as [t|] eqn:Et.
  2:{ apply nth_error_None in Et. lia. }
  eexists _, t. split; [exact Hc|]. split; [exact Hidx|]. split; [reflexivity|].
  split.
  - rewrite Hsel. unfold Spec.tau_req_double. rewrite Hset.
    replace (window_size a - kmer_size a + 1 =? 1) with false
      by (symmetry; apply Z.eqb_neq; lia).
    now rewrite Et.
  - cbn [c_max_number_of_minimisers c_min_number_of_minimisers].
    unfold Spec.table_index. fold minm. fold maxm.
    split; intros H; destruct (Z.ltb_spec m minm); lia.
Qed.

(** ** A threshold of zero *)

Lemma double_of_size_t_finite (n : Z) :
  0 < n < size_t_modulus ->
  exists m e, double_of_size_t n = S754_finite false m e.
Proof.
  intros Hn. destruct (Z_lt_ge_dec n (2 ^ 53)) as [Hlt|Hge].
  - destruct (double_of_size_t_exact n ltac:(lia)) as (m & e & -> & _).
    now exists m, e.
  - destruct n as [|p|p]; try lia.
    unfold double_of_size_t, binary_normalize, binary_round.
    change (Z.pos (digits2_pos p)) with (Zdigits2 (Z.pos p)).
    pose proof (Zdigits2_mono (2 ^ 53) (Z.pos p) ltac:(lia)) as Hd.
    assert (Hd53 : Zdigits2 (2 ^ 53) = 54) by reflexivity.
    assert (Hd64 : Zdigits2 (Z.pos p) <= 64)
      by (apply Zdigits2_le; unfold size_t_modulus in Hn; lia).
    assert (Hf : fexp prec emax (Zdigits2 (Z.pos p) + 0)
                 = Zdigits2 (Z.pos p) - 53)
      by (unfold fexp, emin, prec, emax; lia).
    rewrite Hf. unfold shl_align.
    destruct (Zdigits2 (Z.pos p) - 53 - 0) as [|k|k] eqn:Ek; try lia;
      destruct (binary_round_aux_scaled (Z.pos p) 0 (-1126)
                  ltac:(lia) ltac:(lia) ltac:(lia) ltac:(lia) ltac:(lia))
        as (m & e & -> & _); now exists m, e.
Qed.

Lemma zero_product (n : Z) :
  0 <= n < size_t_modulus ->
  size_t_of_double (double_mul (double_of_size_t n) double_zero) = Some 0.
Proof.
  intros Hn. destruct (Z.eq_dec n 0) as [->|Hn0]; [reflexivity|].
  destruct (double_of_size_t_finite n ltac:(lia)) as (m & e & ->).
  reflexivity.
Qed.

Lemma hit_bins_all_from (lo : Z) (counts : list Z) :
  Forall (fun v => 0 <= v) counts ->
  map fst (filter (fun bc => 0 <=? snd bc)
                  (combine (zrange lo (length counts)) counts))
  = zrange lo (length counts).
Proof.
  intros H. revert lo. induction H as [|v counts Hv _ IH]; intros lo.
  - reflexivity.
  - cbn [length]. rewrite zrange_S. cbn [combine filter snd].
    replace (0 <=? v) with true by (symmetry; apply Z.leb_le; lia).
    cbn [map fst]. now rewrite IH.
Qed.

Lemma bulk_count_nonneg (ibf : interleaved_bloom_filter) (hashes : list Z) :
  Forall (fun v => 0 <= v) (bulk_count ibf hashes).
Proof.
  unfold bulk_count. apply Forall_forall. intros v Hv.
  apply in_map_iff in Hv. destruct Hv as (b & <- & _).
  unfold wrap8. apply Z.mod_pos_bound. lia.
Qed.

Lemma cv_sum_nonneg (acc rhs : list Z) :
  Forall (fun v => 0 <= v) (cv_sum acc rhs).
Proof.
  unfold cv_sum. apply Forall_forall. intros v Hv.
  apply in_map_iff in Hv. destruct Hv as (b & <- & _).
  unfold wrap8. apply Z.mod_pos_bound. lia.
Qed.

Lemma Forall_slice {X : Type} (P : X -> Prop) (s e : Z) (l : list X) :
  Forall P l -> Forall P (slice s e l).
Proof. intros H. unfold slice. now apply Forall_take, Forall_drop. Qed.

(** X3: a threshold of zero lists every bin.  That is the case for every
    record when the user threshold is set to 0.0, and when there is one
    k-mer per window and [p + 1 <= (e + 1) * k] makes [kmer_lemma] zero:
    [worker] then emits for every record of its range the line that lists
    all bins of the index, and [output_task] the line that lists all
    positions of the accumulator of the record, whatever the counts are.
    No accumulator is wider than the index part. *)
Theorem zero_threshold_lists_every_bin (a : search_arguments)
        (c : search_constants) (table : list Z)
        (ibf : interleaved_bloom_filter) (records : list record_type)
        (accumulators : list (list Z)) (s e : Z) :
  (treshold_was_set a = true /\ threshold a = double_zero) \/
  (treshold_was_set a = false /\ c_kmers_per_window c = 1 /\
   c_kmer_lemma c = 0) ->
  Forall (fun r => Z.of_nat (length (minimisers a r)) < size_t_modulus)
         records ->
  0 <= s <= e -> e <= Z.of_nat (length records) ->
  length accumulators = length records ->
  Forall (fun acc => (length acc <= bin_count ibf)%nat) accumulators ->
  Forall (fun r => select_threshold a c table
                     (Z.of_nat (length (minimisers a r))) = Some 0)
         records /\
  worker a c table ibf records s e
  = Some (map (fun r => Spec.line (rec_id r) (zrange 0 (bin_count ibf)))
              (slice s e records)) /\
  output_task a c table ibf records accumulators s e
  = Some (map (fun ra => Spec.line (rec_id (fst ra))
                                   (zrange 0 (length (snd ra))))
              (combine (slice s e records) (slice s e accumulators))).
Proof.
  intros Hzero Hm Hs He Hlen Hfit.
  assert (Hsel : Forall (fun r => select_threshold a c table
                           (Z.of_nat (length (minimisers a r))) = Some 0)
                        records).
  { eapply Forall_impl; [|exact Hm]. intros r Hr. cbv beta in Hr.
    unfold select_threshold.
    destruct Hzero as [(-> & ->)|(-> & -> & ->)]; [|reflexivity].
    apply zero_product. lia. }
  split; [exact Hsel|]. split.
  - unfold worker. apply all_defined_map_total. intros r Hr.
    pose proof (Forall_slice _ s e _ Hsel) as Hsl.
    rewrite Forall_forall in Hsl.
    rewrite worker_record_spec, (Hsl r Hr). cbn [option_map].
    unfold Spec.hit_bins.
    rewrite hit_bins_all_from by apply bulk_count_nonneg.
    now rewrite bulk_count_length.
  - rewrite output_task_slices by assumption.
    apply all_defined_map_total. intros (r & acc) Hin.
    pose proof (Forall_slice _ s e _ Hsel) as Hsl.
    pose proof (Forall_slice _ s e _ Hfit) as Hfl.
    rewrite Forall_forall in Hsl, Hfl.
    pose proof (Hsl r (in_combine_l _ _ _ _ Hin)) as Hr.
    pose proof (Hfl acc (in_combine_r _ _ _ _ Hin)) as Hacc.
    rewrite output_record_spec.
    rewrite cv_add_fits by (now rewrite bulk_count_length).
    rewrite Hr. cbn [option_map fst snd]. unfold Spec.hit_bins.
    rewrite hit_bins_all_from by apply cv_sum_nonneg.
    rewrite cv_sum_length by (now rewrite bulk_count_length).
    reflexivity.
Qed.

(** ** The world a run ends in *)

Lemma single_chunk_world (a : search_arguments) (c : search_constants)
      (table : list Z) (ibf : interleaved_bloom_filter)
      (records : list record_type) (w : world) :
  Z.of_nat (length records) < size_t_modulus ->
  1 <= threads a < size_t_modulus ->
  match all_defined (map (worker_record a c table ibf) records) with
  | Some ys =>
      exists data,
        Permutation data ys /\
        single_chunk a c table ibf records w
        = Ok tt {| out := option_map (fun o => o ++ data) (out w);
                   cache := cache w;
                   trace := trace w ++ single_chunk_events records data |}
  | None =>
      single_chunk a c table ibf records w
      = Undef {| out := out w; cache := cache w;
                 trace := trace w ++ [ev_read_chunk (length records)] |}
  end.
Proof.
  intros Hn Ht. unfold single_chunk, bind, log. cbv beta iota.
  pose proof (parallel_lines_spec (worker a c table ibf records)
                (worker_record a c table ibf) records (threads a)
                {| out := out w; cache := cache w;
                   trace := trace w ++ [ev_read_chunk (length records)] |}
                Hn Ht ltac:(reflexivity)) as H.
  destruct (all_defined (map (worker_record a c table ibf) records)) as [ys|].
  - destruct H as (yss & Hc & ->). exists (interleave yss). split.
    + rewrite <- Hc. apply interleave_perm.
    + unfold write_all, single_chunk_events. cbn [out cache trace].
      now rewrite <- app_assoc.
  - exact H.
Qed.

Lemma single_chunks_world (a : search_arguments) (c : search_constants)
      (table : list Z) (ibf : interleaved_bloom_filter)
      (chunks : list (list record_type)) (w : world) (o : list string)
      (ys : list string) :
  Forall (fun ch => Z.of_nat (length ch) < size_t_modulus) chunks ->
  1 <= threads a < size_t_modulus ->
  out w = Some o ->
  all_defined (map (worker_record a c table ibf) (concat chunks)) = Some ys ->
  exists datas,
    Forall2 (lines_of (worker_record a c table ibf)) datas chunks /\
    for_each chunks (single_chunk a c table ibf) w
    = Ok tt {| out := Some (o ++ concat datas); cache := cache w;
               trace := trace w
                        ++ concat (map (fun p => single_chunk_events
                                                   (fst p) (snd p))
                                       (combine chunks datas)) |}.
Proof.
  intros Hch Ht. revert w o ys.
  induction chunks as [|ch chunks IH]; intros w o ys Ho Hys;
    cbn [concat for_each] in *.
  - exists []. split; [constructor|]. cbn [concat combine map].
    unfold ret. rewrite !app_nil_r, <- Ho. now destruct w.
  - inversion Hch as [|? ? Hlen Hrest]; subst.
    rewrite map_app, all_defined_app in Hys.
    pose proof (single_chunk_world a c table ibf ch w Hlen Ht) as H1.
    destruct (all_defined (map (worker_record a c table ibf) ch))
      as [y1|] eqn:E1; [|discriminate Hys].
    destruct (all_defined (map (worker_record a c table ibf) (concat chunks)))
      as [y2|] eqn:E2; [|discriminate Hys].
    destruct H1 as (d1 & Hp1 & Hrun1).
    rewrite Ho in Hrun1. cbn [option_map] in Hrun1.
    unfold bind. rewrite Hrun1.
    match goal with
    | |- context [for_each _ _ ?w0] =>
        destruct (IH Hrest w0 (o ++ d1) y2 eq_refl eq_refl)
          as (datas & Hall & Hrun)
    end.
    exists (d1 :: datas). split.
    + constructor; [|exact Hall]. exists y1. split; [exact E1|exact Hp1].
    + rewrite Hrun. cbn [out cache trace combine map concat fst snd].
      now rewrite <- !app_assoc.
Qed.

Lemma timing_world (a : search_arguments) (w : world) :
  (if write_time a then log ev_write_time else ret tt) w
  = Ok tt {| out := out w; cache := cache w;
             trace := trace w ++ timing_events a |}.
Proof.
  unfold timing_events, log, ret. destruct (write_time a); [reflexivity|].
  rewrite app_nil_r. now destruct w.
Qed.

Lemma run_program_single_world (n : Z) (a : search_arguments)
      (c : search_constants) (inp : inputs) (w : world) (ys : list string) :
  1 <= n < size_t_modulus ->
  1 <= threads a < size_t_modulus ->
  derive_constants a = Some c ->
  all_defined (map (worker_record a c (threshold_table a (cache w))
                                  (ibf_single inp))
                   (query_records inp)) = Some ys ->
  exists datas,
    Forall2 (lines_of (worker_record a c (threshold_table a (cache w))
                                     (ibf_single inp)))
            datas (chunk n (query_records inp)) /\
    run_program_single_chunked n a inp w
    = Ok tt {| out := Some (concat datas);
               cache := if double_is_zero (threshold a)
                        then Some (threshold_table a (cache w)) else cache w;
               trace := trace w
                        ++ [ev_open_ibf; ev_load_ibf None; ev_open_query;
                            ev_open_out]
                        ++ cache_events a (cache w)
                        ++ concat (map (fun p => single_chunk_events
                                                   (fst p) (snd p))
                                       (combine (chunk n (query_records inp))
                                                datas))
                        ++ timing_events a |}.
Proof.
  intros Hn Ht Hc Hys. unfold run_program_single_chunked.
  unfold bind at 1 2 3 4 5. unfold log at 1 2 3. unfold open_out, defined.
  cbv beta iota. rewrite Hc. cbn [out cache trace].
  unfold bind at 1. rewrite compute_simple_model_steps. cbn [out cache trace].
  destruct (chunk_concat n (query_records inp) ltac:(lia)) as (Hcc & _).
  rewrite <- Hcc in Hys.
  match goal with
  | |- context [bind _ _ ?w0] =>
      destruct (single_chunks_world a c (threshold_table a (cache w))
                  (ibf_single inp) (chunk n (query_records inp)) w0 [] ys
                  (chunk_sizes n _ Hn) Ht eq_refl Hys)
        as (datas & Hall & Hrun)
  end.
  exists datas. split; [exact Hall|].
  unfold bind. rewrite Hrun. rewrite timing_world.
  cbn [out cache trace app]. unfold cache_events.
  now rewrite <- !app_assoc.
Qed.

Lemma multiple_chunk_world (a : search_arguments) (c : search_constants)
      (table : list Z) (inp : inputs) (width : nat)
      (records : list record_type) (w : world) :
  Z.of_nat (length records) < size_t_modulus ->
  1 <= threads a < size_t_modulus ->
  2 <= parts a < 2 ^ 32 ->
  (forall i, 0 <= i < parts a - 1 ->
             (width <= bin_count (ibf_part inp i))%nat) ->
  match all_defined (map (multiple_record a c table inp width) records) with
  | Some ys =>
      exists data,
        Permutation data ys /\
        multiple_chunk a c table inp width records w
        = Ok tt {| out := Some data; cache := cache w;
                   trace := trace w
                            ++ multiple_chunk_events (parts a) records data |}
  | None => exists w', multiple_chunk a c table inp width records w = Undef w'
  end.
Proof.
  intros Hn Ht Hp Hfit. unfold multiple_chunk, bind, log. cbv beta iota zeta.
  rewrite <- map_const.
  rewrite parallel_count_spec;
    [|assumption|assumption
     |intros r _; rewrite repeat_length; apply Hfit; lia].
  assert (Hw0 : forall r : record_type,
             length (cv_sum (repeat 0 width)
                       (bulk_count (ibf_part inp 0) (minimisers a r))) = width).
  { intros r. rewrite cv_sum_length; rewrite repeat_length; [reflexivity|].
    rewrite bulk_count_length. apply Hfit. lia. }
  rewrite count_parts_spec; [|assumption|assumption|].
  2:{ intros r part _ Hin. rewrite Hw0. unfold middle_parts in Hin.
      rewrite Z.mod_small in Hin by lia. apply in_zrange in Hin.
      apply Hfit. lia. }
  cbn [out cache trace].
  assert (Hlast : wrap (parts a - 1) = parts a - 1).
  { apply wrap_small. unfold size_t_modulus. lia. }
  rewrite Hlast. unfold open_out. cbn [out cache trace].
  match goal with
  | |- context [parallel_lines ?task _ _ ?w0] =>
      pose proof (parallel_lines_spec task
                    (multiple_record a c table inp width) records (threads a)
                    w0 Hn Ht) as H
  end.
  match type of H with
  | ?P -> _ => assert (Htask : P); [|specialize (H Htask); clear Htask]
  end.
  { intros s e H1 H2. rewrite output_task_spec by assumption.
    f_equal. apply map_ext. intros r.
    rewrite multiple_record_fits by exact Hfit. do 2 f_equal.
    unfold middle_parts. rewrite Z.mod_small by lia.
    rewrite <- accumulated_cons. f_equal.
    replace (Z.to_nat (parts a - 1)) with (S (Z.to_nat (parts a - 1 - 1))) by lia.
    now rewrite zrange_S. }
  destruct (all_defined (map (multiple_record a c table inp width) records))
    as [ys|].
  - destruct H as (yss & Hc & ->). exists (interleave yss). split.
    + rewrite <- Hc. apply interleave_perm.
    + unfold write_all, multiple_chunk_events, middle_parts.
      cbn [out cache trace option_map app].
      rewrite Z.mod_small by lia.
      replace (parts a - 1 - 1) with (parts a - 2) by lia.
      rewrite <- !app_assoc. reflexivity.
  - rewrite H. eexists. reflexivity.
Qed.

Lemma last_cons {X : Type} (x d : X) (l : list X) :
  last (x :: l) d = last l x.
Proof.
  revert x d. induction l as [|y l IH]; intros x d; [reflexivity|].
  change (last (x :: y :: l) d) with (last (y :: l) d).
  now rewrite !IH.
Qed.

Lemma multiple_chunks_world (a : search_arguments) (c : search_constants)
      (table : list Z) (inp : inputs) (width : nat -> nat)
      (chunks : list (list record_type)) (j : nat) (w : world) :
  Forall (fun ch => Z.of_nat (length ch) < size_t_modulus) chunks ->
  1 <= threads a < size_t_modulus ->
  2 <= parts a < 2 ^ 32 ->
  (forall k i, (j <= k < j + length chunks)%nat -> 0 <= i < parts a - 1 ->
               (width k <= bin_count (ibf_part inp i))%nat) ->
  (forall k r, (j <= k < j + length chunks)%nat -> In r (concat chunks) ->
               multiple_record a c table inp (width k) r <> None) ->
  exists datas,
    Forall2 (fun data kch =>
               lines_of (multiple_record a c table inp (width (fst kch)))
                        data (snd kch))
            datas (combine (seq j (length chunks)) chunks) /\
    for_each_from j chunks (fun k => multiple_chunk a c table inp (width k)) w
    = Ok tt {| out := last (map Some datas) (out w); cache := cache w;
               trace := trace w
                        ++ concat (map (fun p => multiple_chunk_events
                                                   (parts a) (fst p) (snd p))
                                       (combine chunks datas)) |}.
Proof.
  intros Hch Ht Hp. revert j w.
  induction chunks as [|ch chunks IH]; intros j w Hfit Hdef;
    cbn [concat for_each_from length seq combine] in *.
  - exists []. split; [constructor|]. cbn [concat combine map last].
    unfold ret. rewrite !app_nil_r. now destruct w.
  - inversion Hch as [|? ? Hlen Hrest]; subst.
    pose proof (multiple_chunk_world a c table inp (width j) ch w Hlen Ht Hp
                  (fun i => Hfit j i ltac:(lia))) as H1.
    destruct (all_defined_some (multiple_record a c table inp (width j)) ch)
      as (y1 & E1).
    { intros r Hr. apply Hdef; [lia|]. apply in_or_app. now left. }
    rewrite E1 in H1. destruct H1 as (d1 & Hp1 & Hrun1).
    unfold bind. rewrite Hrun1.
    match goal with
    | |- context [for_each_from _ _ _ ?w0] =>
        destruct (IH Hrest (S j) w0) as (datas & Hall & Hrun)
    end.
    { intros k i Hk. apply Hfit. lia. }
    { intros k r Hk Hr. apply Hdef; [lia|]. apply in_or_app. now right. }
    exists (d1 :: datas). split.
    + constructor; [|exact Hall]. exists y1. split; [exact E1|exact Hp1].
    + rewrite Hrun. cbn [out cache trace combine map concat fst snd].
      rewrite last_cons. now rewrite <- !app_assoc.
Qed.

Lemma run_program_multiple_world (n : Z) (a : search_arguments)
      (c : search_constants) (inp : inputs) (w : world) :
  1 <= n < size_t_modulus ->
  1 <= threads a < size_t_modulus ->
  2 <= parts a < 2 ^ 32 ->
  derive_constants a = Some c ->
  (forall k i, (k < length (chunk n (query_records inp)))%nat ->
               0 <= i < parts a - 1 ->
               (allocation_width a inp k <= bin_count (ibf_part inp i))%nat) ->
  (forall k r, (k < length (chunk n (query_records inp)))%nat ->
               In r (query_records inp) ->
               multiple_record a c (threshold_table a (cache w)) inp
                               (allocation_width a inp k) r <> None) ->
  exists datas,
    Forall2 (fun data kch =>
               lines_of (multiple_record a c (threshold_table a (cache w)) inp
                           (allocation_width a inp (fst kch)))
                        data (snd kch))
            datas
            (combine (seq 0 (length (chunk n (query_records inp))))
                     (chunk n (query_records inp))) /\
    run_program_multiple_chunked n a inp w
    = Ok tt {| out := last (map Some datas) (out w);
               cache := if double_is_zero (threshold a)
                        then Some (threshold_table a (cache w)) else cache w;
               trace := trace w ++ [ev_open_query]
                        ++ cache_events a (cache w)
                        ++ concat (map (fun p => multiple_chunk_events
                                                   (parts a) (fst p) (snd p))
                                       (combine (chunk n (query_records inp))
                                                datas))
                        ++ timing_events a |}.
Proof.
  intros Hn Ht Hp Hc Hfit Hdef. unfold run_program_multiple_chunked.
  unfold bind at 1 2. unfold log at 1. unfold defined.
  cbv beta iota. rewrite Hc. cbn [out cache trace].
  unfold bind at 1. rewrite compute_simple_model_steps. cbn [out cache trace].
  destruct (chunk_concat n (query_records inp) ltac:(lia)) as (Hcc & _).
  match goal with
  | |- context [bind _ _ ?w0] =>
      destruct (multiple_chunks_world a c (threshold_table a (cache w))
                  inp (allocation_width a inp)
                  (chunk n (query_records inp)) 0 w0
                  (chunk_sizes n _ Hn) Ht Hp)
        as (datas & Hall & Hrun)
  end.
  { intros k i Hk. apply Hfit. lia. }
  { intros k r Hk Hr. apply Hdef; [lia|]. now rewrite <- Hcc. }
  exists datas. split; [exact Hall|].
  unfold bind. rewrite Hrun. rewrite timing_world.
  cbn [out cache trace app]. unfold cache_events.
  now rewrite <- !app_assoc.
Qed.

(** ** The parts a run loads *)

Lemma loaded_parts_app (tr1 tr2 : list io_event) :
  loaded_parts (tr1 ++ tr2) = loaded_parts tr1 ++ loaded_parts tr2.
Proof. apply flat_map_app. Qed.

Lemma loaded_parts_writes (data : list string) :
  loaded_parts (map ev_write data) = [].
Proof. induction data as [|d data IH]; [reflexivity|exact IH]. Qed.

Lemma loaded_parts_loads (ids : list Z) :
  loaded_parts (map (fun part => ev_load_ibf (Some part)) ids) = ids.
Proof.
  induction ids as [|i ids IH]; [reflexivity|].
  cbn [map]. change (loaded_parts (?e :: ?l))
    with (loaded_parts [e] ++ loaded_parts l).
  rewrite IH. reflexivity.
Qed.

Lemma loaded_parts_cache (a : search_arguments) (cached : option (list Z)) :
  loaded_parts (cache_events a cached) = [].
Proof.
  unfold cache_events. destruct (double_is_zero (threshold a)); [|reflexivity].
  now destruct cached.
Qed.

Lemma loaded_parts_timing (a : search_arguments) :
  loaded_parts (timing_events a) = [].
Proof. unfold timing_events. now destruct (write_time a). Qed.

Lemma loaded_parts_chunk (n : Z) (ch : list record_type) (data : list string) :
  2 <= n ->
  loaded_parts (multiple_chunk_events n ch data) = zrange 0 (Z.to_nat n).
Proof.
  intros Hn. unfold multiple_chunk_events.
  change (loaded_parts (ev_load_ibf (Some 0) :: ev_read_chunk (length ch) :: ?l))
    with (0 :: loaded_parts l).
  rewrite !loaded_parts_app, loaded_parts_loads, loaded_parts_writes.
  change (loaded_parts [ev_load_ibf (Some (n - 1)); ev_open_out])
    with [n - 1].
  rewrite app_nil_r.
  replace (Z.to_nat n) with (S (S (Z.to_nat (n - 2)))) by lia.
  rewrite zrange_S, zrange_snoc. cbn [app]. do 3 f_equal. lia.
Qed.

Lemma loaded_parts_chunks (n : Z) (chunks : list (list record_type))
      (datas : list (list string)) :
  2 <= n -> length datas = length chunks ->
  loaded_parts (concat (map (fun p => multiple_chunk_events n (fst p) (snd p))
                            (combine chunks datas)))
  = concat (map (fun _ => zrange 0 (Z.to_nat n)) chunks).
Proof.
  intros Hn. revert datas.
  induction chunks as [|ch chunks IH]; intros [|d datas] H;
    try discriminate H; [reflexivity|].
  cbn [combine map concat fst snd].
  rewrite loaded_parts_app, loaded_parts_chunk by assumption.
  f_equal. apply IH. now injection H.
Qed.

(** ** The lines of the chunks *)

Lemma lines_of_concat (f : record_type -> option string)
      (datas : list (list string)) (chunks : list (list record_type))
      (ys : list string) :
  Forall2 (lines_of f) datas chunks ->
  all_defined (map f (concat chunks)) = Some ys ->
  Permutation (concat datas) ys.
Proof.
  intros H. revert ys.
  induction H as [|d ch datas chunks (y1 & E1 & Hp1) _ IH]; intros ys Hys.
  - cbn in Hys. injection Hys as <-. constructor.
  - cbn [concat] in *. rewrite map_app, all_defined_app, E1 in Hys.
    destruct (all_defined (map f (concat chunks))) as [y2|];
      [|discriminate Hys].
    injection Hys as <-. apply Permutation_app; [exact Hp1|now apply IH].
Qed.

Lemma lines_of_ext (f g : record_type -> option string)
      (data : list string) (ch : list record_type) :
  (forall r, f r = g r) -> lines_of f data ch -> lines_of g data ch.
Proof.
  intros E (ys & Hys & Hperm). exists ys. split; [|exact Hperm].
  rewrite <- Hys. f_equal. apply map_ext. intros r. symmetry. apply E.
Qed.

Lemma Forall2_indexed_impl {X Y : Type} (R1 R2 : X -> nat * Y -> Prop)
      (j : nat) (l : list Y) (datas : list X) :
  (forall d k y, (j <= k < j + length l)%nat -> R1 d (k, y) -> R2 d (k, y)) ->
  Forall2 R1 datas (combine (seq j (length l)) l) ->
  Forall2 R2 datas (combine (seq j (length l)) l).
Proof.
  revert j datas. induction l as [|y l IH]; intros j datas Himp H;
    cbn [length seq combine] in *.
  - inversion H; subst. constructor.
  - inversion H as [|d ? ds ? Hd Hds]; subst. constructor.
    + apply Himp; [lia|exact Hd].
    + apply IH; [|exact Hds]. intros d' k y' Hk. apply Himp. lia.
Qed.

(** X4: in single-part mode with defined thresholds, the run opens the
    index, loads it once, opens the queries and creates the results file
    once, consults the threshold cache, then reads and answers chunk
    after chunk: the results file holds the lines of the first chunk in
    some order, then those of the second, and so on, one line per record,
    and the timing file is written last, if at all. *)
Theorem single_part_run (a : search_arguments) (c : search_constants)
        (inp : inputs) (w : world) (ys : list string) :
  parts a = 1 ->
  1 <= threads a < size_t_modulus ->
  derive_constants a = Some c ->
  all_defined (map (worker_record a c (threshold_table a (cache w))
                                  (ibf_single inp))
                   (query_records inp)) = Some ys ->
  exists datas,
    Forall2 (lines_of (worker_record a c (threshold_table a (cache w))
                                     (ibf_single inp)))
            datas (chunk chunk_size (query_records inp)) /\
    Permutation (concat datas) ys /\
    raptor_search a inp w
    = Ok tt {| out := Some (concat datas);
               cache := if double_is_zero (threshold a)
                        then Some (threshold_table a (cache w)) else cache w;
               trace := trace w
                        ++ [ev_open_ibf; ev_load_ibf None; ev_open_query;
                            ev_open_out]
                        ++ cache_events a (cache w)
                        ++ concat (map (fun p => single_chunk_events
                                                   (fst p) (snd p))
                                       (combine (chunk chunk_size
                                                       (query_records inp))
                                                datas))
                        ++ timing_events a |}.
Proof.
  intros Hparts Ht Hc Hys. pose proof chunk_size_bounds as Hb.
  destruct (run_program_single_world chunk_size a c inp w ys
              ltac:(lia) Ht Hc Hys) as (datas & Hall & Hrun).
  exists datas. split; [exact Hall|]. split.
  - apply (lines_of_concat _ _ _ _ Hall).
    destruct (chunk_concat chunk_size (query_records inp) ltac:(lia))
      as (-> & _). exact Hys.
  - unfold raptor_search, run_program_single. rewrite Hparts.
    change (1 =? 1) with true. cbv iota.
    now destruct (compressed a).
Qed.

(** X5: in multi-part mode with [2 <= parts < 2^32], defined
    thresholds and no part narrower than the accumulators, every chunk
    loads each of the parts [0 .. parts - 1] once, in ascending order,
    and creates or truncates the results file before it writes its
    lines: after the run the file holds the lines of the last chunk
    only, and it is left as it was when there is no chunk.  The
    accumulators of chunk [j] have [allocation_width j] counters: the
    width of part 0 when its load had finished before they were
    allocated, otherwise the width of the filter held before (none in
    the first chunk); the line of a record lists the positions of its
    accumulator whose sum over all parts meets the threshold. *)
Theorem multi_part_run (a : search_arguments) (c : search_constants)
        (inp : inputs) (w : world) :
  2 <= parts a < 2 ^ 32 ->
  1 <= threads a < size_t_modulus ->
  derive_constants a = Some c ->
  (forall r, In r (query_records inp) ->
             select_threshold a c (threshold_table a (cache w))
                              (Z.of_nat (length (minimisers a r))) <> None) ->
  (forall j i, (j < length (chunk chunk_size (query_records inp)))%nat ->
               0 <= i < parts a ->
               (allocation_width a inp j <= bin_count (ibf_part inp i))%nat) ->
  exists datas w',
    Forall2 (fun data jch =>
               lines_of
                 (fun r =>
                    option_map
                      (fun threshold =>
                         Spec.line (rec_id r)
                           (Spec.hit_bins threshold
                              (accumulated a inp r
                                 (zrange 0 (Z.to_nat (parts a)))
                                 (repeat 0 (allocation_width a inp
                                                             (fst jch))))))
                      (select_threshold a c (threshold_table a (cache w))
                         (Z.of_nat (length (minimisers a r)))))
                 data (snd jch))
            datas
            (combine (seq 0 (length (chunk chunk_size (query_records inp))))
                     (chunk chunk_size (query_records inp))) /\
    raptor_search a inp w = Ok tt w' /\
    out w' = last (map Some datas) (out w) /\
    trace w'
    = trace w ++ [ev_open_query] ++ cache_events a (cache w)
      ++ concat (map (fun p => multiple_chunk_events (parts a) (fst p) (snd p))
                     (combine (chunk chunk_size (query_records inp)) datas))
      ++ timing_events a /\
    loaded_parts (trace w')
    = loaded_parts (trace w)
      ++ concat (map (fun _ => zrange 0 (Z.to_nat (parts a)))
                     (chunk chunk_size (query_records inp))).
Proof.
  intros Hparts Ht Hc Hsel Hfit. pose proof chunk_size_bounds as Hb.
  destruct (run_program_multiple_world chunk_size a c inp w
              ltac:(lia) Ht Hparts Hc) as (datas & Hall & Hrun).
  { intros k i Hk Hi. apply Hfit; [exact Hk|lia]. }
  { intros k r Hk Hr. apply multiple_record_defined;
      [lia|intros i Hi; now apply Hfit|now apply Hsel]. }
  eexists datas, _. split; [|split].
  - revert Hall. apply Forall2_indexed_impl. intros d k ch Hk.
    cbn [fst snd]. apply lines_of_ext. intros r.
    rewrite multiple_record_total
      by (lia || (intros i Hi; apply Hfit; [lia|exact Hi])).
    destruct (select_threshold a c _ _); [|reflexivity].
    cbn [option_map]. now rewrite emit_line_spec.
  - unfold raptor_search, run_program_multiple.
    replace (parts a =? 1) with false by lia.
    destruct (compressed a); exact Hrun.
  - cbn [out trace]. split; [reflexivity|]. split; [reflexivity|].
    rewrite !loaded_parts_app, loaded_parts_cache, loaded_parts_timing.
    rewrite loaded_parts_chunks.
    + cbn [app]. now rewrite app_nil_r.
    + lia.
    + apply Forall2_length in Hall.
      now rewrite Hall, length_combine, length_seq, Nat.min_id.
Qed.

(** X6: with an empty query file no chunk is read and [do_parallel] is
    never called, whatever [threads] is.  Single-part mode still opens
    and loads the index and leaves an empty results file; multi-part mode
    loads no part and neither creates nor truncates the results file. *)
Theorem empty_query_file (a : search_arguments) (c : search_constants)
        (inp : inputs) (w : world) :
  query_records inp = [] ->
  derive_constants a = Some c ->
  raptor_search a inp w
  = Ok tt {| out := if parts a =? 1 then Some [] else out w;
             cache := if double_is_zero (threshold a)
                      then Some (threshold_table a (cache w)) else cache w;
             trace := trace w
                      ++ (if parts a =? 1
                          then [ev_open_ibf; ev_load_ibf None; ev_open_query;
                                ev_open_out]
                          else [ev_open_query])
                      ++ cache_events a (cache w) ++ timing_events a |}.
Proof.
  intros Hq Hc.
  unfold raptor_search, run_program_single, run_program_multiple.
  destruct (parts a =? 1).
  - assert (E : run_program_single_chunked chunk_size a inp w = Ok tt
              {| out := Some [];
                 cache := if double_is_zero (threshold a)
                          then Some (threshold_table a (cache w)) else cache w;
                 trace := trace w
                          ++ [ev_open_ibf; ev_load_ibf None; ev_open_query;
                              ev_open_out]
                          ++ cache_events a (cache w) ++ timing_events a |}).
    { unfold run_program_single_chunked.
      unfold bind at 1 2 3 4 5. unfold log at 1 2 3. unfold open_out, defined.
      cbv beta iota. rewrite Hc. cbn [out cache trace].
      unfold bind at 1. rewrite compute_simple_model_steps.
      rewrite Hq. change (chunk chunk_size (@nil record_type)) with (@nil (list record_type)).
      cbn [for_each]. unfold bind, ret. rewrite timing_world.
      cbn [out cache trace]. unfold cache_events.
      now rewrite <- !app_assoc. }
    now destruct (compressed a).
  - assert (E : run_program_multiple_chunked chunk_size a inp w = Ok tt
              {| out := out w;
                 cache := if double_is_zero (threshold a)
                          then Some (threshold_table a (cache w)) else cache w;
                 trace := trace w ++ [ev_open_query]
                          ++ cache_events a (cache w) ++ timing_events a |}).
    { unfold run_program_multiple_chunked.
      unfold bind at 1 2. unfold log at 1. unfold defined.
      cbv beta iota. rewrite Hc. cbn [out cache trace].
      unfold bind at 1. rewrite compute_simple_model_steps.
      rewrite Hq. change (chunk chunk_size (@nil record_type)) with (@nil (list record_type)).
      cbn [for_each_from]. unfold bind, ret. rewrite timing_world.
      cbn [out cache trace]. unfold cache_events.
      now rewrite <- !app_assoc. }
    now destruct (compressed a).
Qed.

(** ** Runs with and without defined thresholds *)

Lemma worker_record_selected (a : search_arguments) (c : search_constants)
      (table : list Z) (ibf : interleaved_bloom_filter) (r : record_type) :
  worker_record a c table ibf r = None
  <-> select_threshold a c table (Z.of_nat (length (minimisers a r))) = None.
Proof.
  rewrite worker_record_spec.
  destruct (select_threshold a c table _); cbn [option_map]; split; congruence.
Qed.

Lemma output_task_undefined (a : search_arguments) (c : search_constants)
      (table : list Z) (ibf : interleaved_bloom_filter)
      (records : list record_type) (counts : list (list Z)) (s e : Z) :
  (forall m, select_threshold a c table m = None) ->
  output_task a c table ibf records counts s e
  = all_defined (map (fun _ : record_type => @None string)
                     (slice s e records)).
Proof.
  intros Hsel. unfold output_task.
  destruct (slice s e records) as [|r rest]; [reflexivity|].
  cbn [output_loop map all_defined]. cbv zeta.
  destruct (nth_error counts _) as [acc|]; [|reflexivity].
  destruct (cv_add acc _) as [acc'|]; [|reflexivity].
  now rewrite Hsel.
Qed.

Lemma multiple_chunk_undefined (a : search_arguments) (c : search_constants)
      (table : list Z) (inp : inputs) (width : nat)
      (records : list record_type) (w : world) :
  Z.of_nat (length records) < size_t_modulus ->
  1 <= threads a < size_t_modulus ->
  records <> [] ->
  (forall m, select_threshold a c table m = None) ->
  exists w', multiple_chunk a c table inp width records w = Undef w'.
Proof.
  intros Hn Ht Hne Hsel. unfold multiple_chunk.
  unfold bind at 1 2. unfold log at 1 2. cbv beta iota zeta.
  unfold bind at 1.
  destruct (parallel_count a (ibf_part inp 0) records _ _) as [counts1 w1|w1];
    [|now exists w1].
  unfold bind at 1.
  destruct (count_parts a inp records (middle_parts a) counts1 w1)
    as [counts2 w2|w2]; [|now exists w2].
  unfold bind, log, open_out. cbv beta iota.
  match goal with
  | |- context [parallel_lines ?task _ _ ?w0] =>
      pose proof (parallel_lines_spec task
                    (fun _ : record_type => @None string) records (threads a)
                    w0 Hn Ht) as H
  end.
  destruct records as [|r rest]; [congruence|].
  cbn [map all_defined] in H. rewrite H.
  - eexists. reflexivity.
  - intros s e _ _. now apply output_task_undefined.
Qed.

Lemma take_nonempty {X : Type} (n : Z) (l : list X) :
  1 <= n -> l <> [] -> take n l <> [].
Proof.
  intros Hn Hl. destruct l as [|x l]; [congruence|]. cbn [take].
  now replace (0 <? n) with true by (symmetry; apply Z.ltb_lt; lia).
Qed.

(** X7: in single-part mode the number of threads is not observable in
    the results: for any two thread counts [t1, t2 >= 1] both runs are
    defined and leave the lines of the records in the results file, up
    to their order, and the same threshold cache. *)
Theorem thread_count_is_not_observable (a : search_arguments)
        (c : search_constants) (inp : inputs) (w : world) (ys : list string)
        (t1 t2 : Z) :
  1 <= t1 < size_t_modulus -> 1 <= t2 < size_t_modulus ->
  parts a = 1 ->
  derive_constants a = Some c ->
  all_defined (map (worker_record a c (threshold_table a (cache w))
                                  (ibf_single inp))
                   (query_records inp)) = Some ys ->
  exists w1 w2,
    raptor_search (with_threads a t1) inp w = Ok tt w1 /\
    raptor_search (with_threads a t2) inp w = Ok tt w2 /\
    Permutation (written w1) ys /\
    Permutation (written w2) ys /\
    cache w1 = cache w2.
Proof.
  intros Ht1 Ht2 Hp Hc Hys. pose proof chunk_size_bounds as Hb.
  assert (Hn : 1 <= chunk_size < size_t_modulus) by lia.
  unfold raptor_search, run_program_single.
  change (parts (with_threads a t1)) with (parts a).
  change (parts (with_threads a t2)) with (parts a).
  change (compressed (with_threads a t1)) with (compressed a).
  change (compressed (with_threads a t2)) with (compressed a).
  rewrite Hp. change (1 =? 1) with true. cbv iota.
  destruct (run_program_single_world chunk_size (with_threads a t1) c inp w
              ys Hn Ht1 Hc Hys) as (d1 & H1 & Hrun1).
  destruct (run_program_single_world chunk_size (with_threads a t2) c inp w
              ys Hn Ht2 Hc Hys) as (d2 & H2 & Hrun2).
  destruct (chunk_concat chunk_size (query_records inp) ltac:(lia))
    as (Hcc & _).
  rewrite <- Hcc in Hys.
  pose proof (lines_of_concat _ _ _ _ H1 Hys) as P1.
  pose proof (lines_of_concat _ _ _ _ H2 Hys) as P2.
  eexists _, _. split; [destruct (compressed a); exact Hrun1|].
  split; [destruct (compressed a); exact Hrun2|].
  unfold written. cbn [out cache]. repeat split; assumption.
Qed.


(** X9: the table is consulted on the flag, filled on the value.  With
    [treshold_was_set] false, a threshold value other than zero and more
    than one k-mer per window, [compute_simple_model] returns the empty
    table, every lookup reads past its end, and the run on a non-empty
    query file has undefined behaviour. *)
Theorem lookup_in_the_empty_table (a : search_arguments)
        (c : search_constants) (inp : inputs) (w : world) :
  1 <= threads a < size_t_modulus -> 1 <= parts a < 2 ^ 32 ->
  derive_constants a = Some c ->
  treshold_was_set a = false -> double_is_zero (threshold a) = false ->
  c_kmers_per_window c <> 1 ->
  query_records inp <> [] ->
  threshold_table a (cache w) = [] /\
  (forall m, select_threshold a c (threshold_table a (cache w)) m = None) /\
  exists w', raptor_search a inp w = Undef w'.
Proof.
  intros Ht Hp Hc Hset Hzero Hkpw Hq.
  assert (Htable : threshold_table a (cache w) = [])
    by (unfold threshold_table; now rewrite Hzero).
  assert (Hsel : forall m,
             select_threshold a c (threshold_table a (cache w)) m = None).
  { intros m. unfold select_threshold. rewrite Hset, Htable.
    replace (c_kmers_per_window c =? 1) with false
      by (symmetry; apply Z.eqb_neq; exact Hkpw).
    cbv zeta. now destruct (Z.to_nat _). }
  split; [exact Htable|]. split; [exact Hsel|].
  pose proof chunk_size_bounds as Hb.
  assert (Hn : 1 <= chunk_size < size_t_modulus) by lia.
  destruct (chunk_concat chunk_size (query_records inp) ltac:(lia))
    as (Hcc & _).
  unfold raptor_search, run_program_single, run_program_multiple.
  destruct (Z.eqb_spec (parts a) 1) as [E|E].
  - assert (H : exists w', run_program_single_chunked chunk_size a inp w
                           = Undef w').
    { unfold run_program_single_chunked.
      unfold bind at 1 2 3 4 5. unfold log at 1 2 3. unfold open_out, defined.
      cbv beta iota. rewrite Hc. cbn [out cache trace].
      unfold bind at 1. rewrite compute_simple_model_steps.
      cbn [out cache trace].
      match goal with
      | |- context [bind _ _ ?w0] =>
          pose proof (single_chunks_spec a c (threshold_table a (cache w))
                        (ibf_single inp) (chunk chunk_size (query_records inp))
                        w0 [] (chunk_sizes chunk_size _ Hn) Ht eq_refl) as H
      end.
      rewrite Hcc in H.
      destruct (query_records inp) as [|r l] eqn:Eq; [congruence|].
      cbn [map all_defined] in H.
      replace (worker_record a c (threshold_table a (cache w))
                             (ibf_single inp) r)
        with (@None string) in H
        by (symmetry; apply worker_record_selected, Hsel).
      destruct H as (w' & H). exists w'. unfold bind. now rewrite H. }
    destruct H as (w' & H). exists w'. now destruct (compressed a).
  - assert (H : exists w', run_program_multiple_chunked chunk_size a inp w
                           = Undef w').
    { unfold run_program_multiple_chunked.
      unfold bind at 1 2. unfold log at 1. unfold defined.
      cbv beta iota. rewrite Hc. cbn [out cache trace].
      unfold bind at 1. rewrite compute_simple_model_steps.
      cbn [out cache trace].
      pose proof (chunk_sizes chunk_size (query_records inp) Hn) as Hsizes.
      rewrite chunk_cons in Hsizes |- * by (lia || exact Hq).
      inversion Hsizes as [|? ? Hlen _]; subst.
      cbn [for_each_from]. unfold bind at 1 2.
      match goal with
      | |- context [multiple_chunk _ _ ?table _ ?width ?ch ?w0] =>
          destruct (multiple_chunk_undefined a c table inp width ch w0
                      Hlen Ht (take_nonempty chunk_size _ (proj1 Hn) Hq) Hsel)
            as (w' & ->)
      end.
      now exists w'. }
    destruct H as (w' & H). exists w'. now destruct (compressed a).
Qed.

(** X10: with [threads = 0] and a non-empty query file the first call of
    [do_parallel] divides by zero.  In single-part mode the results file
    has been created by then and stays empty; in multi-part mode it has
    not been touched. *)
Theorem run_without_threads (a : search_arguments) (c : search_constants)
        (inp : inputs) (w : world) :
  threads a = 0 ->
  derive_constants a = Some c ->
  query_records inp <> [] ->
  exists w',
    raptor_search a inp w = Undef w' /\
    out w' = (if parts a =? 1 then Some [] else out w).
Proof.
  intros Ht Hc Hq. pose proof chunk_size_bounds as Hb.
  unfold raptor_search, run_program_single, run_program_multiple.
  destruct (parts a =? 1).
  - assert (H : exists w', run_program_single_chunked chunk_size a inp w
                           = Undef w' /\ out w' = Some []).
    { unfold run_program_single_chunked.
      unfold bind at 1 2 3 4 5. unfold log at 1 2 3. unfold open_out, defined.
      cbv beta iota. rewrite Hc. cbn [out cache trace].
      unfold bind at 1. rewrite compute_simple_model_steps.
      cbn [out cache trace].
      rewrite chunk_cons by (lia || exact Hq). cbn [for_each].
      unfold bind at 1 2. unfold single_chunk, bind at 1, log. cbv beta iota.
      unfold parallel_lines, bind, defined, do_parallel. rewrite Ht.
      change (0 =? 0) with true. cbv iota.
      eexists. split; reflexivity. }
    destruct H as (w' & H & Ho). exists w'. now destruct (compressed a).
  - assert (H : exists w', run_program_multiple_chunked chunk_size a inp w
                           = Undef w' /\ out w' = out w).
    { unfold run_program_multiple_chunked.
      unfold bind at 1 2. unfold log at 1. unfold defined.
      cbv beta iota. rewrite Hc. cbn [out cache trace].
      unfold bind at 1. rewrite compute_simple_model_steps.
      cbn [out cache trace].
      rewrite chunk_cons by (lia || exact Hq). cbn [for_each_from].
      unfold bind at 1 2. unfold multiple_chunk, bind at 1 2 3, log.
      cbv beta iota zeta.
      unfold parallel_count, bind, defined, do_parallel. rewrite Ht.
      change (0 =? 0) with true. cbv iota.
      eexists. split; reflexivity. }
    destruct H as (w' & H & Ho). exists w'. now destruct (compressed a).
Qed.

(** ** The files of the parts *)

Lemma string_app_inv_head (s x y : string) :
  (s ++ x)%string = (s ++ y)%string -> x = y.
Proof.
  induction s as [|ch s IH]; intros H; [exact H|].
  cbn in H. injection H as H. now apply IH.
Qed.

Lemma string_app_length (s t : string) :
  String.length (s ++ t) = (String.length s + String.length t)%nat.
Proof. induction s as [|ch s IH]; cbn; [reflexivity|now rewrite IH]. Qed.

Lemma to_string_inj (i j : Z) :
  0 <= i -> 0 <= j -> to_string i = to_string j -> i = j.
Proof.
  intros Hi Hj H.
  pose proof (to_string_decimal i) as Ei.
  rewrite H, to_string_decimal in Ei. injection Ei as Ei.
  apply DecimalN.Unsigned.to_uint_inj in Ei. lia.
Qed.

(** X11: [load_ibf] reads part [i] from the file [ibf_file_i]: different
    parts are read from different files, and no part is read from the
    file [ibf_file] itself. *)
Theorem part_files_are_distinct (a : search_arguments) (i j : Z) :
  0 <= i -> 0 <= j ->
  (part_file a i = part_file a j -> i = j) /\
  part_file a i <> ibf_file a.
Proof.
  intros Hi Hj. unfold part_file. split.
  - intros H. apply string_app_inv_head in H.
    apply (string_app_inv_head "_") in H. now apply to_string_inj.
  - intros H. apply (f_equal String.length) in H.
    rewrite !string_app_length in H. cbn [String.length] in H. lia.
Qed.

(** ** A window one shorter than the k-mer *)

(** X12: for [w = k - 1] the number of k-mers per window is 0 and
    [min_number_of_minimisers] is initialised from a division by zero:
    the quotient is an infinity or a NaN, whose conversion to [size_t] is
    undefined.  Nothing checks for it: the run gets there after it has
    opened its files, in single-part mode after it has created the
    results file. *)
Theorem no_kmer_per_window (a : search_arguments) (inp : inputs) (w : world) :
  window_size a = kmer_size a - 1 ->
  kmers_per_window a = 0 /\
  derive_constants a = None /\
  exists w',
    raptor_search a inp w = Undef w' /\
    out w' = (if parts a =? 1 then Some [] else out w).
Proof.
  intros Hw.
  assert (Hkpw : kmers_per_window a = 0).
  { unfold kmers_per_window. rewrite Hw.
    replace (kmer_size a - 1 - kmer_size a) with (-1) by lia. reflexivity. }
  assert (Hc : derive_constants a = None).
  { unfold derive_constants, min_number_of_minimisers. rewrite Hkpw.
    change (0 =? 1) with false. cbv iota.
    assert (Hkpp : 0 <= kmers_per_pattern a < size_t_modulus)
      by (apply Z.mod_pos_bound; unfold size_t_modulus; lia).
    destruct (Z.eq_dec (kmers_per_pattern a) 0) as [->|Hne]; [reflexivity|].
    destruct (double_of_size_t_finite (kmers_per_pattern a) ltac:(lia))
      as (m & e & ->).
    reflexivity. }
  split; [exact Hkpw|]. split; [exact Hc|].
  unfold raptor_search, run_program_single, run_program_multiple.
  destruct (parts a =? 1).
  - assert (H : exists w', run_program_single_chunked chunk_size a inp w
                           = Undef w' /\ out w' = Some []).
    { unfold run_program_single_chunked.
      unfold bind at 1 2 3 4 5. unfold log at 1 2 3. unfold open_out, defined.
      cbv beta iota. rewrite Hc. eexists. split; reflexivity. }
    destruct H as (w' & H & Ho). exists w'. now destruct (compressed a).
  - assert (H : exists w', run_program_multiple_chunked chunk_size a inp w
                           = Undef w' /\ out w' = out w).
    { unfold run_program_multiple_chunked.
      unfold bind at 1 2. unfold log at 1. unfold defined.
      cbv beta iota. rewrite Hc. eexists. split; reflexivity. }
    destruct H as (w' & H & Ho). exists w'. now destruct (compressed a).
Qed.

(** ** The accumulators a counting task writes *)

(** X13: [count_task(start, end)] adds the counts of record [i] to
    accumulator [i] for [start <= i < end] and leaves the accumulators
    before [start] and from [end] on as they were: tasks on disjoint
    ranges write disjoint accumulators.  The addition is defined when
    the accumulator is no wider than the counts; the number and the
    widths of the accumulators do not change. *)
Theorem count_task_frame (a : search_arguments)
        (ibf : interleaved_bloom_filter) (records : list record_type)
        (counts : list (list Z)) (s e : Z) :
  0 <= s <= e -> e <= Z.of_nat (length records) ->
  length counts = length records ->
  count_task a ibf records counts s e
  = option_map
      (fun mid => take s counts ++ mid ++ drop e counts)
      (all_defined
         (map (fun p => cv_add (snd p) (bulk_count ibf (minimisers a (fst p))))
              (combine (slice s e records) (slice s e counts)))) /\
  (Forall (fun acc => (length acc <= bin_count ibf)%nat) (slice s e counts) ->
   count_task a ibf records counts s e
   = Some (take s counts
           ++ map (fun p => cv_sum (snd p)
                              (bulk_count ibf (minimisers a (fst p))))
                  (combine (slice s e records) (slice s e counts))
           ++ drop e counts)) /\
  (forall counts',
     count_task a ibf records counts s e = Some counts' ->
     length counts' = length counts /\
     map (@length Z) counts' = map (@length Z) counts).
Proof.
  intros Hs He Hlen.
  assert (E : count_task a ibf records counts s e
              = option_map
                  (fun mid => take s counts ++ mid ++ drop e counts)
                  (all_defined
                     (map (fun p => cv_add (snd p)
                                      (bulk_count ibf (minimisers a (fst p))))
                          (combine (slice s e records) (slice s e counts))))).
  { unfold count_task.
    pose proof (count_loop_spec a ibf (slice s e records) (take s counts)
                  (slice s e counts) (drop e counts)) as H.
    rewrite take_length in H by lia.
    rewrite <- split_at_slice in H by lia.
    apply H. apply Nat2Z.inj. rewrite !slice_length; lia. }
  split; [exact E|]. split.
  - intros Hfit. rewrite E, count_sums_fit by exact Hfit. reflexivity.
  - intros counts' H. rewrite E in H.
    destruct (all_defined _) as [mid|] eqn:Emid; [|discriminate H].
    injection H as <-.
    assert (Hmid : map (@length Z) mid = map (@length Z) (slice s e counts)).
    { assert (Hsl : length (slice s e records) = length (slice s e counts))
        by (apply Nat2Z.inj; rewrite !slice_length; lia).
      revert Emid Hsl. generalize (slice s e records) (slice s e counts).
      clear. intros recs. revert mid.
      induction recs as [|r recs IH]; intros mid [|acc accs] Emid Hsl;
        try discriminate Hsl; cbn [combine map all_defined] in Emid.
      - now injection Emid as <-.
      - cbn [fst snd] in Emid.
        destruct (cv_add acc _) as [acc'|] eqn:Eacc; [|discriminate Emid].
        destruct (all_defined _) as [mid'|] eqn:E'; [|discriminate Emid].
        injection Emid as <-. cbn [map]. f_equal.
        + eapply cv_add_length, Eacc.
        + apply IH; [exact E'|now injection Hsl]. }
    assert (Hw : map (@length Z) (take s counts ++ mid ++ drop e counts)
                 = map (@length Z) counts).
    { rewrite !map_app, Hmid, <- !map_app. f_equal. symmetry.
      apply split_at_slice. lia. }
    split; [|exact Hw].
    rewrite <- (length_map (@length Z)), Hw. apply length_map.
Qed.

(** ** Accumulators allocated before part 0 is loaded *)

Lemma accumulated_nil (a : search_arguments) (inp : inputs) (r : record_type)
      (part_ids : list Z) :
  accumulated a inp r part_ids [] = [].
Proof. induction part_ids as [|part rest IH]; [reflexivity|exact IH]. Qed.

(** X14: the accumulators of the first chunk are allocated with
    [ibf.bin_count()] before the load of part 0 is waited for.  When that
    load has not finished by then, the filter is still the empty one and
    the accumulators have no counter: the additions of every part leave
    them empty, and the line of every record of the chunk is its id, a
    tab and a line feed, whatever the index holds and whatever the
    threshold is. *)
Theorem unloaded_part_gives_empty_lines (a : search_arguments)
        (c : search_constants) (inp : inputs) (w : world) :
  2 <= parts a < 2 ^ 32 ->
  1 <= threads a < size_t_modulus ->
  derive_constants a = Some c ->
  (forall r, In r (query_records inp) ->
             select_threshold a c (threshold_table a (cache w))
                              (Z.of_nat (length (minimisers a r))) <> None) ->
  query_records inp <> [] ->
  Z.of_nat (length (query_records inp)) <= chunk_size ->
  part0_loaded 0 = false ->
  allocation_width a inp 0 = 0%nat /\
  exists data w',
    raptor_search a inp w = Ok tt w' /\
    out w' = Some data /\
    Permutation data
                (map (fun r => (rec_id r ++ tab ++ newline)%string)
                     (query_records inp)).
Proof.
  intros Hp Ht Hc Hsel Hne Hlen Hearly. pose proof chunk_size_bounds as Hb.
  assert (Hn : 1 <= chunk_size < size_t_modulus) by lia.
  assert (Hwidth : allocation_width a inp 0 = 0%nat)
    by (unfold allocation_width; now rewrite Hearly).
  split; [exact Hwidth|].
  assert (Hchunk : chunk chunk_size (query_records inp) = [query_records inp])
    by (apply chunk_small; assumption || lia).
  assert (Hfit : forall i, 0 <= i < parts a ->
                   (allocation_width a inp 0
                    <= bin_count (ibf_part inp i))%nat)
    by (intros i _; rewrite Hwidth; lia).
  destruct (run_program_multiple_chunked_spec chunk_size a c inp w
              Hn Ht Hp Hc) as (w' & Hrun & _ & Hlast).
  { rewrite Hchunk. cbn [length]. intros k i Hk Hi.
    replace k with 0%nat by lia. apply Hfit. lia. }
  { rewrite Hchunk. cbn [length]. intros k r Hk Hr.
    replace k with 0%nat by lia.
    apply multiple_record_defined; [lia|exact Hfit|now apply Hsel]. }
  destruct (Hlast Hne) as (data & ys & Hys & Hperm & Hout).
  rewrite Hchunk in Hys. cbn [length last Nat.sub] in Hys.
  exists data, w'. split; [|split; [exact Hout|]].
  - unfold raptor_search. replace (parts a =? 1) with false by lia.
    now destruct (compressed a).
  - rewrite Hperm.
    rewrite (all_defined_map_total _
               (fun r => (rec_id r ++ tab ++ newline)%string)) in Hys.
    + injection Hys as <-. apply Permutation_refl.
    + intros r Hr. rewrite multiple_record_total by (lia || exact Hfit).
      rewrite Hwidth. cbn [repeat]. rewrite accumulated_nil.
      specialize (Hsel r Hr).
      destruct (select_threshold a c _ _) as [tau_req|]; [|congruence].
      cbn [option_map]. now rewrite emit_line_spec.
Qed.

End Search.

(** * The theorems at the small instance *)

(** The driver on ten records and three threads. *)
Lemma do_parallel_ranges_witness :
  exists run,
    do_parallel 10 3 = Some run /\
    Z.of_nat (length (launched run)) = 3 /\
    (forall i, 0 <= i < 3 - 1 ->
       nth (Z.to_nat i) (launched run) (0, 0)
       = (i * (10 / 3), (i + 1) * (10 / 3))) /\
    nth (Z.to_nat (3 - 1)) (launched run) (0, 0) = ((3 - 1) * (10 / 3), 10) /\
    waited run = seq 0 (length (launched run)).
Proof.
  apply (do_parallel_ranges 10 3); unfold size_t_modulus; lia.
Defined.

(** The driver on two records and five threads: four empty ranges and
    the whole of the records for the last task. *)
Lemma do_parallel_covers_witness :
  do_parallel 2 0 = None /\
  exists run,
    do_parallel 2 5 = Some run /\
    concat (map task_indices (launched run)) = zrange 0 (Z.to_nat 2) /\
    (forall j, 0 <= j < 2 ->
       length (filter (fun r => (fst r <=? j) && (j <? snd r)) (launched run))
       = 1%nat) /\
    (2 < 5 -> launched run = repeat (0, 0) (Z.to_nat (5 - 1)) ++ [(0, 2)]).
Proof.
  apply (do_parallel_covers 2 5); unfold size_t_modulus; lia.
Defined.

(** Scenario S1 without a user threshold, on the record of ten
    minimisers. *)
Lemma threshold_selection_witness :
  exists c,
    derive_constants (Example.scenario double_zero false 1) = Some c /\
    c_kmers_per_window c = 23 - 19 + 1 /\
    c_min_number_of_minimisers c = Spec.ceil_div (100 - 19 + 1) (23 - 19 + 1) /\
    c_max_number_of_minimisers c = 100 - 23 + 1 /\
    c_kmer_lemma c = Z.max 0 (100 + 1 - (2 + 1) * 19) /\
    (forall m, 0 <= m < size_t_modulus ->
       select_threshold (Example.scenario double_zero false 1) c [3; 4; 5] m
       = Spec.tau_req_double (Example.scenario double_zero false 1) [3; 4; 5] m) /\
    worker_record Example.hash Example.seed
                  (Example.scenario double_zero false 1) c [3; 4; 5]
                  Example.whole Example.long
    = option_map
        (fun tau_req =>
           Spec.line "r"
             (Spec.hit_bins tau_req
                (bulk_count Example.whole
                   (minimisers Example.hash Example.seed
                      (Example.scenario double_zero false 1) Example.long))))
        (Spec.tau_req_double (Example.scenario double_zero false 1) [3; 4; 5]
           (Z.of_nat (length (minimisers Example.hash Example.seed
                                (Example.scenario double_zero false 1)
                                Example.long)))) /\
    (forall tau_req counts b,
       In b (Spec.hit_bins tau_req counts)
       <-> 0 <= b < Z.of_nat (length counts) /\
           tau_req <= nth (Z.to_nat b) counts 0).
Proof.
  apply (threshold_selection Example.hash Example.seed
           (Example.scenario double_zero false 1) [3; 4; 5]
           Example.whole Example.long).
  - cbn. lia.
  - cbn. lia.
  - cbn. lia.
  - cbn. unfold size_t_modulus. lia.
  - unfold size_t_modulus. repeat constructor; lia.
  - vm_compute. reflexivity.
Defined.

(** The two loops on the records [q] and [s] with the threshold 0.5,
    and the line of the counts 1 and 0 at the threshold 1. *)
Lemma emitted_line_format_witness :
  let a := Example.small Example.half true 2 in
  let c := Example.small_constants in
  let records := [Example.query; Example.short] in
  let accumulators := [[1; 0]; [0; 0]] in
  worker Example.hash Example.seed a c [] Example.whole records 0 2
  = all_defined
      (map (fun r =>
              option_map
                (fun threshold =>
                   Spec.line (rec_id r)
                     (Spec.hit_bins threshold
                        (bulk_count Example.whole
                           (minimisers Example.hash Example.seed a r))))
                (select_threshold a c []
                   (Z.of_nat (length (minimisers Example.hash Example.seed
                                                 a r)))))
           (slice 0 2 records)) /\
  output_task Example.hash Example.seed a c [] Example.whole records
              accumulators 0 2
  = all_defined
      (map (fun ra =>
              match cv_add (snd ra)
                           (bulk_count Example.whole
                              (minimisers Example.hash Example.seed a (fst ra)))
              with
              | Some acc =>
                  option_map
                    (fun threshold =>
                       Spec.line (rec_id (fst ra))
                                 (Spec.hit_bins threshold acc))
                    (select_threshold a c []
                       (Z.of_nat (length (minimisers Example.hash Example.seed
                                                     a (fst ra)))))
              | None => None
              end)
           (combine (slice 0 2 records) (slice 0 2 accumulators))) /\
  emit_line "q" 1 [1; 0] = Spec.line "q" (Spec.hit_bins 1 [1; 0]) /\
  StronglySorted Z.lt (Spec.hit_bins 1 [1; 0]) /\
  (forall b, In b (Spec.hit_bins 1 [1; 0])
             <-> 0 <= b < Z.of_nat (length [1; 0])
                 /\ 1 <= nth (Z.to_nat b) [1; 0] 0) /\
  (forall b, NilZero.uint_of_string (to_string b)
             = Some (N.to_uint (Z.to_N b))) /\
  (forall b s, 0 <= b -> to_string b = String "0"%char s ->
               b = 0 /\ s = EmptyString) /\
  Spec.line "q" [] = ("q" ++ tab ++ newline)%string.
Proof.
  cbv zeta.
  apply (emitted_line_format Example.hash Example.seed
           (Example.small Example.half true 2) Example.small_constants []
           Example.whole [Example.query; Example.short]
           [[1; 0]; [0; 0]] 0 2 "q" 1 [1; 0]).
  - lia.
  - cbn. lia.
  - reflexivity.
Defined.


(** The thresholds 0.5 and 0.7 on ten minimisers, with counts 6 and 0. *)
Lemma user_threshold_monotone_witness :
  exists tau1 tau2,
    select_threshold (Example.scenario Example.half true 1)
                     Example.scenario_constants [] 10 = Some tau1 /\
    select_threshold (Example.scenario Example.seven_tenths true 1)
                     Example.scenario_constants [] 10 = Some tau2 /\
    tau1 <= tau2 /\
    incl (Spec.hit_bins tau2 [6; 0]) (Spec.hit_bins tau1 [6; 0]) /\
    emit_line "r" tau1 [6; 0] = Spec.line "r" (Spec.hit_bins tau1 [6; 0]) /\
    emit_line "r" tau2 [6; 0] = Spec.line "r" (Spec.hit_bins tau2 [6; 0]).
Proof.
  apply (user_threshold_monotone
           (Example.scenario Example.half true 1)
           (Example.scenario Example.seven_tenths true 1)
           Example.scenario_constants [] 10 "r" [6; 0]).
  - reflexivity.
  - reflexivity.
  - repeat split; vm_compute; reflexivity.
  - repeat split; vm_compute; reflexivity.
  - vm_compute. reflexivity.
  - lia.
Defined.

(** * Where the code and the specification part *)

(** With the user threshold 0.7 and ten minimisers the code selects the
    threshold 7: the double product of 10 and 0.7 is rounded to 7 before
    it is truncated, while the floor of the product is 6.  A bin with six
    of the ten minimisers is not listed.  With the threshold 0.29 and a
    hundred minimisers the code selects 28, below the floor 29 of the
    product of 100 and the decimal 29/100. *)
Lemma user_threshold_is_not_the_floor :
  derive_constants (Example.scenario Example.seven_tenths true 1)
  = Some Example.scenario_constants /\
  length (minimisers Example.hash Example.seed
            (Example.scenario Example.seven_tenths true 1) Example.long)
  = 10%nat /\
  select_threshold (Example.scenario Example.seven_tenths true 1)
                   Example.scenario_constants [] 10 = Some 7 /\
  Spec.tau_req (Example.scenario Example.seven_tenths true 1) [] 10 = Some 6 /\
  bulk_count Example.whole
             (minimisers Example.hash Example.seed
                (Example.scenario Example.seven_tenths true 1) Example.long)
  = [6; 0] /\
  Spec.hit_bins 6 [6; 0] = [0] /\
  worker_record Example.hash Example.seed
                (Example.scenario Example.seven_tenths true 1)
                Example.scenario_constants [] Example.whole Example.long
  = Some (Spec.line "r" []) /\
  select_threshold (Example.scenario Example.twenty_nine_hundredths true 1)
                   Example.scenario_constants [] 100 = Some 28 /\
  100 * 29 / 100 = 29.
Proof. repeat split; vm_compute; reflexivity. Qed.


(** The arguments [k = 33] violate the invariants; the run opens the
    index, the queries and the results file all the same. *)
Lemma invalid_arguments_reach_the_files :
  ~ Spec.validated_before_io
      (raptor_search Example.hash Example.seed Example.precompute
                     (@concat string) (fun _ => true)).
Proof.
  intros H.
  destruct (H (Example.arguments 40 33 100 2 double_zero false 1)
              (Example.inputs_by_hash [Example.query]) Example.start)
    as (Hv & _).
  - intros (Hk & _). cbn in Hk. lia.
  - vm_compute in Hv. discriminate.
Qed.

(** C6 (scenario S4): with a user threshold of 0.0 the table is not
    skipped: the cache is read and, on a miss, the table computed and
    written back. *)
Theorem zero_user_threshold_is_not_skipped :
  treshold_was_set (Example.scenario double_zero true 1) = true /\
  compute_simple_model Example.precompute (Example.scenario double_zero true 1)
                       Example.start
  = Ok [3; 4; 5]
       {| out := None; cache := Some [3; 4; 5];
          trace := [ev_cache_read; ev_precompute; ev_cache_write] |}.
Proof. split; reflexivity. Qed.

Lemma example_splits_by_hash :
  splits_by_hash Example.whole Example.by_hash 2.
Proof.
  split; [reflexivity|]. intros h b Hb. cbn [Example.whole bin_count] in Hb.
  change (zrange 0 (Z.to_nat 2)) with [0; 1].
  cbn [filter Example.by_hash Example.whole contains].
  destruct (h =? Z.of_nat b + 1) eqn:E; [|reflexivity].
  apply Z.eqb_eq in E. subst h.
  destruct b as [|[|b]]; [reflexivity|reflexivity|lia].
Qed.

(** The index of two bins split by parity of the hash value, the
    threshold 0.5, and accumulators allocated after part 0 is loaded. *)
Lemma multi_part_matches_single_part_witness :
  exists single multiple w1 w2,
    raptor_search Example.hash Example.seed Example.precompute (@concat string)
                  (fun _ => true)
                  (with_parts (Example.small Example.half true 2) 1)
                  (Example.inputs_by_hash [Example.query]) Example.start
    = Ok tt w1 /\
    raptor_search Example.hash Example.seed Example.precompute (@concat string)
                  (fun _ => true)
                  (Example.small Example.half true 2)
                  (Example.inputs_by_hash [Example.query]) Example.start
    = Ok tt w2 /\
    out w1 = Some single /\ out w2 = Some multiple /\
    Permutation single [Spec.line "q" [0; 1]] /\
    Permutation multiple [Spec.line "q" [0; 1]].
Proof.
  apply (multi_part_matches_single_part
           Example.hash Example.seed Example.precompute (@concat string)
           (fun ls => Permutation_refl (concat ls)) (fun _ => true)
           (Example.small Example.half true 2) Example.small_constants
           (Example.inputs_by_hash [Example.query]) Example.start
           [Spec.line "q" [0; 1]]).
  - cbn. unfold size_t_modulus. lia.
  - cbn. lia.
  - vm_compute. reflexivity.
  - exact example_splits_by_hash.
  - discriminate.
  - cbn. unfold chunk_size. lia.
  - reflexivity.
  - vm_compute. reflexivity.
Defined.

(** The index of two bins split by bin, a record with one minimiser in
    each bin, and the threshold 0.5: on the whole index both bins are
    reported; over the parts the accumulator has the one position of
    part 0, or none when it is allocated before part 0 is loaded, so at
    most one bin is reported, whatever the scheduler does. *)
Lemma bin_split_changes_the_hits :
  splits_by_bin Example.whole Example.by_bin 2 1 /\
  written (world_of (raptor_search Example.hash Example.seed Example.precompute
                       (@concat string) (fun _ => true)
                       (Example.small Example.half true 1)
                       (Example.inputs_by_bin [Example.query]) Example.start))
  = map (fun r => Spec.line (fst r) (snd r)) [("q"%string, [0; 1])] /\
  (forall early : nat -> bool,
     exists bins,
       written (world_of (raptor_search Example.hash Example.seed
                            Example.precompute (@concat string) early
                            (Example.small Example.half true 2)
                            (Example.inputs_by_bin [Example.query])
                            Example.start))
       = map (fun r => Spec.line (fst r) (snd r)) [("q"%string, bins)] /\
       ~ Spec.equal_up_to_renumbering [("q"%string, bins)]
                                      [("q"%string, [0; 1])]).
Proof.
  split; [|split].
  - split; [reflexivity|]. split; reflexivity.
  - vm_compute. reflexivity.
  - intros early.
    unfold raptor_search.
    change (parts (Example.small Example.half true 2) =? 1) with false.
    change (compressed (Example.small Example.half true 2)) with false.
    cbv iota. unfold run_program_multiple, run_program_multiple_chunked.
    replace (chunk chunk_size
               (query_records (Example.inputs_by_bin [Example.query])))
      with [[Example.query]] by (vm_compute; reflexivity).
    cbn [for_each_from]. unfold allocation_width, held_before.
    destruct (early 0%nat).
    + exists [0]. split; [vm_compute; reflexivity|].
      intros (rho & H).
      destruct (H "q"%string 0) as ((b0 & Hb0 & E0) & _);
        [left; reflexivity|].
      destruct (H "q"%string 1) as ((b1 & Hb1 & E1) & _);
        [right; left; reflexivity|].
      destruct Hb0 as [Hb0|[]]. destruct Hb1 as [Hb1|[]].
      injection Hb0 as <-. injection Hb1 as <-. lia.
    + exists []. split; [vm_compute; reflexivity|].
      intros (rho & H).
      destruct (H "q"%string 0) as ((b0 & Hb0 & _) & _);
        [left; reflexivity|].
      destruct Hb0.
Qed.

Lemma example_thresholds (n : nat) :
  Forall (fun r =>
            select_threshold (Example.small double_zero false 2)
              Example.small_constants
              (threshold_table Example.precompute
                               (Example.small double_zero false 2)
                               (cache Example.start))
              (Z.of_nat (length (minimisers Example.hash Example.seed
                                   (Example.small double_zero false 2) r)))
            <> None)
         (repeat Example.query n).
Proof.
  apply Forall_forall. intros r Hr. apply repeat_spec in Hr. subst r.
  vm_compute. discriminate.
Qed.

Lemma example_widths (early : nat -> bool) (records : list record_type)
      (j : nat) (i : Z) :
  0 <= i < 2 ->
  (allocation_width early (Example.small double_zero false 2)
                    (Example.inputs_by_hash records) j
   <= bin_count (ibf_part (Example.inputs_by_hash records) i))%nat.
Proof.
  intros Hi. unfold allocation_width, held_before.
  cbn [ibf_part Example.inputs_by_hash Example.by_hash bin_count].
  destruct (early j); [apply Nat.le_refl|].
  destruct j; cbn [Example.by_hash empty_ibf bin_count]; lia.
Qed.

(** Three full chunks and 17 records in two parts; the accumulators of
    every chunk are allocated before part 0 is loaded. *)
Lemma multiple_mode_keeps_last_chunk_witness :
  exists data w',
    raptor_search Example.hash Example.seed Example.precompute (@concat string)
                  (fun _ => false)
                  (Example.small double_zero false 2)
                  (Example.inputs_by_hash Example.many) Example.start
    = Ok tt w' /\
    out w' = Some data /\ length data = 17%nat.
Proof.
  apply (multiple_mode_keeps_last_chunk
           Example.hash Example.seed Example.precompute (@concat string)
           (fun ls => Permutation_refl (concat ls)) (fun _ => false)
           (Example.small double_zero false 2) Example.small_constants
           (Example.inputs_by_hash Example.many) Example.start).
  - cbn. unfold size_t_modulus. lia.
  - cbn. lia.
  - vm_compute. reflexivity.
  - apply (proj1 (Forall_forall _ _)).
    change (query_records (Example.inputs_by_hash Example.many))
      with (repeat Example.query (3 * Z.to_nat chunk_size + 17)).
    apply example_thresholds.
  - intros j i _. exact (example_widths (fun _ => false) Example.many j i).
  - change (Z.of_nat (length (repeat Example.query
                                     (3 * Z.to_nat chunk_size + 17)))
            = 3 * chunk_size + 17).
    rewrite repeat_length. pose proof chunk_size_bounds. lia.
Defined.

(** * The further theorems at the small instance *)

(** The threshold 0.7 on ten minimisers. *)
Lemma user_threshold_near_floor_witness :
  let a := Example.scenario Example.seven_tenths true 1 in
  exists tau_req,
    select_threshold a Example.scenario_constants [] 10 = Some tau_req /\
    Spec.floor_product 10 (threshold a) <= tau_req
    <= Spec.floor_product 10 (threshold a) + 1 /\
    tau_req <= 10 /\
    (threshold a = double_one -> tau_req = 10).
Proof.
  cbv zeta.
  apply (user_threshold_near_floor
           (Example.scenario Example.seven_tenths true 1)
           Example.scenario_constants [] 10).
  - reflexivity.
  - repeat split; vm_compute; reflexivity.
  - lia.
Defined.

(** Scenario S1 with a table of 62 entries and twenty minimisers. *)
Lemma table_lookup_in_bounds_witness :
  let a := Example.scenario double_zero false 1 in
  exists c t,
    derive_constants a = Some c /\
    0 <= Spec.table_index a 20
    <= c_max_number_of_minimisers c - c_min_number_of_minimisers c /\
    nth_error (repeat 3 62) (Z.to_nat (Spec.table_index a 20)) = Some t /\
    select_threshold a c (repeat 3 62) 20 = Some (t + 2) /\
    (20 <= c_min_number_of_minimisers c -> Spec.table_index a 20 = 0) /\
    (c_max_number_of_minimisers c <= 20 ->
     Spec.table_index a 20
     = c_max_number_of_minimisers c - c_min_number_of_minimisers c).
Proof.
  cbv zeta.
  apply (table_lookup_in_bounds (Example.scenario double_zero false 1)
                                (repeat 3 62) 20).
  - cbn. lia.
  - cbn. lia.
  - cbn. lia.
  - cbn. unfold size_t_modulus. lia.
  - reflexivity.
  - apply Forall_forall. intros t Ht. apply repeat_spec in Ht.
    unfold size_t_modulus. lia.
  - vm_compute. reflexivity.
  - unfold size_t_modulus. lia.
Defined.

(** Scenario S4: the user threshold 0.0 on the record of ten minimisers
    and a record without minimisers. *)
Lemma zero_threshold_lists_every_bin_witness :
  let a := Example.scenario double_zero true 1 in
  let c := Example.scenario_constants in
  let records := [Example.long; Example.short] in
  let accumulators := [[7; 0]; [1]] in
  Forall (fun r => select_threshold a c []
                     (Z.of_nat (length (minimisers Example.hash Example.seed
                                                   a r))) = Some 0)
         records /\
  worker Example.hash Example.seed a c [] Example.whole records 0 2
  = Some (map (fun r => Spec.line (rec_id r) (zrange 0 (bin_count Example.whole)))
              (slice 0 2 records)) /\
  output_task Example.hash Example.seed a c [] Example.whole records
              accumulators 0 2
  = Some (map (fun ra => Spec.line (rec_id (fst ra))
                                   (zrange 0 (length (snd ra))))
              (combine (slice 0 2 records) (slice 0 2 accumulators))).
Proof.
  cbv zeta.
  apply (zero_threshold_lists_every_bin Example.hash Example.seed
           (Example.scenario double_zero true 1) Example.scenario_constants []
           Example.whole [Example.long; Example.short] [[7; 0]; [1]] 0 2).
  - left. split; reflexivity.
  - repeat constructor; vm_compute; reflexivity.
  - lia.
  - cbn. lia.
  - reflexivity.
  - repeat constructor.
Defined.

(** Single-part mode on two records, with the threshold 0.5. *)
Lemma single_part_run_witness :
  let a := Example.small Example.half true 1 in
  let inp := Example.inputs_by_hash [Example.query; Example.short] in
  let w := Example.start in
  let c := Example.small_constants in
  exists datas,
    Forall2 (lines_of (worker_record Example.hash Example.seed a c
                         (threshold_table Example.precompute a (cache w))
                         (ibf_single inp)))
            datas (chunk chunk_size (query_records inp)) /\
    Permutation (concat datas) [Spec.line "q" [0; 1]; Spec.line "s" [0; 1]] /\
    raptor_search Example.hash Example.seed Example.precompute (@concat string)
                  (fun _ => false) a inp w
    = Ok tt {| out := Some (concat datas);
               cache := if double_is_zero (threshold a)
                        then Some (threshold_table Example.precompute a (cache w))
                        else cache w;
               trace := trace w
                        ++ [ev_open_ibf; ev_load_ibf None; ev_open_query;
                            ev_open_out]
                        ++ cache_events a (cache w)
                        ++ concat (map (fun p => single_chunk_events
                                                   (fst p) (snd p))
                                       (combine (chunk chunk_size
                                                       (query_records inp))
                                                datas))
                        ++ timing_events a |}.
Proof.
  cbv zeta.
  apply (single_part_run Example.hash Example.seed Example.precompute
           (@concat string) (fun ls => Permutation_refl (concat ls))
           (fun _ => false)
           (Example.small Example.half true 1) Example.small_constants
           (Example.inputs_by_hash [Example.query; Example.short])
           Example.start [Spec.line "q" [0; 1]; Spec.line "s" [0; 1]]).
  - reflexivity.
  - cbn. unfold size_t_modulus. lia.
  - vm_compute. reflexivity.
  - vm_compute. reflexivity.
Defined.

(** Multi-part mode on the index split by hash value, two parts, with
    accumulators allocated before part 0 is loaded. *)
Lemma multi_part_run_witness :
  let a := Example.small Example.half true 2 in
  let inp := Example.inputs_by_hash [Example.query; Example.short] in
  let w := Example.start in
  let c := Example.small_constants in
  let early := fun _ : nat => false in
  exists datas w',
    Forall2 (fun data jch =>
               lines_of
                 (fun r =>
                    option_map
                      (fun threshold =>
                         Spec.line (rec_id r)
                           (Spec.hit_bins threshold
                              (accumulated Example.hash Example.seed a inp r
                                 (zrange 0 (Z.to_nat (parts a)))
                                 (repeat 0 (allocation_width early a inp
                                                             (fst jch))))))
                      (select_threshold a c
                         (threshold_table Example.precompute a (cache w))
                         (Z.of_nat (length (minimisers Example.hash
                                              Example.seed a r)))))
                 data (snd jch))
            datas
            (combine (seq 0 (length (chunk chunk_size (query_records inp))))
                     (chunk chunk_size (query_records inp))) /\
    raptor_search Example.hash Example.seed Example.precompute (@concat string)
                  early a inp w = Ok tt w' /\
    out w' = last (map Some datas) (out w) /\
    trace w'
    = trace w ++ [ev_open_query] ++ cache_events a (cache w)
      ++ concat (map (fun p => multiple_chunk_events (parts a) (fst p) (snd p))
                     (combine (chunk chunk_size (query_records inp)) datas))
      ++ timing_events a /\
    loaded_parts (trace w')
    = loaded_parts (trace w)
      ++ concat (map (fun _ => zrange 0 (Z.to_nat (parts a)))
                     (chunk chunk_size (query_records inp))).
Proof.
  cbv zeta.
  apply (multi_part_run Example.hash Example.seed Example.precompute
           (@concat string) (fun ls => Permutation_refl (concat ls))
           (fun _ => false)
           (Example.small Example.half true 2) Example.small_constants
           (Example.inputs_by_hash [Example.query; Example.short])
           Example.start).
  - cbn. lia.
  - cbn. unfold size_t_modulus. lia.
  - vm_compute. reflexivity.
  - intros r [<-|[<-|[]]]; vm_compute; discriminate.
  - intros j i _ _. destruct j; cbn; lia.
Defined.

(** No record to search, in either mode. *)
Lemma empty_query_file_witness :
  let a := Example.small Example.half true 2 in
  let inp := Example.inputs_by_hash [] in
  let w := Example.start in
  raptor_search Example.hash Example.seed Example.precompute (@concat string)
                (fun _ => false) a inp w
  = Ok tt {| out := if parts a =? 1 then Some [] else out w;
             cache := if double_is_zero (threshold a)
                      then Some (threshold_table Example.precompute a (cache w))
                      else cache w;
             trace := trace w
                      ++ (if parts a =? 1
                          then [ev_open_ibf; ev_load_ibf None; ev_open_query;
                                ev_open_out]
                          else [ev_open_query])
                      ++ cache_events a (cache w) ++ timing_events a |}.
Proof.
  cbv zeta.
  apply (empty_query_file Example.hash Example.seed Example.precompute
           (@concat string) (fun ls => Permutation_refl (concat ls))
           (fun _ => false)
           (Example.small Example.half true 2) Example.small_constants
           (Example.inputs_by_hash []) Example.start).
  - reflexivity.
  - vm_compute. reflexivity.
Defined.

(** One thread and three threads, on two records in single-part mode. *)
Lemma thread_count_is_not_observable_witness :
  let a := Example.small Example.half true 1 in
  let inp := Example.inputs_by_hash [Example.query; Example.short] in
  let ys := [Spec.line "q" [0; 1]; Spec.line "s" [0; 1]] in
  exists w1 w2,
    raptor_search Example.hash Example.seed Example.precompute (@concat string)
                  (fun _ => false) (with_threads a 1) inp Example.start
    = Ok tt w1 /\
    raptor_search Example.hash Example.seed Example.precompute (@concat string)
                  (fun _ => false) (with_threads a 3) inp Example.start
    = Ok tt w2 /\
    Permutation (written w1) ys /\
    Permutation (written w2) ys /\
    cache w1 = cache w2.
Proof.
  cbv zeta.
  apply (thread_count_is_not_observable
           Example.hash Example.seed Example.precompute (@concat string)
           (fun ls => Permutation_refl (concat ls)) (fun _ => false)
           (Example.small Example.half true 1) Example.small_constants
           (Example.inputs_by_hash [Example.query; Example.short])
           Example.start [Spec.line "q" [0; 1]; Spec.line "s" [0; 1]] 1 3).
  - unfold size_t_modulus. lia.
  - unfold size_t_modulus. lia.
  - reflexivity.
  - vm_compute. reflexivity.
  - vm_compute. reflexivity.
Defined.


(** The threshold value 0.5 without the flag, in scenario S1. *)
Lemma lookup_in_the_empty_table_witness :
  let a := Example.scenario Example.half false 1 in
  let inp := Example.inputs_by_hash [Example.long] in
  let w := Example.start in
  threshold_table Example.precompute a (cache w) = [] /\
  (forall m, select_threshold a Example.scenario_constants
               (threshold_table Example.precompute a (cache w)) m = None) /\
  exists w',
    raptor_search Example.hash Example.seed Example.precompute (@concat string)
                  (fun _ => false) a inp w = Undef w'.
Proof.
  cbv zeta.
  apply (lookup_in_the_empty_table
           Example.hash Example.seed Example.precompute (@concat string)
           (fun ls => Permutation_refl (concat ls)) (fun _ => false)
           (Example.scenario Example.half false 1) Example.scenario_constants
           (Example.inputs_by_hash [Example.long]) Example.start).
  - cbn. unfold size_t_modulus. lia.
  - cbn. lia.
  - vm_compute. reflexivity.
  - reflexivity.
  - reflexivity.
  - cbn. lia.
  - discriminate.
Defined.

(** No thread, one record. *)
Lemma run_without_threads_witness :
  let a := with_threads (Example.small Example.half true 1) 0 in
  let inp := Example.inputs_by_hash [Example.query] in
  exists w',
    raptor_search Example.hash Example.seed Example.precompute (@concat string)
                  (fun _ => false) a inp Example.start = Undef w' /\
    out w' = (if parts a =? 1 then Some [] else out Example.start).
Proof.
  cbv zeta.
  apply (run_without_threads
           Example.hash Example.seed Example.precompute (@concat string)
           (fun ls => Permutation_refl (concat ls)) (fun _ => false)
           (with_threads (Example.small Example.half true 1) 0)
           Example.small_constants
           (Example.inputs_by_hash [Example.query]) Example.start).
  - reflexivity.
  - vm_compute. reflexivity.
  - discriminate.
Defined.

(** The files of the parts 0 and 1. *)
Lemma part_files_are_distinct_witness :
  let a := Example.small Example.half true 2 in
  (part_file a 0 = part_file a 1 -> 0 = 1) /\
  part_file a 0 <> ibf_file a.
Proof.
  cbv zeta.
  apply (part_files_are_distinct (Example.small Example.half true 2) 0 1); lia.
Defined.

(** [k = 19] and [w = 18]. *)
Lemma no_kmer_per_window_witness :
  let a := Example.arguments 18 19 100 2 double_zero false 1 in
  let inp := Example.inputs_by_hash [Example.long] in
  kmers_per_window a = 0 /\
  derive_constants a = None /\
  exists w',
    raptor_search Example.hash Example.seed Example.precompute (@concat string)
                  (fun _ => false) a inp Example.start = Undef w' /\
    out w' = (if parts a =? 1 then Some [] else out Example.start).
Proof.
  cbv zeta.
  apply (no_kmer_per_window
           Example.hash Example.seed Example.precompute (@concat string)
           (fun ls => Permutation_refl (concat ls)) (fun _ => false)
           (Example.arguments 18 19 100 2 double_zero false 1)
           (Example.inputs_by_hash [Example.long]) Example.start).
  reflexivity.
Defined.

(** The task on the second of three records. *)
Lemma count_task_frame_witness :
  let a := Example.small Example.half true 2 in
  let records := [Example.short; Example.query; Example.short] in
  let counts := [[0; 0]; [0; 7]; [0; 0]] in
  count_task Example.hash Example.seed a Example.whole records counts 1 2
  = option_map
      (fun mid => take 1 counts ++ mid ++ drop 2 counts)
      (all_defined
         (map (fun p => cv_add (snd p)
                          (bulk_count Example.whole
                             (minimisers Example.hash Example.seed a (fst p))))
              (combine (slice 1 2 records) (slice 1 2 counts)))) /\
  (Forall (fun acc => (length acc <= bin_count Example.whole)%nat)
          (slice 1 2 counts) ->
   count_task Example.hash Example.seed a Example.whole records counts 1 2
   = Some (take 1 counts
           ++ map (fun p => cv_sum (snd p)
                              (bulk_count Example.whole
                                 (minimisers Example.hash Example.seed a
                                             (fst p))))
                  (combine (slice 1 2 records) (slice 1 2 counts))
           ++ drop 2 counts)) /\
  (forall counts',
     count_task Example.hash Example.seed a Example.whole records counts 1 2
     = Some counts' ->
     length counts' = length counts /\
     map (@length Z) counts' = map (@length Z) counts).
Proof.
  cbv zeta.
  apply (count_task_frame Example.hash Example.seed
           (Example.small Example.half true 2) Example.whole
           [Example.short; Example.query; Example.short]
           [[0; 0]; [0; 7]; [0; 0]] 1 2).
  - lia.
  - cbn. lia.
  - reflexivity.
Defined.

(** Two records in two parts, with the threshold 0.5: on the index split
    by hash value the record [q] has both its minimisers in the index. *)
Lemma unloaded_part_gives_empty_lines_witness :
  let a := Example.small Example.half true 2 in
  let inp := Example.inputs_by_hash [Example.query; Example.short] in
  let early := fun _ : nat => false in
  allocation_width early a inp 0 = 0%nat /\
  exists data w',
    raptor_search Example.hash Example.seed Example.precompute (@concat string)
                  early a inp Example.start = Ok tt w' /\
    out w' = Some data /\
    Permutation data
                (map (fun r => (rec_id r ++ tab ++ newline)%string)
                     (query_records inp)).
Proof.
  cbv zeta.
  apply (unloaded_part_gives_empty_lines
           Example.hash Example.seed Example.precompute (@concat string)
           (fun ls => Permutation_refl (concat ls)) (fun _ => false)
           (Example.small Example.half true 2) Example.small_constants
           (Example.inputs_by_hash [Example.query; Example.short])
           Example.start).
  - cbn. lia.
  - cbn. unfold size_t_modulus. lia.
  - vm_compute. reflexivity.
  - intros r [<-|[<-|[]]]; vm_compute; discriminate.
  - discriminate.
  - cbn. unfold chunk_size. lia.
  - reflexivity.
Defined.
